(** * ThunderKittens: shared tiles, the shared/register transfer engine and the
      warpgroup multiply-accumulate dispatcher

    A shallow embedding of
      - the shared tile [st] and its subtile view [st_subtile]
        (types/shared/st.cuh),
      - [load], [store] and [atomic_add] between shared tiles and register
        tiles (ops/warp/memory/tile/shared_to_register.cuh),
      - the static checks of the warpgroup dispatcher [base::rt_st] and
        [base::st_st] (the m64n80k16 specialisation).

    Conventions.  C++ [int] values are integers of [Z]; [/] and [%] on [int]
    are [Z.quot] and [Z.rem].  Signed overflow is undefined behaviour; where
    a result is stored in an [int] member (the offsets of a subtile) it is
    reduced to 32 bits as the targets do ([int_wrap]).  A [uint32_t] is an
    integer of [Z] reduced modulo 2^32 where the source can wrap.  Template
    parameters become ordinary arguments, a [static_assert] becomes a boolean
    that the instantiation must satisfy, and [if constexpr] becomes a
    conditional on those arguments. *)

From Stdlib Require Import ZArith List Lia Bool String Permutation.
Import ListNotations.
Local Open Scope Z_scope.

(** ** Element types *)

(** The scalar element types the sources name, and any other type, known by
    its size only. *)
Inductive dtype : Type :=
| float
| bf16
| half
| fp8e4m3
| fp8e5m2
| other_type (bytes : Z).

Definition sizeof (T : dtype) : Z :=
  match T with
  | float => 4
  | bf16 => 2
  | half => 2
  | fp8e4m3 => 1
  | fp8e5m2 => 1
  | other_type n => n
  end.

Definition dtype_eqb (A B : dtype) : bool :=
  match A, B with
  | float, float | bf16, bf16 | half, half
  | fp8e4m3, fp8e4m3 | fp8e5m2, fp8e5m2 => true
  | other_type n, other_type m => n =? m
  | _, _ => false
  end.

(** [kittens::TILE_ROW_DIM<T>] and [kittens::TILE_COL_DIM<T>], the base-tile
    quantum.  They are declared in common/, which is not among the sources,
    and are taken as parameters. *)
Class TileDim : Type := {
  TILE_ROW_DIM : dtype -> Z;
  TILE_COL_DIM : dtype -> Z
}.

(** [int2]: a coordinate [{x, y}], used as [{row, col}]. *)
Record int2 : Type := mk_int2 { x : Z; y : Z }.

Definition uint32_wrap (n : Z) : Z := n mod 2 ^ 32.

(** The [int] a 32-bit two's complement target holds for the integer [n]:
    [n] itself when it fits, else [n] reduced modulo 2^32 into
    [-2^31 .. 2^31 - 1]. *)
Definition int_wrap (n : Z) : Z := (n + 2 ^ 31) mod 2 ^ 32 - 2 ^ 31.

(** ** The shared tile [st<_T, _rows, _cols>] *)

Module st.
Section Defs.
Context `{TileDim}.

Record t : Type := Build { T : dtype; rows : Z; cols : Z }.

Definition underlying_rows (s : t) : Z := rows s.
Definition underlying_cols (s : t) : Z := cols s.
Definition underlying_height (s : t) : Z := Z.quot (rows s) (TILE_ROW_DIM (T s)).
Definition underlying_width (s : t) : Z := Z.quot (cols s) (TILE_COL_DIM (T s)).
Definition height (s : t) : Z := Z.quot (rows s) (TILE_ROW_DIM (T s)).
Definition width (s : t) : Z := Z.quot (cols s) (TILE_COL_DIM (T s)).
Definition num_elements (s : t) : Z := rows s * cols s.

(** The two [static_assert]s on the extents. *)
Definition static_asserts (s : t) : bool :=
  (Z.rem (rows s) (TILE_ROW_DIM (T s)) =? 0) &&
  (Z.rem (cols s) (TILE_COL_DIM (T s)) =? 0).

(** The third [static_assert], [base_types::packing<dtype>::num() == 1];
    the packing trait is declared in common/, which is not among the sources:
    [num] is its [num()], taken as a parameter. *)
Definition packing_assert (num : dtype -> Z) (s : t) : bool :=
  num (T s) =? 1.

(** All the [static_assert]s of the struct: what instantiating
    [st<_T, _rows, _cols>] checks. *)
Definition instantiates (num : dtype -> Z) (s : t) : bool :=
  static_asserts s && packing_assert num s.

Definition swizzle_bytes (s : t) : Z :=
  if sizeof (T s) =? 1 then
    (if Z.rem (underlying_width s) 4 =? 0 then 128
     else if Z.rem (underlying_width s) 2 =? 0 then 64 else 32)
  else if sizeof (T s) =? 2 then
    (if Z.rem (underlying_width s) 4 =? 0 then 128
     else if Z.rem (underlying_width s) 2 =? 0 then 64 else 32)
  else if sizeof (T s) =? 4 then
    (if Z.rem (underlying_width s) 2 =? 0 then 128 else 64)
  else -1.

(** [idx(T *ptr, int2 coord)]: the pointer is the integer address it
    holds; [&ptr[k]] is [ptr + sizeof(T) * k]. *)
Definition idx_ptr (s : t) (ptr : Z) (coord : int2) : Z :=
  let r := x coord in
  let c := y coord in
  let swizzle_repeat := swizzle_bytes s * 8 in
  let subtile_cols := swizzle_bytes s / sizeof (T s) in
  let outer_idx := Z.quot c subtile_cols in
  let addr := ptr + sizeof (T s) *
    (outer_idx * rows s * subtile_cols + r * subtile_cols + Z.rem c subtile_cols) in
  let swizzle := Z.shiftl (Z.shiftr (addr mod swizzle_repeat) 7) 4 in
  Z.lxor addr swizzle.

(** [idx(uint32_t ptr, int2 coord)]: the same on a 32-bit shared-space
    address. *)
Definition idx (s : t) (ptr : Z) (coord : int2) : Z :=
  let r := x coord in
  let c := y coord in
  let swizzle_repeat := swizzle_bytes s * 8 in
  let subtile_cols := swizzle_bytes s / sizeof (T s) in
  let outer_idx := Z.quot c subtile_cols in
  let addr := uint32_wrap (ptr + sizeof (T s) *
    (outer_idx * rows s * subtile_cols + r * subtile_cols + Z.rem c subtile_cols)) in
  let swizzle := Z.shiftl (Z.shiftr (addr mod swizzle_repeat) 7) 4 in
  Z.lxor addr swizzle.

(** The locals [addr] and [swizzle] of [idx(T *ptr, int2 coord)]. *)
Definition idx_ptr_addr (s : t) (ptr : Z) (coord : int2) : Z :=
  let r := x coord in
  let c := y coord in
  let subtile_cols := swizzle_bytes s / sizeof (T s) in
  let outer_idx := Z.quot c subtile_cols in
  ptr + sizeof (T s) *
    (outer_idx * rows s * subtile_cols + r * subtile_cols + Z.rem c subtile_cols).

Definition idx_ptr_swizzle (s : t) (ptr : Z) (coord : int2) : Z :=
  let swizzle_repeat := swizzle_bytes s * 8 in
  let addr := idx_ptr_addr s ptr coord in
  Z.shiftl (Z.shiftr (addr mod swizzle_repeat) 7) 4.

(** [operator[](const int2 &rowcol)] and [operator[](int idx)]: the
    address of the element the returned reference designates, [data]
    being the address of the backing buffer. *)
Definition subscript_coord (s : t) (data : Z) (rowcol : int2) : Z :=
  idx_ptr s data rowcol.

Definition subscript_int (s : t) (data : Z) (i : Z) : Z :=
  data + sizeof (T s) * i.

End Defs.
End st.

(** ** The subtile view [st_subtile<_ST, _subtile_rows, _subtile_cols>] *)

Module st_subtile.
Section Defs.
Context `{TileDim}.

(** The type parameters ([ST], [rows], [cols]) and the members
    ([data], [row_offset], [col_offset]). *)
Record t : Type := Build {
  ST : st.t;
  rows : Z;
  cols : Z;
  data : Z;
  row_offset : Z;
  col_offset : Z
}.

Definition T (s : t) : dtype := st.T (ST s).
Definition underlying_rows (s : t) : Z := st.underlying_rows (ST s).
Definition underlying_cols (s : t) : Z := st.underlying_cols (ST s).
Definition underlying_height (s : t) : Z := st.underlying_height (ST s).
Definition underlying_width (s : t) : Z := st.underlying_width (ST s).
Definition height (s : t) : Z := Z.quot (rows s) (TILE_ROW_DIM (T s)).
Definition width (s : t) : Z := Z.quot (cols s) (TILE_COL_DIM (T s)).
Definition num_elements (s : t) : Z := rows s * cols s.
Definition swizzle_bytes (s : t) : Z := st.swizzle_bytes (ST s).

(** The four [static_assert]s of the struct, on the type parameters. *)
Definition static_asserts (P : st.t) (_subtile_rows _subtile_cols : Z) : bool :=
  (Z.rem (st.underlying_rows P) (TILE_ROW_DIM (st.T P)) =? 0) &&
  (Z.rem (st.underlying_cols P) (TILE_COL_DIM (st.T P)) =? 0) &&
  (Z.rem _subtile_rows (TILE_ROW_DIM (st.T P)) =? 0) &&
  (Z.rem _subtile_cols (TILE_COL_DIM (st.T P)) =? 0).

(** The constructor [st_subtile(ST &src, int2 rowcol)]; [src_data] is the
    address [&src.data[0]].  The two offsets are [int] products stored in
    [int] members. *)
Definition ctor (P : st.t) (_subtile_rows _subtile_cols : Z)
    (src_data : Z) (rowcol : int2) : t :=
  {| ST := P;
     rows := _subtile_rows;
     cols := _subtile_cols;
     data := src_data;
     row_offset := int_wrap (x rowcol * _subtile_rows);
     col_offset := int_wrap (y rowcol * _subtile_cols) |}.

Definition idx_ptr (s : t) (ptr : Z) (coord : int2) : Z :=
  let r := x coord + row_offset s in
  let c := y coord + col_offset s in
  let swizzle_repeat := swizzle_bytes s * 8 in
  let subtile_cols := swizzle_bytes s / sizeof (T s) in
  let outer_idx := Z.quot c subtile_cols in
  let addr := ptr + sizeof (T s) *
    (outer_idx * underlying_rows s * subtile_cols + r * subtile_cols
     + Z.rem c subtile_cols) in
  let swizzle := Z.shiftl (Z.shiftr (addr mod swizzle_repeat) 7) 4 in
  Z.lxor addr swizzle.

Definition idx (s : t) (ptr : Z) (coord : int2) : Z :=
  let r := x coord + row_offset s in
  let c := y coord + col_offset s in
  let swizzle_repeat := swizzle_bytes s * 8 in
  let subtile_cols := swizzle_bytes s / sizeof (T s) in
  let outer_idx := Z.quot c subtile_cols in
  let addr := uint32_wrap (ptr + sizeof (T s) *
    (outer_idx * underlying_rows s * subtile_cols + r * subtile_cols
     + Z.rem c subtile_cols)) in
  let swizzle := Z.shiftl (Z.shiftr (addr mod swizzle_repeat) 7) 4 in
  Z.lxor addr swizzle.

Definition subscript_coord (s : t) (rowcol : int2) : Z :=
  idx_ptr s (data s) rowcol.

End Defs.
End st_subtile.


(** The last two statements of every [idx]: the address, exclusive-or the
    swizzle term computed from it. *)
Definition xor_swizzle (swizzle_bytes addr : Z) : Z :=
  Z.lxor addr (Z.shiftl (Z.shiftr (addr mod (swizzle_bytes * 8)) 7) 4).

(** The base-tile quantum of the sources' targets: 16 rows, and 16 columns
    but 32 for 1-byte elements (a fragment row of [load] and [store] is two
    16-byte halves: [col = j*tile_size_col + (laneid / 16) * 16]). *)
Definition dims16 : TileDim :=
  {| TILE_ROW_DIM := fun _ => 16;
     TILE_COL_DIM := fun T => if sizeof T =? 1 then 32 else 16 |}.

(** The swizzle periods [swizzle_bytes] takes for 1-, 2- and 4-byte
    elements. *)
Definition period_ok (sb : Z) : Prop := sb = 32 \/ sb = 64 \/ sb = 128.

(** A tile descriptor the struct accepts, for the element widths that have a
    swizzle period: the [static_assert]s hold, the extents are positive, and
    a quantum-wide row of elements fills whole minimal periods (32 bytes for
    1- and 2-byte elements, 64 for 4-byte ones). *)
Definition supported `{TileDim} (s : st.t) : Prop :=
  (sizeof (st.T s) = 1 \/ sizeof (st.T s) = 2 \/ sizeof (st.T s) = 4) /\
  st.static_asserts s = true /\
  0 < st.rows s /\ 0 < st.cols s /\
  0 < TILE_COL_DIM (st.T s) /\
  (sizeof (st.T s) * TILE_COL_DIM (st.T s))
    mod (if sizeof (st.T s) =? 4 then 64 else 32) = 0.

(** Coordinates inside a [rows] x [cols] tile. *)
Definition in_tile (rows cols : Z) (coord : int2) : Prop :=
  0 <= x coord < rows /\ 0 <= y coord < cols.

(** The element offset every [idx] computes before scaling by the element
    size: [outer_idx*rows*subtile_cols + r*subtile_cols + c%subtile_cols]. *)
Definition element_offset (subtile_cols rows r c : Z) : Z :=
  Z.quot c subtile_cols * rows * subtile_cols + r * subtile_cols
  + Z.rem c subtile_cols.

(** ** Register tiles *)

(** [ducks::rt_layout::row] and [ducks::rt_layout::col]. *)
Module rt_layout.
Inductive t : Type := row | col.
Definition is_row (l : t) : bool :=
  match l with row => true | col => false end.
End rt_layout.

(** The register tile type [RT].  rt.cuh is not among the sources: the
    record holds the members [load], [store] and [atomic_add] read off it
    (for [rt<T, rows, cols, layout>] they are [rows / TILE_ROW_DIM<T>],
    [cols / TILE_COL_DIM<T>], [TILE_ROW_DIM<T>], [TILE_COL_DIM<T>]). *)
Module rt.
Record t : Type := Build {
  layout : rt_layout.t;
  height : Z;
  width : Z;
  tile_size_row : Z;
  tile_size_col : Z
}.
End rt.

(** A packed register value ([T2], [U2]): component [0] is [.x], component
    [1] is [.y]; the 4-wide packing of 1-byte elements has components
    [0..3] in memory order. *)
Definition packed (E : Type) : Type := Z -> E.

Definition pack2 {E : Type} (vx vy : E) : packed E :=
  fun e => if e =? 0 then vx else vy.

(** [rt_base]: the four packed registers [data[0..3]] of one lane. *)
Definition rt_base (E : Type) : Type := Z -> packed E.

Definition mk_rt_base {E : Type} (d0 d1 d2 d3 : packed E) : rt_base E :=
  fun k => if k =? 0 then d0 else if k =? 1 then d1
           else if k =? 2 then d2 else d3.

(** The register tile of the whole warp: lane, then [tiles[i][j]]. *)
Definition fragment (E : Type) : Type := Z -> Z -> Z -> rt_base E.

(** What instantiating a template yields: a [static_assert] failure with
    its message, or the instantiated body. *)
Inductive outcome (A : Type) : Type :=
| Rejected (msg : string)
| Compiled (a : A).
Arguments Rejected {A} msg.
Arguments Compiled {A} a.

(** The integers [0 .. n-1], and the 32 lanes of a warp. *)
Definition range (n : Z) : list Z := map Z.of_nat (seq 0 (Z.to_nat n)).
Definition lanes : list Z := range 32.

(** ** A shared tile argument: an [st] or an [st_subtile] ([ducks::st::all]) *)

Module ST.
Section Defs.
Context `{TileDim}.

Inductive t : Type :=
| root (s : st.t)
| sub (s : st_subtile.t).

Definition dtype (a : t) : dtype :=
  match a with root s => st.T s | sub s => st_subtile.T s end.
Definition rows (a : t) : Z :=
  match a with root s => st.rows s | sub s => st_subtile.rows s end.
Definition cols (a : t) : Z :=
  match a with root s => st.cols s | sub s => st_subtile.cols s end.
Definition underlying_rows (a : t) : Z :=
  match a with
  | root s => st.underlying_rows s
  | sub s => st_subtile.underlying_rows s
  end.
Definition underlying_cols (a : t) : Z :=
  match a with
  | root s => st.underlying_cols s
  | sub s => st_subtile.underlying_cols s
  end.
Definition height (a : t) : Z :=
  match a with root s => st.height s | sub s => st_subtile.height s end.
Definition width (a : t) : Z :=
  match a with root s => st.width s | sub s => st_subtile.width s end.
Definition swizzle_bytes (a : t) : Z :=
  match a with
  | root s => st.swizzle_bytes s
  | sub s => st_subtile.swizzle_bytes s
  end.
Definition idx (a : t) (ptr : Z) (coord : int2) : Z :=
  match a with
  | root s => st.idx s ptr coord
  | sub s => st_subtile.idx s ptr coord
  end.

(** [row_offset] and [col_offset] are members of [st_subtile] only; they
    are read in a branch that is instantiated only when the extents differ
    from the underlying ones, which an [st] never does. *)
Definition row_offset (a : t) : Z :=
  match a with root _ => 0 | sub s => st_subtile.row_offset s end.
Definition col_offset (a : t) : Z :=
  match a with root _ => 0 | sub s => st_subtile.col_offset s end.

End Defs.
End ST.

(** ** Shared memory and the move primitives *)

(** A memory operation on the element at a shared address. *)
Inductive mem_op (U : Type) : Type :=
| Store (addr : Z) (v : U)
| AtomicAdd (addr : Z) (v : U).
Arguments Store {U} addr v.
Arguments AtomicAdd {U} addr v.

Definition op_addr {U : Type} (op : mem_op U) : Z :=
  match op with Store a _ => a | AtomicAdd a _ => a end.

(** Shared memory holds one element per element address; an operation
    overwrites the element or adds to it. *)
Definition exec {U : Type} (add : U -> U -> U) (m : Z -> U) (op : mem_op U)
    : Z -> U :=
  match op with
  | Store a v => fun b => if b =? a then v else m b
  | AtomicAdd a v => fun b => if b =? a then add (m a) v else m b
  end.

Definition run {U : Type} (add : U -> U -> U) (ops : list (mem_op U))
    (m : Z -> U) : Z -> U :=
  fold_left (exec add) ops m.

Module move.
Section Defs.
Context {U : Type}.

(** Modelled from the spec: [move<U>::lds] (ops/warp/memory/util/util.cuh is
    not among the sources), the "single load" wrapper: the element at the
    shared address. *)
Definition lds (m : Z -> U) (src : Z) : U := m src.

(** Modelled from the spec: [move<U>::sts], the single store wrapper. *)
Definition sts (dst : Z) (v : U) : list (mem_op U) := [Store dst v].

(** Modelled from the spec: [move<U2>::sts], the store of a packed pair;
    [.x] is the element at [dst], [.y] the next one, [sz] bytes further. *)
Definition sts2 (sz : Z) (dst : Z) (v : packed U) : list (mem_op U) :=
  [Store dst (v 0); Store (dst + sz) (v 1)].

(** Modelled from the spec: [move<U2>::ldsm4], the "grouped load" wrapper of
    the hardware's four 8x8 matrix loads of 16-bit cells.  Lane [8k + n]
    supplies in [src] the address of the 16-byte row [n] of matrix [k];
    a lane receives from each matrix the 4 bytes of row [laneid / 4] at
    byte offset [4 * (laneid mod 4)], that is the packed elements
    [e = 0, 1, ..] at [sz * e] from there.  The four results are in the
    order of the wrapper's four destination arguments. *)
Definition ldsm4 (sz : Z) (m : Z -> U) (src : Z -> Z) (laneid : Z)
    : packed U * packed U * packed U * packed U :=
  let reg (k : Z) : packed U :=
    fun e => m (src (8 * k + laneid / 4) + 4 * (laneid mod 4) + sz * e) in
  (reg 0, reg 1, reg 2, reg 3).

(** Modelled from the spec: [move<U2>::ldsm4t], the transposing grouped
    load.  A lane receives from each matrix the two 16-bit cells of column
    [laneid / 4] in rows [2 * (laneid mod 4)] and [2 * (laneid mod 4) + 1];
    a cell holds [2 / sz] elements. *)
Definition ldsm4t (sz : Z) (m : Z -> U) (src : Z -> Z) (laneid : Z)
    : packed U * packed U * packed U * packed U :=
  let per := 2 / sz in
  let reg (k : Z) : packed U :=
    fun e => m (src (8 * k + 2 * (laneid mod 4) + e / per)
                + 2 * (laneid / 4) + sz * (e mod per)) in
  (reg 0, reg 1, reg 2, reg 3).

(** Modelled from the spec: [move<U2>::stsm4], the grouped store, the
    converse of [ldsm4]: every lane's four registers go where [ldsm4]
    would read them.  The operations of the whole warp, lane by lane. *)
Definition stsm4 (sz : Z) (dst : Z -> Z)
    (src : Z -> packed U * packed U * packed U * packed U)
    : list (mem_op U) :=
  flat_map (fun laneid =>
    let '(s1, s2, s3, s4) := src laneid in
    let reg_ops (k : Z) (reg : packed U) :=
      map (fun e => Store (dst (8 * k + laneid / 4) + 4 * (laneid mod 4) + sz * e)
                          (reg e))
          (range (4 / sz)) in
    reg_ops 0 s1 ++ reg_ops 1 s2 ++ reg_ops 2 s3 ++ reg_ops 3 s4) lanes.

(** Modelled from the spec: [move<U2>::stsm4t], the transposing grouped
    store, the converse of [ldsm4t]. *)
Definition stsm4t (sz : Z) (dst : Z -> Z)
    (src : Z -> packed U * packed U * packed U * packed U)
    : list (mem_op U) :=
  flat_map (fun laneid =>
    let '(s1, s2, s3, s4) := src laneid in
    let per := 2 / sz in
    let reg_ops (k : Z) (reg : packed U) :=
      map (fun e => Store (dst (8 * k + 2 * (laneid mod 4) + e / per)
                           + 2 * (laneid / 4) + sz * (e mod per))
                          (reg e))
          (range (4 / sz)) in
    reg_ops 0 s1 ++ reg_ops 1 s2 ++ reg_ops 2 s3 ++ reg_ops 3 s4) lanes.

End Defs.
End move.

Module atomic.
Section Defs.
Context {U : Type}.

(** Modelled from the spec: [atomic<U>::adds] (util.cuh is not among the
    sources), the atomic add wrapper: one atomic add of [v] to the element
    at the shared address. *)
Definition adds (dst : Z) (v : U) : list (mem_op U) := [AtomicAdd dst v].

(** Modelled from the spec: [atomic<U2>::adds], the atomic add of a packed
    pair to the two elements at [dst]. *)
Definition adds2 (sz : Z) (dst : Z) (v : packed U) : list (mem_op U) :=
  [AtomicAdd dst (v 0); AtomicAdd (dst + sz) (v 1)].

End Defs.
End atomic.

(** ** [load], [store] and [atomic_add] between a shared tile and a register
       tile (shared_to_register.cuh) *)

Module transfer.
Section Defs.
Context `{TileDim}.
Context {U T : Type}.

(** [base_types::convertor<T2, U2>::convert] and
    [base_types::convertor<U2, T2>::convert] (base_types.cuh is not among
    the sources): conversions of packed values, component by component. *)
Variable convert_in : U -> T.
Variable convert_out : T -> U.

(** Whether [KITTENS_HOPPER] is defined. *)
Variable hopper : bool.

Definition convert_T2 (v : packed U) : packed T := fun e => convert_in (v e).
Definition convert_U2 (v : packed T) : packed U := fun e => convert_out (v e).

(** The two [static_assert]s that open each of the three functions. *)
Definition static_asserts (R : rt.t) (S : ST.t) : option string :=
  if negb (rt.height R =? ST.height S)
  then Some "register tile and shared tile must match height"%string
  else if negb (rt.width R =? ST.width S)
  then Some "register tile and shared tile must match width"%string
  else None.

(** The body of the two loops of [load], for the lane [laneid]: the new
    value of [dst.tiles[i][j]]. *)
Definition load_tile (R : rt.t) (S : ST.t) (m : Z -> U) (shared_addr : Z)
    (dst : fragment T) (i j laneid : Z) : rt_base T :=
  let sz := sizeof (ST.dtype S) in
  if sz =? 2 then
    let row l := i * rt.tile_size_row R + Z.rem l 16 in
    let col l := j * rt.tile_size_col R + Z.quot l 16 * 8 in
    let src l := ST.idx S shared_addr (mk_int2 (row l) (col l)) in
    let tmp :=
      if rt_layout.is_row (rt.layout R) then
        let '(d1, d2, d3, d4) := move.ldsm4 sz m src laneid in
        mk_rt_base d1 d2 d3 d4
      else
        let '(d1, d2, d3, d4) := move.ldsm4t sz m src laneid in
        mk_rt_base d1 d3 d2 d4 in
    mk_rt_base (convert_T2 (tmp 0)) (convert_T2 (tmp 1))
               (convert_T2 (tmp 2)) (convert_T2 (tmp 3))
  else if rt_layout.is_row (rt.layout R) && (sz =? 1) then
    let row l := i * rt.tile_size_row R + Z.rem l 16 in
    let col l := j * rt.tile_size_col R + Z.quot l 16 * 16 in
    let src l := ST.idx S shared_addr (mk_int2 (row l) (col l)) in
    let tmp :=
      if rt_layout.is_row (rt.layout R) then
        let '(d1, d2, d3, d4) := move.ldsm4 sz m src laneid in
        mk_rt_base d1 d2 d3 d4
      else
        let '(d1, d2, d3, d4) := move.ldsm4t sz m src laneid in
        mk_rt_base d1 d3 d2 d4 in
    mk_rt_base (convert_T2 (tmp 0)) (convert_T2 (tmp 1))
               (convert_T2 (tmp 2)) (convert_T2 (tmp 3))
  else if rt_layout.is_row (rt.layout R) && (sz =? 4) then
    let '(row, col) :=
      if (ST.rows S =? ST.underlying_rows S) && (ST.cols S =? ST.underlying_cols S)
      then (i * rt.tile_size_row R + Z.quot laneid 4,
            j * rt.tile_size_col R + 2 * Z.rem laneid 4)
      else (i * rt.tile_size_row R + Z.quot laneid 4 + ST.row_offset S,
            j * rt.tile_size_col R + 2 * Z.rem laneid 4 + ST.col_offset S) in
    let blit := sz * Z.quot (Z.rem laneid 4) 2 in
    let swizzle_repeat := ST.swizzle_bytes S * 8 in
    let subtile_cols := ST.swizzle_bytes S / sz in
    let outer_idx := Z.quot col subtile_cols in
    let addr_1 := uint32_wrap (shared_addr + sz *
      (outer_idx * ST.underlying_rows S * subtile_cols + (row + 0) * subtile_cols
       + Z.rem col subtile_cols)) in
    let addr_2 := uint32_wrap (shared_addr + sz *
      (outer_idx * ST.underlying_rows S * subtile_cols + (row + 8) * subtile_cols
       + Z.rem col subtile_cols)) in
    let swizzle_1 :=
      Z.lxor blit (Z.shiftl (Z.shiftr (addr_1 mod swizzle_repeat) 7) 4) in
    let swizzle_2 :=
      Z.lxor blit (Z.shiftl (Z.shiftr (addr_2 mod swizzle_repeat) 7) 4) in
    let at1 off := move.lds m (Z.lxor (uint32_wrap (addr_1 + off)) swizzle_1) in
    let at2 off := move.lds m (Z.lxor (uint32_wrap (addr_2 + off)) swizzle_2) in
    let tmp0 := pack2 (at1 0) (at1 4) in
    let tmp2 := pack2 (at1 32) (at1 36) in
    let tmp1 := pack2 (at2 0) (at2 4) in
    let tmp3 := pack2 (at2 32) (at2 36) in
    let data := mk_rt_base (convert_T2 tmp0) (convert_T2 tmp1)
                           (convert_T2 tmp2) (convert_T2 tmp3) in
    if negb (blit =? 0)
    then fun k => pack2 (data k 1) (data k 0)
    else data
  else if negb (sz =? 1) then
    let row := i * rt.tile_size_row R + 2 * Z.rem laneid 4 in
    let col := j * rt.tile_size_col R + Z.quot laneid 4 in
    let at_ r c := move.lds m (ST.idx S shared_addr (mk_int2 r c)) in
    let tmp0 := pack2 (at_ (row + 0) (col + 0)) (at_ (row + 1) (col + 0)) in
    let tmp1 := pack2 (at_ (row + 0) (col + 8)) (at_ (row + 1) (col + 8)) in
    let tmp2 := pack2 (at_ (row + 8) (col + 0)) (at_ (row + 9) (col + 0)) in
    let tmp3 := pack2 (at_ (row + 8) (col + 8)) (at_ (row + 9) (col + 8)) in
    mk_rt_base (convert_T2 tmp0) (convert_T2 tmp1)
               (convert_T2 tmp2) (convert_T2 tmp3)
  else dst laneid i j.

(** [load(dst, src)]: [m] is shared memory, [shared_addr] the shared-space
    address of [src.data[0]], [dst] the register tile before the call. *)
Definition load (R : rt.t) (S : ST.t) (m : Z -> U) (shared_addr : Z)
    (dst : fragment T) : outcome (fragment T) :=
  match static_asserts R S with
  | Some msg => Rejected msg
  | None =>
      Compiled (fun laneid i j =>
        if (0 <=? i) && (i <? rt.height R) && (0 <=? j) && (j <? rt.width R)
        then load_tile R S m shared_addr dst i j laneid
        else dst laneid i j)
  end.

(** Every lane of the warp runs the same body. *)
Definition warp (body : Z -> list (mem_op U)) : list (mem_op U) :=
  flat_map body lanes.

(** The body of the two loops of [store], for the whole warp. *)
Definition store_tile (R : rt.t) (S : ST.t) (shared_addr : Z)
    (src : fragment T) (i j : Z) : list (mem_op U) :=
  let sz := sizeof (ST.dtype S) in
  let tmp laneid k := convert_U2 (src laneid i j k) in
  if sz =? 2 then
    if hopper then
      let row l := i * rt.tile_size_row R + Z.rem l 16 in
      let col l := j * rt.tile_size_col R + Z.quot l 16 * 8 in
      let dst l := ST.idx S shared_addr (mk_int2 (row l) (col l)) in
      if rt_layout.is_row (rt.layout R) then
        move.stsm4 sz dst (fun l => (tmp l 0, tmp l 1, tmp l 2, tmp l 3))
      else
        move.stsm4t sz dst (fun l => (tmp l 0, tmp l 2, tmp l 1, tmp l 3))
    else
      if rt_layout.is_row (rt.layout R) then
        warp (fun laneid =>
          let row := i * rt.tile_size_row R + Z.quot laneid 4 in
          let col := j * rt.tile_size_col R + 2 * Z.rem laneid 4 in
          let at_ r c := ST.idx S shared_addr (mk_int2 r c) in
          move.sts2 sz (at_ (row + 0) (col + 0)) (tmp laneid 0) ++
          move.sts2 sz (at_ (row + 8) (col + 0)) (tmp laneid 1) ++
          move.sts2 sz (at_ (row + 0) (col + 8)) (tmp laneid 2) ++
          move.sts2 sz (at_ (row + 8) (col + 8)) (tmp laneid 3))
      else
        warp (fun laneid =>
          let row := i * rt.tile_size_row R + 2 * Z.rem laneid 4 in
          let col := j * rt.tile_size_col R + Z.quot laneid 4 in
          let at_ r c := ST.idx S shared_addr (mk_int2 r c) in
          move.sts (at_ (row + 0) (col + 0)) (tmp laneid 0 0) ++
          move.sts (at_ (row + 1) (col + 0)) (tmp laneid 0 1) ++
          move.sts (at_ (row + 0) (col + 8)) (tmp laneid 1 0) ++
          move.sts (at_ (row + 1) (col + 8)) (tmp laneid 1 1) ++
          move.sts (at_ (row + 8) (col + 0)) (tmp laneid 2 0) ++
          move.sts (at_ (row + 9) (col + 0)) (tmp laneid 2 1) ++
          move.sts (at_ (row + 8) (col + 8)) (tmp laneid 3 0) ++
          move.sts (at_ (row + 9) (col + 8)) (tmp laneid 3 1))
  else if sz =? 1 then
    let row l := i * rt.tile_size_row R + Z.rem l 16 in
    let col l := j * rt.tile_size_col R + Z.quot l 16 * 16 in
    let dst l := ST.idx S shared_addr (mk_int2 (row l) (col l)) in
    if rt_layout.is_row (rt.layout R) then
      move.stsm4 sz dst (fun l => (tmp l 0, tmp l 1, tmp l 2, tmp l 3))
    else
      move.stsm4t sz dst (fun l => (tmp l 0, tmp l 2, tmp l 1, tmp l 3))
  else if rt_layout.is_row (rt.layout R) && (sz =? 4) then
    warp (fun laneid =>
      let '(row, col) :=
        if (ST.rows S =? ST.underlying_rows S)
           && (ST.cols S =? ST.underlying_cols S)
        then (i * rt.tile_size_row R + Z.quot laneid 4,
              j * rt.tile_size_col R + 2 * Z.rem laneid 4)
        else (i * rt.tile_size_row R + Z.quot laneid 4 + ST.row_offset S,
              j * rt.tile_size_col R + 2 * Z.rem laneid 4 + ST.col_offset S) in
      let blit := sz * Z.quot (Z.rem laneid 4) 2 in
      let reg_tmp : rt_base T :=
        if negb (blit =? 0)
        then fun k => pack2 (src laneid i j k 1) (src laneid i j k 0)
        else fun k => src laneid i j k in
      let tmp k := convert_U2 (reg_tmp k) in
      let swizzle_repeat := ST.swizzle_bytes S * 8 in
      let subtile_cols := ST.swizzle_bytes S / sz in
      let outer_idx := Z.quot col subtile_cols in
      let addr_1 := uint32_wrap (shared_addr + sz *
        (outer_idx * ST.underlying_rows S * subtile_cols
         + (row + 0) * subtile_cols + Z.rem col subtile_cols)) in
      let addr_2 := uint32_wrap (shared_addr + sz *
        (outer_idx * ST.underlying_rows S * subtile_cols
         + (row + 8) * subtile_cols + Z.rem col subtile_cols)) in
      let swizzle_1 :=
        Z.lxor blit (Z.shiftl (Z.shiftr (addr_1 mod swizzle_repeat) 7) 4) in
      let swizzle_2 :=
        Z.lxor blit (Z.shiftl (Z.shiftr (addr_2 mod swizzle_repeat) 7) 4) in
      move.sts (Z.lxor (uint32_wrap (addr_1 + 0)) swizzle_1) (tmp 0 0) ++
      move.sts (Z.lxor (uint32_wrap (addr_1 + 4)) swizzle_1) (tmp 0 1) ++
      move.sts (Z.lxor (uint32_wrap (addr_1 + 32)) swizzle_1) (tmp 2 0) ++
      move.sts (Z.lxor (uint32_wrap (addr_1 + 36)) swizzle_1) (tmp 2 1) ++
      move.sts (Z.lxor (uint32_wrap (addr_2 + 0)) swizzle_2) (tmp 1 0) ++
      move.sts (Z.lxor (uint32_wrap (addr_2 + 4)) swizzle_2) (tmp 1 1) ++
      move.sts (Z.lxor (uint32_wrap (addr_2 + 32)) swizzle_2) (tmp 3 0) ++
      move.sts (Z.lxor (uint32_wrap (addr_2 + 36)) swizzle_2) (tmp 3 1))
  else if negb (sz =? 1) then
    warp (fun laneid =>
      let row := i * rt.tile_size_row R + 2 * Z.rem laneid 4 in
      let col := j * rt.tile_size_col R + Z.quot laneid 4 in
      let at_ r c := ST.idx S shared_addr (mk_int2 r c) in
      move.sts (at_ (row + 0) (col + 0)) (tmp laneid 0 0) ++
      move.sts (at_ (row + 1) (col + 0)) (tmp laneid 0 1) ++
      move.sts (at_ (row + 0) (col + 8)) (tmp laneid 1 0) ++
      move.sts (at_ (row + 1) (col + 8)) (tmp laneid 1 1) ++
      move.sts (at_ (row + 8) (col + 0)) (tmp laneid 2 0) ++
      move.sts (at_ (row + 9) (col + 0)) (tmp laneid 2 1) ++
      move.sts (at_ (row + 8) (col + 8)) (tmp laneid 3 0) ++
      move.sts (at_ (row + 9) (col + 8)) (tmp laneid 3 1))
  else [].

(** The two loops: [i] over [src.height], [j] over [src.width]. *)
Definition tiles_loop (R : rt.t) (body : Z -> Z -> list (mem_op U))
    : list (mem_op U) :=
  flat_map (fun i => flat_map (fun j => body i j) (range (rt.width R)))
           (range (rt.height R)).

(** [store(dst, src)]: the memory operations the warp issues;
    [shared_addr] is the shared-space address of [dst.data[0]]. *)
Definition store (R : rt.t) (S : ST.t) (shared_addr : Z) (src : fragment T)
    : outcome (list (mem_op U)) :=
  match static_asserts R S with
  | Some msg => Rejected msg
  | None => Compiled (tiles_loop R (store_tile R S shared_addr src))
  end.

(** The body of the two loops of [atomic_add], for the whole warp. *)
Definition atomic_add_tile (R : rt.t) (S : ST.t) (shared_addr : Z)
    (src : fragment T) (i j : Z) : list (mem_op U) :=
  let sz := sizeof (ST.dtype S) in
  let tmp laneid k := convert_U2 (src laneid i j k) in
  if sz =? 2 then
    if rt_layout.is_row (rt.layout R) then
      warp (fun laneid =>
        let row := i * rt.tile_size_row R + Z.quot laneid 4 in
        let col := j * rt.tile_size_col R + 2 * Z.rem laneid 4 in
        let at_ r c := ST.idx S shared_addr (mk_int2 r c) in
        atomic.adds2 sz (at_ (row + 0) (col + 0)) (tmp laneid 0) ++
        atomic.adds2 sz (at_ (row + 8) (col + 0)) (tmp laneid 1) ++
        atomic.adds2 sz (at_ (row + 0) (col + 8)) (tmp laneid 2) ++
        atomic.adds2 sz (at_ (row + 8) (col + 8)) (tmp laneid 3))
    else
      warp (fun laneid =>
        let row := i * rt.tile_size_row R + 2 * Z.rem laneid 4 in
        let col := j * rt.tile_size_col R + Z.quot laneid 4 in
        let at_ r c := ST.idx S shared_addr (mk_int2 r c) in
        atomic.adds (at_ (row + 0) (col + 0)) (tmp laneid 0 0) ++
        atomic.adds (at_ (row + 1) (col + 0)) (tmp laneid 0 1) ++
        atomic.adds (at_ (row + 0) (col + 8)) (tmp laneid 1 0) ++
        atomic.adds (at_ (row + 1) (col + 8)) (tmp laneid 1 1) ++
        atomic.adds (at_ (row + 8) (col + 0)) (tmp laneid 2 0) ++
        atomic.adds (at_ (row + 9) (col + 0)) (tmp laneid 2 1) ++
        atomic.adds (at_ (row + 8) (col + 8)) (tmp laneid 3 0) ++
        atomic.adds (at_ (row + 9) (col + 8)) (tmp laneid 3 1))
  else if rt_layout.is_row (rt.layout R) && (sz =? 4) then
    warp (fun laneid =>
      let '(row, col) :=
        if (ST.rows S =? ST.underlying_rows S)
           && (ST.cols S =? ST.underlying_cols S)
        then (i * rt.tile_size_row R + Z.quot laneid 4,
              j * rt.tile_size_col R + 2 * Z.rem laneid 4)
        else (i * rt.tile_size_row R + Z.quot laneid 4 + ST.row_offset S,
              j * rt.tile_size_col R + 2 * Z.rem laneid 4 + ST.col_offset S) in
      let blit := sz * Z.quot (Z.rem laneid 4) 2 in
      let reg_tmp : rt_base T :=
        if negb (blit =? 0)
        then fun k => pack2 (src laneid i j k 1) (src laneid i j k 0)
        else fun k => src laneid i j k in
      let tmp k := convert_U2 (reg_tmp k) in
      let swizzle_repeat := ST.swizzle_bytes S * 8 in
      let subtile_cols := ST.swizzle_bytes S / sz in
      let outer_idx := Z.quot col subtile_cols in
      let addr_1 := uint32_wrap (shared_addr + sz *
        (outer_idx * ST.underlying_rows S * subtile_cols
         + (row + 0) * subtile_cols + Z.rem col subtile_cols)) in
      let addr_2 := uint32_wrap (shared_addr + sz *
        (outer_idx * ST.underlying_rows S * subtile_cols
         + (row + 8) * subtile_cols + Z.rem col subtile_cols)) in
      let swizzle_1 :=
        Z.lxor blit (Z.shiftl (Z.shiftr (addr_1 mod swizzle_repeat) 7) 4) in
      let swizzle_2 :=
        Z.lxor blit (Z.shiftl (Z.shiftr (addr_2 mod swizzle_repeat) 7) 4) in
      atomic.adds (Z.lxor (uint32_wrap (addr_1 + 0)) swizzle_1) (tmp 0 0) ++
      atomic.adds (Z.lxor (uint32_wrap (addr_1 + 4)) swizzle_1) (tmp 0 1) ++
      atomic.adds (Z.lxor (uint32_wrap (addr_1 + 32)) swizzle_1) (tmp 2 0) ++
      atomic.adds (Z.lxor (uint32_wrap (addr_1 + 36)) swizzle_1) (tmp 2 1) ++
      atomic.adds (Z.lxor (uint32_wrap (addr_2 + 0)) swizzle_2) (tmp 1 0) ++
      atomic.adds (Z.lxor (uint32_wrap (addr_2 + 4)) swizzle_2) (tmp 1 1) ++
      atomic.adds (Z.lxor (uint32_wrap (addr_2 + 32)) swizzle_2) (tmp 3 0) ++
      atomic.adds (Z.lxor (uint32_wrap (addr_2 + 36)) swizzle_2) (tmp 3 1))
  else if negb (sz =? 1) then
    warp (fun laneid =>
      let row := i * rt.tile_size_row R + 2 * Z.rem laneid 4 in
      let col := j * rt.tile_size_col R + Z.quot laneid 4 in
      let at_ r c := ST.idx S shared_addr (mk_int2 r c) in
      atomic.adds (at_ (row + 0) (col + 0)) (tmp laneid 0 0) ++
      atomic.adds (at_ (row + 1) (col + 0)) (tmp laneid 0 1) ++
      atomic.adds (at_ (row + 0) (col + 8)) (tmp laneid 1 0) ++
      atomic.adds (at_ (row + 1) (col + 8)) (tmp laneid 1 1) ++
      atomic.adds (at_ (row + 8) (col + 0)) (tmp laneid 2 0) ++
      atomic.adds (at_ (row + 9) (col + 0)) (tmp laneid 2 1) ++
      atomic.adds (at_ (row + 8) (col + 8)) (tmp laneid 3 0) ++
      atomic.adds (at_ (row + 9) (col + 8)) (tmp laneid 3 1))
  else [].

(** [atomic_add(dst, src)], with its third [static_assert]. *)
Definition atomic_add (R : rt.t) (S : ST.t) (shared_addr : Z)
    (src : fragment T) : outcome (list (mem_op U)) :=
  match static_asserts R S with
  | Some msg => Rejected msg
  | None =>
      if negb (sizeof (ST.dtype S) =? 1)
      then Compiled (tiles_loop R (atomic_add_tile R S shared_addr src))
      else Rejected "atomic_add is not supported for this type"%string
  end.

End Defs.
End transfer.

(** ** The warpgroup dispatcher [base<T_D, T_AB, 80, trans_a, trans_b>] *)

Module base.

(** The instruction an [asm volatile] statement issues, with the operands
    its placeholders are bound to: the opcode, the number of accumulator
    registers of [dst], the register the predicate [p] (scale-d) tests
    against 0, and the immediates scale-a, scale-b, trans-a (absent when A
    comes from registers) and trans-b. *)
Record wgmma : Type := {
  opcode : string;
  accumulators : Z;
  scale_d_operand : Z;
  imm_scale_a : Z;
  imm_scale_b : Z;
  imm_trans_a : option Z;
  imm_trans_b : Z
}.

Definition type_assert (T_D T_AB : dtype) : bool :=
  (dtype_eqb T_D float && dtype_eqb T_AB bf16) ||
  (dtype_eqb T_D float && dtype_eqb T_AB half) ||
  (dtype_eqb T_D half && dtype_eqb T_AB half).

Definition scale_assert (scale_b : Z) : bool :=
  (scale_b =? 1) || (scale_b =? -1).

(** [rt_st<scale_b>(dst, a_rt, b_st_desc, scale_d)]. *)
Definition rt_st (T_D T_AB : dtype) (trans_a trans_b : Z) (scale_b : Z)
    (scale_d : Z) : outcome (option wgmma) :=
  if negb (type_assert T_D T_AB)
  then Rejected "Invalid type combination for WGMMA."%string
  else if negb (scale_assert scale_b)
  then Rejected "Invalid scale B (invert) option"%string
  else Compiled (
    if dtype_eqb T_D float && dtype_eqb T_AB bf16 then
      Some {| opcode := "wgmma.mma_async.sync.aligned.m64n80k16.f32.bf16.bf16";
              accumulators := 40; scale_d_operand := scale_d;
              imm_scale_a := 1; imm_scale_b := scale_b;
              imm_trans_a := None; imm_trans_b := trans_b |}
    else if dtype_eqb T_D float && dtype_eqb T_AB half then
      Some {| opcode := "wgmma.mma_async.sync.aligned.m64n80k16.f32.f16.f16";
              accumulators := 40; scale_d_operand := scale_d;
              imm_scale_a := 1; imm_scale_b := scale_b;
              imm_trans_a := None; imm_trans_b := trans_b |}
    else if dtype_eqb T_D half && dtype_eqb T_AB half then
      Some {| opcode := "wgmma.mma_async.sync.aligned.m64n80k16.f16.f16.f16";
              accumulators := 20; scale_d_operand := scale_d;
              imm_scale_a := 1; imm_scale_b := scale_b;
              imm_trans_a := None; imm_trans_b := trans_b |}
    else None).

(** [st_st<scale_b>(dst, a_st_desc, b_st_desc, scale_d)]. *)
Definition st_st (T_D T_AB : dtype) (trans_a trans_b : Z) (scale_b : Z)
    (scale_d : Z) : outcome (option wgmma) :=
  if negb (type_assert T_D T_AB)
  then Rejected "Invalid type combination for WGMMA."%string
  else if negb (scale_assert scale_b)
  then Rejected "Invalid scale B (invert) option"%string
  else Compiled (
    if dtype_eqb T_D float && dtype_eqb T_AB bf16 then
      Some {| opcode := "wgmma.mma_async.sync.aligned.m64n80k16.f32.bf16.bf16";
              accumulators := 40; scale_d_operand := scale_d;
              imm_scale_a := 1; imm_scale_b := scale_b;
              imm_trans_a := Some trans_a; imm_trans_b := trans_b |}
    else if dtype_eqb T_D float && dtype_eqb T_AB half then
      Some {| opcode := "wgmma.mma_async.sync.aligned.m64n80k16.f32.f16.f16";
              accumulators := 40; scale_d_operand := scale_d;
              imm_scale_a := 1; imm_scale_b := scale_b;
              imm_trans_a := Some trans_a; imm_trans_b := trans_b |}
    else if dtype_eqb T_D half && dtype_eqb T_AB half then
      Some {| opcode := "wgmma.mma_async.sync.aligned.m64n80k16.f16.f16.f16";
              accumulators := 20; scale_d_operand := scale_d;
              imm_scale_a := 1; imm_scale_b := scale_b;
              imm_trans_a := Some trans_a; imm_trans_b := trans_b |}
    else None).

(** The pairs of the first [static_assert], as a proposition. *)
Definition supported_pair (T_D T_AB : dtype) : Prop :=
  (T_D = float /\ T_AB = bf16) \/
  (T_D = float /\ T_AB = half) \/
  (T_D = half /\ T_AB = half).

End base.

(** ** The fragment layout and the assumptions of a transfer *)

(** The [st] whose buffer and address arithmetic a shared tile argument
    uses: the tile itself, or the parent of a subtile. *)
Definition ST_parent `{TileDim} (a : ST.t) : st.t :=
  match a with ST.root s => s | ST.sub s => st_subtile.ST s end.

(** Elements in one packed register: 4 for 1-byte elements, else 2. *)
Definition elems_per_reg (sz : Z) : Z := if sz =? 1 then 4 else 2.

(** The tile coordinate of component [e] of register [data[k]] of
    [tiles[i][j]] in lane [laneid], for a row-layout and a column-layout
    register tile: the position-to-lane mapping of a fragment. *)
Definition frag_coord (sz : Z) (layout : rt_layout.t)
    (tile_size_row tile_size_col i j laneid k e : Z) : int2 :=
  let n := elems_per_reg sz in
  match layout with
  | rt_layout.row =>
      mk_int2 (i * tile_size_row + laneid / 4 + 8 * (k mod 2))
              (j * tile_size_col + 4 * n * (k / 2) + n * (laneid mod 4) + e)
  | rt_layout.col =>
      mk_int2 (i * tile_size_row + 8 * (k / 2) + 2 * (laneid mod 4) + e)
              (j * tile_size_col + 8 * (k mod 2) + laneid / 4)
  end.

Definition slot_ok (sz laneid k e : Z) : Prop :=
  0 <= laneid < 32 /\ 0 <= k < 4 /\ 0 <= e < elems_per_reg sz.

(** What a call of [load], [store] or [atomic_add] relies on: a supported
    tile whose extents are the register tile's, in quanta of 16 rows and of
    16 columns (32 for 1-byte elements); for a subtile, quantum-aligned
    offsets inside the parent; a shared address aligned to the swizzle
    period, the whole buffer being addressable in 32 bits. *)
Record transfer_ok `{TileDim} (R : rt.t) (a : ST.t) (shared_addr : Z)
    : Prop := {
  ok_parent : supported (ST_parent a);
  ok_asserts : rt.height R = ST.height a /\ rt.width R = ST.width a;
  ok_tile_rows : rt.tile_size_row R = 16;
  ok_tile_cols :
    rt.tile_size_col R = if sizeof (ST.dtype a) =? 1 then 32 else 16;
  ok_rows : ST.rows a = rt.tile_size_row R * rt.height R;
  ok_cols : ST.cols a = rt.tile_size_col R * rt.width R;
  ok_row_offset :
    0 <= ST.row_offset a /\
    ST.row_offset a + ST.rows a <= st.rows (ST_parent a);
  ok_col_offset :
    0 <= ST.col_offset a /\
    ST.col_offset a mod rt.tile_size_col R = 0 /\
    ST.col_offset a + ST.cols a <= st.cols (ST_parent a);
  ok_aligned : 0 <= shared_addr /\ shared_addr mod ST.swizzle_bytes a = 0;
  ok_fits :
    shared_addr + sizeof (ST.dtype a)
                  * (st.rows (ST_parent a) * st.cols (ST_parent a)) <= 2 ^ 32
}.

(** ** Fragment elements as memory operations *)

(** The atomic add an overwrite becomes in [atomic_add]. *)
Definition as_atomic {U : Type} (op : mem_op U) : mem_op U :=
  match op with
  | Store a v => AtomicAdd a v
  | AtomicAdd a v => AtomicAdd a v
  end.

(** The registers [ks], each with the components [es], in that order. *)
Definition slots_of (ks es : list Z) : list (Z * Z) :=
  flat_map (fun k => map (pair k) es) ks.

(** The store of component [snd ke] of register [fst ke] of
    [src.tiles[i][j]] in lane [laneid], converted, at its tile
    coordinate. *)
Definition slot_store `{TileDim} {U T : Type} (convert_out : T -> U)
    (R : rt.t) (a : ST.t) (shared_addr : Z) (src : fragment T)
    (i j laneid : Z) (ke : Z * Z) : mem_op U :=
  Store
    (ST.idx a shared_addr
       (frag_coord (sizeof (ST.dtype a)) (rt.layout R)
          (rt.tile_size_row R) (rt.tile_size_col R) i j laneid (fst ke) (snd ke)))
    (convert_out (src laneid i j (fst ke) (snd ke))).

(** The order in which a lane's fragment elements reach memory in each case
    of [store]: register by register; in the transposing and in the 4-byte
    row-layout cases registers 1 and 2 change places; in the latter the odd
    lane pairs (a non-zero [blit]) also send [.y] before [.x]. *)
Definition store_order (hopper : bool) (sz : Z) (layout : rt_layout.t)
    (laneid : Z) : list (Z * Z) :=
  if sz =? 1 then slots_of [0; 1; 2; 3] [0; 1; 2; 3]
  else if sz =? 2 then
    (if hopper && negb (rt_layout.is_row layout)
     then slots_of [0; 2; 1; 3] [0; 1]
     else slots_of [0; 1; 2; 3] [0; 1])
  else if rt_layout.is_row layout then
    (if (laneid mod 4) / 2 =? 0
     then slots_of [0; 2; 1; 3] [0; 1]
     else slots_of [0; 2; 1; 3] [1; 0])
  else slots_of [0; 1; 2; 3] [0; 1].

(** The same for [atomic_add], which has no grouped-store case. *)
Definition atomic_order (sz : Z) (layout : rt_layout.t) (laneid : Z)
    : list (Z * Z) :=
  store_order false sz layout laneid.

(** ** Derived notions used by the properties *)

(** The index, among the eight 16-byte chunks of a 128-byte line (the 32
    four-byte banks of shared memory), of the chunk an address falls in. *)
Definition chunk_of (a : Z) : Z := (a / 16) mod 8.

(** The check, for one swizzle period, of every residue modulo 1024 against
    the seven rows that follow it. *)
Definition chunks_differ (sb : Z) : bool :=
  forallb (fun m =>
    forallb (fun d =>
      negb (chunk_of (xor_swizzle sb m)
            =? chunk_of (xor_swizzle sb ((m + sb * (d + 1)) mod 1024))))
      (range 7))
    (range 1024).

(** The element addresses of a shared tile argument, row by row. *)
Definition tile_addrs `{TileDim} (a : ST.t) (shared_addr : Z) : list Z :=
  flat_map (fun r => map (fun c => ST.idx a shared_addr (mk_int2 r c))
                         (range (ST.cols a)))
           (range (ST.rows a)).

(** ** Warp-scope assignment of one value ([operator=]) *)

(** [kittens::WARP_THREADS] (declared in common/, which is not among the
    sources): the number of lanes of a warp, those of [lanes]. *)
Definition WARP_THREADS : Z := 32.

(** The loop [for(int i = laneid; i < n; i += WARP_THREADS)] of one lane:
    the values [i] takes, in order; [fuel] bounds the number of
    iterations. *)
Fixpoint fill_loop (fuel : nat) (n i : Z) : list Z :=
  match fuel with
  | O => []
  | S fuel' =>
      if i <? n then i :: fill_loop fuel' n (i + WARP_THREADS) else []
  end.

(** [n] iterations are enough for a lane to leave the loop. *)
Definition fill_indices (n laneid : Z) : list Z :=
  fill_loop (Z.to_nat n) n laneid.

(** The loop body [data[i] = value] run by every lane of the warp; [data]
    is the address of [data[0]], [sz] the element size. *)
Definition warp_fill {U : Type} (sz data n : Z) (value : U) : list (mem_op U) :=
  flat_map (fun laneid =>
    map (fun i => Store (data + sz * i) value) (fill_indices n laneid)) lanes.

(** ** The shared vector [sv<_T, _length>] (types/shared/sv.cuh) *)

Module sv.
Section Defs.
Context `{TileDim}.

Record t : Type := Build { T : dtype; length : Z }.

(** The first [static_assert]. *)
Definition length_assert (s : t) : bool :=
  Z.rem (length s) (TILE_ROW_DIM (T s)) =? 0.

Definition tiles (s : t) : Z := Z.quot (length s) (TILE_ROW_DIM (T s)).

(** [num_alloc_elements], with and without [KITTENS_HOPPER].  The
    arithmetic is unsigned ([sizeof] is a [size_t]). *)
Definition num_alloc_elements (hopper : bool) (s : t) : Z :=
  if hopper
  then ((length s * sizeof (T s) + 127) / 128) * (128 / sizeof (T s))
  else length s.

(** [operator[](size_t idx)]: the address of [data[idx]]. *)
Definition subscript (s : t) (data : Z) (idx : Z) : Z :=
  data + sizeof (T s) * idx.

(** [operator=(const dtype &value)]. *)
Definition assign {U : Type} (s : t) (data : Z) (value : U) : list (mem_op U) :=
  warp_fill (sizeof (T s)) data (length s) value.

End Defs.
End sv.

(** [st_subtile::operator=(const dtype &value)]: the loop runs over
    [num_elements] of the subtile on the member [data]. *)
Definition st_subtile_assign {U : Type} (S : st_subtile.t) (value : U)
    : list (mem_op U) :=
  warp_fill (sizeof (st_subtile.T S)) (st_subtile.data S)
            (st_subtile.num_elements S) value.

(** ** The [asm volatile] statements of the warpgroup dispatcher *)

Module base_asm.

(** An operand of an [asm] statement: an output ["+f"(dst.tiles[0][t].data[r].x)]
    ([acc t r 0]; [.y] is component 1), an output
    ["+r"( *(uint32_t* )&dst.tiles[0][t].data[r])] ([acc_reg t r]), or an
    input. *)
Inductive operand : Type :=
| acc (tile reg comp : Z)
| acc_reg (tile reg : Z)
| a_reg (k : Z)
| a_st_desc
| b_st_desc
| scale_d
| trans_a
| trans_b
| scale_b.

(** An [asm] statement: the opcode; the placeholder numbers of the template,
    in the order they are written ([setp] is the one [setp.ne.b32 p, %n, 0]
    tests, [d] the list in the first braces, [a] the A operand, [b] the B
    descriptor, [after_p] those after [p, 1,], [imm_scale_a] the literal
    between them); the output and the input operand lists. *)
Record stmt : Type := {
  opcode : string;
  setp : Z;
  d : list Z;
  a : list Z;
  b : Z;
  imm_scale_a : Z;
  after_p : list Z;
  outputs : list operand;
  inputs : list operand
}.

(** The operand placeholder [%n] stands for: outputs are numbered first. *)
Definition operand_at (s : stmt) (n : Z) : option operand :=
  if n <? 0 then None else nth_error (outputs s ++ inputs s) (Z.to_nat n).

(** The output list of the four statements with a [float] accumulator, as
    written (it is the same text in each). *)
Definition float_outputs : list operand :=
  [ acc 0 0 0; acc 0 0 1; acc 0 1 0; acc 0 1 1;
    acc 0 2 0; acc 0 2 1; acc 0 3 0; acc 0 3 1;
    acc 1 0 0; acc 1 0 1; acc 1 1 0; acc 1 1 1;
    acc 1 2 0; acc 1 2 1; acc 1 3 0; acc 1 3 1;
    acc 2 0 0; acc 2 0 1; acc 2 1 0; acc 2 1 1;
    acc 2 2 0; acc 2 2 1; acc 2 3 0; acc 2 3 1;
    acc 3 0 0; acc 3 0 1; acc 3 1 0; acc 3 1 1;
    acc 3 2 0; acc 3 2 1; acc 3 3 0; acc 3 3 1;
    acc 4 0 0; acc 4 0 1; acc 4 1 0; acc 4 1 1;
    acc 4 2 0; acc 4 2 1; acc 4 3 0; acc 4 3 1 ].

(** The output list of the two statements with a [half] accumulator. *)
Definition half_outputs : list operand :=
  [ acc_reg 0 0; acc_reg 0 1; acc_reg 0 2; acc_reg 0 3;
    acc_reg 1 0; acc_reg 1 1; acc_reg 1 2; acc_reg 1 3;
    acc_reg 2 0; acc_reg 2 1; acc_reg 2 2; acc_reg 2 3;
    acc_reg 3 0; acc_reg 3 1; acc_reg 3 2; acc_reg 3 3;
    acc_reg 4 0; acc_reg 4 1; acc_reg 4 2; acc_reg 4 3 ].

(** The input lists of [rt_st] and of [st_st]. *)
Definition rt_st_inputs : list operand :=
  [a_reg 0; a_reg 1; a_reg 2; a_reg 3; b_st_desc; scale_d; trans_b; scale_b].

Definition st_st_inputs : list operand :=
  [a_st_desc; b_st_desc; scale_d; trans_a; trans_b; scale_b].

(** The statement [rt_st] reaches for each accepted type pair, in the order
    of its [if constexpr] chain. *)
Definition rt_st (T_D T_AB : dtype) : option stmt :=
  if dtype_eqb T_D float && dtype_eqb T_AB bf16 then
    Some {| opcode := "wgmma.mma_async.sync.aligned.m64n80k16.f32.bf16.bf16";
            setp := 45; d := range 40; a := [40; 41; 42; 43]; b := 44;
            imm_scale_a := 1; after_p := [47; 46];
            outputs := float_outputs;
            inputs := rt_st_inputs |}
  else if dtype_eqb T_D float && dtype_eqb T_AB half then
    Some {| opcode := "wgmma.mma_async.sync.aligned.m64n80k16.f32.f16.f16";
            setp := 45; d := range 40; a := [40; 41; 42; 43]; b := 44;
            imm_scale_a := 1; after_p := [47; 46];
            outputs := float_outputs;
            inputs := rt_st_inputs |}
  else if dtype_eqb T_D half && dtype_eqb T_AB half then
    Some {| opcode := "wgmma.mma_async.sync.aligned.m64n80k16.f16.f16.f16";
            setp := 25; d := range 20; a := [20; 21; 22; 23]; b := 24;
            imm_scale_a := 1; after_p := [27; 26];
            outputs := half_outputs;
            inputs := rt_st_inputs |}
  else None.

(** The statement [st_st] reaches for each accepted type pair, in the order
    of its [if constexpr] chain. *)
Definition st_st (T_D T_AB : dtype) : option stmt :=
  if dtype_eqb T_D float && dtype_eqb T_AB bf16 then
    Some {| opcode := "wgmma.mma_async.sync.aligned.m64n80k16.f32.bf16.bf16";
            setp := 42; d := range 40; a := [40]; b := 41;
            imm_scale_a := 1; after_p := [45; 43; 44];
            outputs := float_outputs;
            inputs := st_st_inputs |}
  else if dtype_eqb T_D float && dtype_eqb T_AB half then
    Some {| opcode := "wgmma.mma_async.sync.aligned.m64n80k16.f32.f16.f16";
            setp := 42; d := range 40; a := [40]; b := 41;
            imm_scale_a := 1; after_p := [45; 43; 44];
            outputs := float_outputs;
            inputs := st_st_inputs |}
  else if dtype_eqb T_D half && dtype_eqb T_AB half then
    Some {| opcode := "wgmma.mma_async.sync.aligned.m64n80k16.f16.f16.f16";
            setp := 22; d := range 20; a := [20]; b := 21;
            imm_scale_a := 1; after_p := [25; 23; 24];
            outputs := half_outputs;
            inputs := st_st_inputs |}
  else None.

End base_asm.

(** ** Printouts *)

(** One call of [printf]: the format string as written, and the arguments:
    integers, or element values read from shared memory. *)
Inductive printf_arg (V : Type) : Type :=
| arg_int (n : Z)
| arg_val (v : V).
Arguments arg_int {V} n.
Arguments arg_val {V} v.

Record printf_call (V : Type) : Type := printf {
  format : string;
  args : list (printf_arg V)
}.
Arguments printf {V} format args.
Arguments format {V} p.
Arguments args {V} p.

(** [print(const SV& sv)] of sv.cuh, run by the lane [laneid]; [data] is the
    address of [sv.data[0]] and [m] is shared memory. *)
Definition sv_print `{TileDim} {V : Type} (s : sv.t) (data : Z) (m : Z -> V)
    (laneid : Z) : list (printf_call V) :=
  if laneid =? 0 then
    let max_display := 10 in
    let show_begin :=
      if sv.length s <=? max_display then sv.length s else Z.quot max_display 2 in
    let show_end :=
      if sv.length s <=? max_display then 0 else Z.quot max_display 2 in
    [printf "Shared Vector %d: [" [arg_int (sv.length s)]] ++
    flat_map (fun i =>
      if (show_begin <=? i) && (i <? sv.length s - show_end) then
        (if i =? show_begin then [printf "... " []] else [])
      else
        [printf (match sv.T s with
                 | bf16 | half | float => "%f"
                 | _ => "%d"
                 end)
                [arg_val (m (sv.subscript s data i))]] ++
        (if (i <? sv.length s - 1)
            && ((i <? show_begin - 1) || (sv.length s - show_end <=? i))
         then [printf ", " []] else []))
      (range (sv.length s)) ++
    [printf "]\n" []]
  else [].

(** [print(const ST& tile)] of st.cuh for an [st], run by the lane
    [laneid]; [data] is the address of [tile.data[0]], [m] is shared memory
    and [is_integral] is [std::is_integral_v].  [tile[{r, c}]] is the const
    [operator[]] of [st].  (For an [st_subtile] the function does not
    compile: its const [operator[]] calls the non-const member [idx].) *)
Definition st_print `{TileDim} {V : Type} (is_integral : dtype -> bool)
    (s : st.t) (data : Z) (m : Z -> V) (laneid : Z) : list (printf_call V) :=
  if laneid =? 0 then
    let max_display_rows := 6 in
    let max_display_cols := 10 in
    let show_rows_begin :=
      if st.rows s <=? max_display_rows then st.rows s
      else Z.quot max_display_rows 2 in
    let show_rows_end :=
      if st.rows s <=? max_display_rows then 0 else Z.quot max_display_rows 2 in
    let show_cols_begin :=
      if st.cols s <=? max_display_cols then st.cols s
      else Z.quot max_display_cols 2 in
    let show_cols_end :=
      if st.cols s <=? max_display_cols then 0 else Z.quot max_display_cols 2 in
    [printf "Shared Tile(%d, %d)[\n" [arg_int (st.rows s); arg_int (st.cols s)]] ++
    flat_map (fun r =>
      if (show_rows_begin <=? r) && (r <? st.rows s - show_rows_end) then
        (if r =? show_rows_begin then [printf "  ...\n" []] else [])
      else
        [printf "  [" []] ++
        flat_map (fun c =>
          if (show_cols_begin <=? c) && (c <? st.cols s - show_cols_end) then
            (if c =? show_cols_begin then [printf " ... " []] else [])
          else
            [printf (match st.T s with
                     | float | bf16 => "%.4f"
                     | T => if is_integral T then "%d" else "%.4f"
                     end)
                    [arg_val (m (st.subscript_coord s data (mk_int2 r c)))]] ++
            (if (c <? st.cols s - 1)
                && ((c <? show_cols_begin - 1)
                    || (st.cols s - show_cols_end <=? c))
             then [printf ", " []] else []))
          (range (st.cols s)) ++
        (if r <? st.rows s - 1 then [printf "],\n" []] else [printf "]\n" []]))
      (range (st.rows s)) ++
    [printf "]\n" []]
  else [].

(** The element values a printout shows, in order. *)
Definition printed_values {V : Type} (out : list (printf_call V)) : list V :=
  flat_map (fun p =>
    flat_map (fun x => match x with arg_val v => [v] | arg_int _ => [] end)
             (args p)) out.

(** The indices a printout of [n] items shows when at most [max_display]
    are displayed: all of them, or the first and the last
    [max_display / 2]. *)
Definition shown (max_display n : Z) : list Z :=
  if n <=? max_display then range n
  else range (max_display / 2)
       ++ map (fun k => n - max_display / 2 + k) (range (max_display / 2)).

(** * Properties *)

(** ** The exclusive-or step *)

Lemma swizzle_term_eq (sb a : Z) :
  period_ok sb ->
  Z.shiftl (Z.shiftr (a mod (sb * 8)) 7) 4 = ((a / 128) mod (sb / 16)) * 16.
Proof.
  intros Hsb.
  rewrite Z.shiftl_mul_pow2, Z.shiftr_div_pow2 by lia.
  change (2 ^ 4) with 16. change (2 ^ 7) with 128.
  f_equal.
  destruct Hsb as [-> | [-> | ->]].
  - change (32 * 8) with 256; change (32 / 16) with 2.
    Z.div_mod_to_equations. lia.
  - change (64 * 8) with 512; change (64 / 16) with 4.
    Z.div_mod_to_equations. lia.
  - change (128 * 8) with 1024; change (128 / 16) with 8.
    Z.div_mod_to_equations. lia.
Qed.

Lemma swizzle_term_bounds (sb a : Z) :
  period_ok sb ->
  let s := Z.shiftl (Z.shiftr (a mod (sb * 8)) 7) 4 in
  0 <= s < sb /\ s mod 16 = 0.
Proof.
  intros Hsb s. subst s. rewrite swizzle_term_eq by assumption.
  rewrite Z.mod_mul by lia. split; [|reflexivity].
  destruct Hsb as [-> | [-> | ->]].
  - change (32 / 16) with 2. pose proof (Z.mod_pos_bound (a / 128) 2). lia.
  - change (64 / 16) with 4. pose proof (Z.mod_pos_bound (a / 128) 4). lia.
  - change (128 / 16) with 8. pose proof (Z.mod_pos_bound (a / 128) 8). lia.
Qed.

Lemma lxor_div_pow2 (a s n : Z) :
  0 <= n -> 0 <= s < 2 ^ n -> Z.lxor a s / 2 ^ n = a / 2 ^ n.
Proof.
  intros Hn Hs.
  rewrite <- !Z.shiftr_div_pow2 by assumption.
  rewrite Z.shiftr_lxor.
  rewrite (Z.shiftr_div_pow2 s), (Z.div_small s) by lia.
  apply Z.lxor_0_r.
Qed.

Lemma lxor_mod_pow2 (a s n : Z) :
  0 <= n -> s mod 2 ^ n = 0 -> Z.lxor a s mod 2 ^ n = a mod 2 ^ n.
Proof.
  intros Hn Hs. apply Z.bits_inj'. intros i Hi.
  destruct (Z.ltb_spec i n) as [Hlt | Hge].
  - rewrite !Z.mod_pow2_bits_low by lia.
    rewrite Z.lxor_spec.
    rewrite <- (Z.mod_pow2_bits_low s n i) by lia.
    rewrite Hs, Z.bits_0. apply xorb_false_r.
  - rewrite !Z.mod_pow2_bits_high by lia. reflexivity.
Qed.

Lemma pow2_of_period (sb : Z) :
  period_ok sb -> exists n, 0 <= n /\ sb = 2 ^ n /\ 4 <= n <= 7.
Proof.
  intros [-> | [-> | ->]]; [exists 5 | exists 6 | exists 7]; repeat split; lia.
Qed.

Lemma xor_swizzle_div (sb a : Z) :
  period_ok sb -> xor_swizzle sb a / sb = a / sb.
Proof.
  intros Hsb. unfold xor_swizzle.
  destruct (swizzle_term_bounds sb a Hsb) as [Hb _].
  destruct (pow2_of_period sb Hsb) as (n & Hn & E & _).
  rewrite E at 2 3. apply lxor_div_pow2; [assumption | rewrite <- E; exact Hb].
Qed.

Lemma xor_swizzle_div128 (sb a : Z) :
  period_ok sb -> xor_swizzle sb a / 128 = a / 128.
Proof.
  intros Hsb. unfold xor_swizzle.
  destruct (swizzle_term_bounds sb a Hsb) as [Hb _].
  change 128 with (2 ^ 7). apply lxor_div_pow2; [lia|].
  change (2 ^ 7) with 128. unfold period_ok in Hsb. lia.
Qed.

Lemma xor_swizzle_mod16 (sb a : Z) :
  period_ok sb -> xor_swizzle sb a mod 16 = a mod 16.
Proof.
  intros Hsb. unfold xor_swizzle.
  destruct (swizzle_term_bounds sb a Hsb) as [_ Hm].
  change 16 with (2 ^ 4). apply lxor_mod_pow2; [lia | exact Hm].
Qed.

Lemma xor_swizzle_involutive (sb a : Z) :
  period_ok sb -> xor_swizzle sb (xor_swizzle sb a) = a.
Proof.
  intros Hsb. unfold xor_swizzle at 1.
  rewrite swizzle_term_eq by assumption.
  rewrite xor_swizzle_div128 by assumption.
  rewrite <- swizzle_term_eq by assumption.
  unfold xor_swizzle.
  rewrite Z.lxor_assoc, Z.lxor_nilpotent. apply Z.lxor_0_r.
Qed.

Lemma div_range (sb lo hi a b : Z) :
  0 < sb -> lo mod sb = 0 -> hi mod sb = 0 -> b / sb = a / sb ->
  lo <= a < hi -> lo <= b < hi.
Proof.
  intros Hsb Hlo Hhi E Ha.
  apply Z.mod_divide in Hlo; [|lia]. destruct Hlo as [l ->].
  apply Z.mod_divide in Hhi; [|lia]. destruct Hhi as [h ->].
  pose proof (Z.div_mod a sb ltac:(lia)) as Da.
  pose proof (Z.div_mod b sb ltac:(lia)) as Db.
  pose proof (Z.mod_pos_bound a sb Hsb) as Ba.
  pose proof (Z.mod_pos_bound b sb Hsb) as Bb.
  rewrite E in Db. set (q := a / sb) in *.
  assert (l <= q) by nia.
  assert (q + 1 <= h) by nia.
  split; nia.
Qed.

Lemma xor_swizzle_range (sb lo hi a : Z) :
  period_ok sb -> lo mod sb = 0 -> hi mod sb = 0 ->
  lo <= a < hi -> lo <= xor_swizzle sb a < hi.
Proof.
  intros Hsb Hlo Hhi Ha.
  assert (0 < sb) by (unfold period_ok in Hsb; lia).
  apply (div_range sb lo hi a); auto using xor_swizzle_div.
Qed.

Lemma xor_swizzle_congr (sb sz a : Z) :
  period_ok sb -> (sz = 1 \/ sz = 2 \/ sz = 4) ->
  xor_swizzle sb a mod sz = a mod sz.
Proof.
  intros Hsb Hsz.
  pose proof (xor_swizzle_mod16 sb a Hsb) as E.
  revert E. generalize (xor_swizzle sb a). intros b E.
  destruct Hsz as [-> | [-> | ->]]; Z.div_mod_to_equations; lia.
Qed.

(** ** The element offset is a bijection *)

Section Offsets.
Variables sc R : Z.
Hypothesis Hsc : 0 < sc.
Hypothesis HR : 0 < R.

Lemma element_offset_split (r c : Z) :
  0 <= c ->
  element_offset sc R r c = (c / sc * R + r) * sc + c mod sc.
Proof.
  intros Hc. unfold element_offset.
  rewrite Z.quot_div_nonneg, Z.rem_mod_nonneg by lia. ring.
Qed.

Lemma element_offset_inj (r c r' c' : Z) :
  0 <= r < R -> 0 <= c -> 0 <= r' < R -> 0 <= c' ->
  element_offset sc R r c = element_offset sc R r' c' ->
  r = r' /\ c = c'.
Proof.
  intros Hr Hc Hr' Hc' E.
  rewrite !element_offset_split in E by assumption.
  pose proof (Z.mod_pos_bound c sc Hsc) as B.
  pose proof (Z.mod_pos_bound c' sc Hsc) as B'.
  pose proof (Z.div_pos c sc Hc Hsc) as Q.
  pose proof (Z.div_pos c' sc Hc' Hsc) as Q'.
  pose proof (Z.div_mod c sc ltac:(lia)) as D.
  pose proof (Z.div_mod c' sc ltac:(lia)) as D'.
  set (o := c / sc) in *. set (o' := c' / sc) in *.
  set (l := c mod sc) in *. set (l' := c' mod sc) in *.
  assert (E1 : o * R + r = o' * R + r' /\ l = l').
  { assert (o * R + r = ((o * R + r) * sc + l) / sc) as ->.
    { rewrite Z.div_add_l by lia. rewrite (Z.div_small l) by lia. lia. }
    assert (l = ((o * R + r) * sc + l) mod sc) as Hl.
    { rewrite Z.add_comm, Z.mod_add by lia. rewrite Z.mod_small; lia. }
    rewrite Hl at 2. rewrite E.
    rewrite Z.div_add_l by lia. rewrite (Z.div_small l') by lia.
    rewrite (Z.add_comm _ l'), Z.mod_add by lia. rewrite Z.mod_small by lia. lia. }
  destruct E1 as [E1 E2].
  assert (o = o') by nia.
  subst o'. split; lia.
Qed.

Lemma element_offset_range (n r c : Z) :
  0 <= r < R -> 0 <= c < n * sc ->
  0 <= element_offset sc R r c < R * (n * sc).
Proof.
  intros Hr Hc.
  rewrite element_offset_split by lia.
  pose proof (Z.mod_pos_bound c sc Hsc) as B.
  assert (Q : 0 <= c / sc < n).
  { split; [apply Z.div_pos; lia | apply Z.div_lt_upper_bound; lia]. }
  set (o := c / sc) in *. set (l := c mod sc) in *.
  assert (0 <= o * R + r <= n * R - 1) by nia.
  split; nia.
Qed.

Lemma element_offset_surj (n k : Z) :
  0 <= k < R * (n * sc) ->
  exists r c, 0 <= r < R /\ 0 <= c < n * sc /\ element_offset sc R r c = k.
Proof.
  intros Hk.
  set (q := k / sc). set (l := k mod sc).
  pose proof (Z.mod_pos_bound k sc Hsc) as B.
  pose proof (Z.div_mod k sc ltac:(lia)) as D.
  assert (Hq : 0 <= q < n * R).
  { split; [apply Z.div_pos; lia | apply Z.div_lt_upper_bound; nia]. }
  pose proof (Z.mod_pos_bound q R HR) as Br.
  pose proof (Z.div_mod q R ltac:(lia)) as Dq.
  assert (Ho : 0 <= q / R < n).
  { split; [apply Z.div_pos; lia | apply Z.div_lt_upper_bound; nia]. }
  exists (q mod R), (q / R * sc + l).
  fold q l in D, B.
  assert (Hc : 0 <= q / R * sc + l < n * sc) by nia.
  repeat split; try lia.
  rewrite element_offset_split by lia.
  rewrite Z.div_add_l by lia. rewrite (Z.div_small l) by lia.
  rewrite (Z.add_comm _ l), Z.mod_add by lia. rewrite (Z.mod_small l) by lia.
  nia.
Qed.

End Offsets.

(** ** Geometry of supported tiles *)

Section Tile.
Context `{TileDim}.

Lemma supported_period (s : st.t) :
  supported s -> period_ok (st.swizzle_bytes s).
Proof.
  intros (Hsz & _). unfold period_ok, st.swizzle_bytes.
  destruct Hsz as [-> | [-> | ->]]; simpl;
    repeat match goal with |- context [if ?b then _ else _] => destruct b end; auto.
Qed.

Lemma supported_cols (s : st.t) :
  supported s ->
  (sizeof (st.T s) * st.cols s) mod st.swizzle_bytes s = 0.
Proof.
  intros (Hsz & Hsa & Hr & Hc & Hq & Hb).
  unfold st.static_asserts in Hsa. apply andb_prop in Hsa. destruct Hsa as [_ Hsa].
  apply Z.eqb_eq in Hsa.
  unfold st.swizzle_bytes, st.underlying_width.
  set (w := Z.quot (st.cols s) (TILE_COL_DIM (st.T s))).
  assert (Ecols : st.cols s = TILE_COL_DIM (st.T s) * w).
  { pose proof (Z.quot_rem' (st.cols s) (TILE_COL_DIM (st.T s))). subst w. lia. }
  rewrite Ecols. set (q := TILE_COL_DIM (st.T s)) in *.
  assert (Hw : 0 <= w) by (subst w; apply Z.quot_pos; lia).
  clearbody w q.
  assert (Hdiv : forall m n, 0 < m -> 0 < n ->
            (sizeof (st.T s) * q) mod m = 0 -> Z.rem w n = 0 ->
            (sizeof (st.T s) * (q * w)) mod (m * n) = 0).
  { intros m n Hm Hn Hqm Hwn.
    rewrite Z.rem_mod_nonneg in Hwn by lia.
    apply Z.mod_divide in Hqm; [|lia]. destruct Hqm as [k Ek].
    apply Z.mod_divide in Hwn; [|lia]. destruct Hwn as [k' ->].
    rewrite Z.mul_assoc, Ek.
    replace (k * m * (k' * n)) with (k * k' * (m * n)) by ring.
    apply Z.mod_mul. lia. }
  assert (Hdiv1 : forall m, 0 < m ->
            (sizeof (st.T s) * q) mod m = 0 ->
            (sizeof (st.T s) * (q * w)) mod m = 0).
  { intros m Hm Hqm.
    apply Z.mod_divide in Hqm; [|lia]. destruct Hqm as [k Ek].
    rewrite Z.mul_assoc, Ek.
    replace (k * m * w) with (k * w * m) by ring.
    apply Z.mod_mul. lia. }
  destruct Hsz as [E | [E | E]]; rewrite E in *; simpl in Hb |- *.
  all: repeat match goal with
       | |- context [if ?a =? ?b then _ else _] => destruct (Z.eqb_spec a b)
       end.
  all: first [ apply (Hdiv 32 4); (lia || assumption)
             | apply (Hdiv 32 2); (lia || assumption)
             | apply (Hdiv 64 2); (lia || assumption)
             | apply Hdiv1; (lia || assumption) ].
Qed.
Lemma supported_geometry (s : st.t) :
  supported s ->
  let sz := sizeof (st.T s) in
  let sb := st.swizzle_bytes s in
  let sc := sb / sz in
  (sz = 1 \/ sz = 2 \/ sz = 4) /\ period_ok sb /\ sz * sc = sb /\ 0 < sc /\
  0 < st.rows s /\
  exists n, 0 < n /\ st.cols s = n * sc.
Proof.
  intros Hs sz sb sc.
  pose proof (supported_period s Hs) as Hp.
  pose proof (supported_cols s Hs) as Hc.
  destruct Hs as (Hsz & _ & Hr & Hcols & _).
  fold sz in Hsz, Hc. fold sb in Hp, Hc.
  assert (E : sz * sc = sb).
  { subst sc. destruct Hsz as [-> | [-> | ->]];
      destruct Hp as [-> | [-> | ->]]; reflexivity. }
  assert (Hsc : 0 < sc).
  { unfold period_ok in Hp. nia. }
  repeat split; try assumption.
  apply Z.mod_divide in Hc; [|unfold period_ok in Hp; lia].
  destruct Hc as [n En]. exists n.
  rewrite <- E in En.
  assert (st.cols s = n * sc) by nia.
  split; [nia | assumption].
Qed.

Lemma idx_unfold (s : st.t) (ptr : Z) (coord : int2) :
  st.idx s ptr coord =
  xor_swizzle (st.swizzle_bytes s)
    (uint32_wrap (ptr + sizeof (st.T s) *
       element_offset (st.swizzle_bytes s / sizeof (st.T s)) (st.rows s)
         (x coord) (y coord))).
Proof. reflexivity. Qed.

Lemma idx_ptr_unfold (s : st.t) (ptr : Z) (coord : int2) :
  st.idx_ptr s ptr coord =
  xor_swizzle (st.swizzle_bytes s)
    (ptr + sizeof (st.T s) *
       element_offset (st.swizzle_bytes s / sizeof (st.T s)) (st.rows s)
         (x coord) (y coord)).
Proof. reflexivity. Qed.

(** Claim C1, as amended.  For a supported tile at a base address aligned to
    its swizzle period, [idx] over the coordinates of the WHOLE tile is a
    bijection onto the element slots of the contiguous range
    [ptr, ptr + sizeof(T) * rows * cols): every address it returns is an
    element slot of that range, distinct coordinates give distinct addresses
    (so it is injective on every base-tile quantum too), and every element
    slot of the range is reached.  The exclusive-or step maps the range to
    itself and is its own inverse, so it never makes two addresses collide.
    (The image of one quantum alone need not be a contiguous range: see
    [idx_quantum_not_contiguous].) *)
Theorem idx_bijection_on_tile (s : st.t) (ptr : Z) :
  supported s ->
  0 <= ptr -> ptr mod st.swizzle_bytes s = 0 ->
  ptr + sizeof (st.T s) * (st.rows s * st.cols s) <= 2 ^ 32 ->
  let size := sizeof (st.T s) * (st.rows s * st.cols s) in
  (forall coord, in_tile (st.rows s) (st.cols s) coord ->
     ptr <= st.idx s ptr coord < ptr + size /\
     (st.idx s ptr coord - ptr) mod sizeof (st.T s) = 0) /\
  (forall c1 c2, in_tile (st.rows s) (st.cols s) c1 ->
     in_tile (st.rows s) (st.cols s) c2 ->
     st.idx s ptr c1 = st.idx s ptr c2 -> c1 = c2) /\
  (forall a, ptr <= a < ptr + size -> (a - ptr) mod sizeof (st.T s) = 0 ->
     exists coord, in_tile (st.rows s) (st.cols s) coord /\ st.idx s ptr coord = a) /\
  (forall a, ptr <= a < ptr + size ->
     ptr <= xor_swizzle (st.swizzle_bytes s) a < ptr + size /\
     xor_swizzle (st.swizzle_bytes s) (xor_swizzle (st.swizzle_bytes s) a) = a).
Proof.
  intros Hs Hptr Hal Hfit size.
  destruct (supported_geometry s Hs) as (Hsz & Hp & Esz & Hsc & HR & n & Hn & Ecols).
  set (sz := sizeof (st.T s)) in *.
  set (sb := st.swizzle_bytes s) in *.
  set (sc := sb / sz) in *.
  assert (Hsb : 0 < sb) by (unfold period_ok in Hp; lia).
  assert (Hsz0 : 0 < sz) by lia.
  assert (Hsize : size = sb * (st.rows s * n)).
  { subst size. rewrite Ecols, <- Esz. ring. }
  assert (Hhi : (ptr + size) mod sb = 0).
  { rewrite Hsize, Z.mul_comm, Z.mod_add by lia. exact Hal. }
  assert (Hpsz : ptr mod sz = 0).
  { apply Z.mod_divide in Hal; [|lia]. destruct Hal as [k ->].
    rewrite <- Esz. replace (k * (sz * sc)) with (k * sc * sz) by ring.
    apply Z.mod_mul. lia. }
  assert (Haddr : forall coord, in_tile (st.rows s) (st.cols s) coord ->
     let a := ptr + sz * element_offset sc (st.rows s) (x coord) (y coord) in
     ptr <= a < ptr + size /\ uint32_wrap a = a).
  { intros coord [Hr Hc] a.
    pose proof (element_offset_range sc (st.rows s) Hsc HR n (x coord) (y coord) Hr
                  ltac:(rewrite <- Ecols; exact Hc)) as B.
    rewrite <- Ecols in B.
    assert (ptr <= a < ptr + size) by (subst a size; nia).
    split; [assumption|]. unfold uint32_wrap. apply Z.mod_small. subst size. lia. }
  assert (Halign : forall a, (xor_swizzle sb a - ptr) mod sz = (a - ptr) mod sz).
  { intros a. rewrite Zminus_mod, (Zminus_mod a), xor_swizzle_congr by assumption.
    reflexivity. }
  split; [|split; [|split]].
  - intros coord Hin. rewrite idx_unfold. fold sz sb sc.
    destruct (Haddr coord Hin) as [B ->]. split.
    + apply xor_swizzle_range; assumption.
    + rewrite Halign. rewrite Z.add_simpl_l, Z.mul_comm. apply Z.mod_mul. lia.
  - intros c1 c2 H1 H2 E.
    rewrite !idx_unfold in E. fold sz sb sc in E.
    destruct (Haddr c1 H1) as [_ E1]. destruct (Haddr c2 H2) as [_ E2].
    rewrite E1, E2 in E.
    apply (f_equal (xor_swizzle sb)) in E.
    rewrite !xor_swizzle_involutive in E by assumption.
    destruct H1 as [Hr1 Hc1], H2 as [Hr2 Hc2].
    destruct (element_offset_inj sc (st.rows s) Hsc HR (x c1) (y c1) (x c2) (y c2))
      as [Ex Ey]; try lia.
    destruct c1, c2; simpl in *; congruence.
  - intros a Ha Hmod.
    pose proof (xor_swizzle_range sb ptr (ptr + size) a Hp Hal Hhi Ha) as B.
    pose proof (Halign a) as Hm. rewrite Hmod in Hm.
    apply Z.mod_divide in Hm; [|lia]. destruct Hm as [k Ek].
    assert (Hk : 0 <= k < st.rows s * (n * sc)).
    { rewrite <- Ecols. subst size. nia. }
    destruct (element_offset_surj sc (st.rows s) Hsc HR n k Hk) as (r & c & Hr & Hc & E).
    exists (mk_int2 r c). split.
    + split; simpl; [assumption | rewrite Ecols; assumption].
    + rewrite idx_unfold. fold sz sb sc. simpl. rewrite E.
      replace (ptr + sz * k) with (xor_swizzle sb a) by lia.
      unfold uint32_wrap. rewrite Z.mod_small by (subst size; lia).
      apply xor_swizzle_involutive. assumption.
  - intros a Ha. split.
    + apply xor_swizzle_range; assumption.
    + apply xor_swizzle_involutive; assumption.
Qed.


End Tile.
(** The statement of [idx_bijection_on_tile] at a 16 x 64 tile of 2-byte
    elements based at address 1024. *)
Lemma idx_bijection_on_tile_witness :
  let s := st.Build bf16 16 64 in
  let size := 2 * (16 * 64) in
  (forall coord, in_tile 16 64 coord ->
     1024 <= st.idx (H := dims16) s 1024 coord < 1024 + size /\
     (st.idx (H := dims16) s 1024 coord - 1024) mod 2 = 0) /\
  (forall c1 c2, in_tile 16 64 c1 -> in_tile 16 64 c2 ->
     st.idx (H := dims16) s 1024 c1 = st.idx (H := dims16) s 1024 c2 -> c1 = c2) /\
  (forall a, 1024 <= a < 1024 + size -> (a - 1024) mod 2 = 0 ->
     exists coord, in_tile 16 64 coord /\ st.idx (H := dims16) s 1024 coord = a) /\
  (forall a, 1024 <= a < 1024 + size ->
     1024 <= xor_swizzle 128 a < 1024 + size /\
     xor_swizzle 128 (xor_swizzle 128 a) = a).
Proof.
  apply (idx_bijection_on_tile (H := dims16) (st.Build bf16 16 64) 1024).
  - unfold supported; simpl. repeat split; lia.
  - lia.
  - reflexivity.
  - simpl. lia.
Defined.

(** Claim C1 as stated fails: in a 16 x 64 tile of 2-byte elements (swizzle
    period 128) the first base-tile quantum, rows 0..15 and columns 0..15,
    has [idx] 0 at (0,0) and 2032 at (15,0); no range of 16 * 16 elements
    (512 bytes) holds both. *)
Lemma idx_quantum_not_contiguous :
  ~ (exists lo, forall r c, 0 <= r < 16 -> 0 <= c < 16 ->
       lo <= st.idx (H := dims16) (st.Build bf16 16 64) 0 (mk_int2 r c)
          < lo + 2 * (16 * 16)).
Proof.
  intros [lo Hlo].
  pose proof (Hlo 0 0 ltac:(lia) ltac:(lia)) as H0.
  pose proof (Hlo 15 0 ltac:(lia) ltac:(lia)) as H15.
  change (st.idx (H := dims16) (st.Build bf16 16 64) 0 (mk_int2 0 0))
    with 0 in H0.
  change (st.idx (H := dims16) (st.Build bf16 16 64) 0 (mk_int2 15 0))
    with 2032 in H15.
  lia.
Qed.
Section Subscripts.
Context `{TileDim}.

(** Claim C9.  [st[i]] designates the element at [data + sizeof(T) * i]: the
    raw offset, with no swizzle.  [st[{r, c}]] designates the address [addr]
    exclusive-or the swizzle term.  For a coordinate of a supported tile the
    two accessors, at [{r, c}] and at [r * cols + c], designate the same
    location only when the swizzle term of [{r, c}] is 0. *)
Theorem subscript_int_is_unswizzled (s : st.t) (data r c : Z) :
  supported s -> in_tile (st.rows s) (st.cols s) (mk_int2 r c) ->
  (forall i, st.subscript_int s data i = data + sizeof (st.T s) * i) /\
  st.subscript_coord s data (mk_int2 r c) =
    Z.lxor (st.idx_ptr_addr s data (mk_int2 r c))
           (st.idx_ptr_swizzle s data (mk_int2 r c)) /\
  (st.subscript_coord s data (mk_int2 r c)
     = st.subscript_int s data (r * st.cols s + c) ->
   st.idx_ptr_swizzle s data (mk_int2 r c) = 0).
Proof.
  intros Hs [Hr Hc]. simpl in Hr, Hc.
  split; [reflexivity|]. split; [reflexivity|].
  unfold st.subscript_coord, st.subscript_int.
  change (st.idx_ptr s data (mk_int2 r c))
    with (Z.lxor (st.idx_ptr_addr s data (mk_int2 r c))
                 (st.idx_ptr_swizzle s data (mk_int2 r c))).
  destruct (supported_geometry s Hs) as (Hsz & Hp & Esz & Hsc & HR & n & Hn & Ecols).
  set (sz := sizeof (st.T s)) in *.
  set (sb := st.swizzle_bytes s) in *.
  set (sc := sb / sz) in *.
  set (a := st.idx_ptr_addr s data (mk_int2 r c)).
  set (sw := st.idx_ptr_swizzle s data (mk_int2 r c)).
  assert (Ea : a = data + sz * element_offset sc (st.rows s) r c) by reflexivity.
  assert (Hsw : 0 <= sw < sb).
  { apply (swizzle_term_bounds sb a Hp). }
  intros E.
  destruct (pow2_of_period sb Hp) as (k & Hk & Ek & _).
  assert (Hq : (data + sz * (r * st.cols s + c)) / sb = a / sb).
  { rewrite <- E, Ek. apply lxor_div_pow2; [assumption | rewrite <- Ek; exact Hsw]. }
  assert (Hdiff : a = data + sz * (r * st.cols s + c)
                      + (c / sc * st.rows s + r - r * n - c / sc) * sb).
  { rewrite Ea, element_offset_split by lia.
    rewrite Ecols, <- Esz.
    pose proof (Z.div_mod c sc ltac:(lia)) as D.
    set (o := c / sc) in *. set (l := c mod sc) in *.
    replace (r * (n * sc) + c) with (r * (n * sc) + (sc * o + l)) by lia.
    ring. }
  assert (Ez : c / sc * st.rows s + r - r * n - c / sc = 0).
  { set (m := c / sc * st.rows s + r - r * n - c / sc) in *.
    set (b := data + sz * (r * st.cols s + c)) in *.
    rewrite Hdiff, Z.div_add in Hq by lia. lia. }
  rewrite Ez in Hdiff. rewrite Z.mul_0_l, Z.add_0_r in Hdiff.
  rewrite <- Hdiff in E.
  apply (f_equal (Z.lxor a)) in E.
  rewrite <- Z.lxor_assoc, Z.lxor_nilpotent, Z.lxor_0_l in E. exact E.
Qed.

End Subscripts.
(** The statement of [subscript_int_is_unswizzled] at row 1, column 0 of a
    16 x 64 tile of 2-byte elements. *)
Lemma subscript_int_is_unswizzled_witness :
  let s := st.Build bf16 16 64 in
  (forall i, st.subscript_int s 0 i = 0 + 2 * i) /\
  st.subscript_coord (H := dims16) s 0 (mk_int2 1 0) =
    Z.lxor (st.idx_ptr_addr (H := dims16) s 0 (mk_int2 1 0))
           (st.idx_ptr_swizzle (H := dims16) s 0 (mk_int2 1 0)) /\
  (st.subscript_coord (H := dims16) s 0 (mk_int2 1 0)
     = st.subscript_int s 0 (1 * 64 + 0) ->
   st.idx_ptr_swizzle (H := dims16) s 0 (mk_int2 1 0) = 0).
Proof.
  apply (subscript_int_is_unswizzled (H := dims16) (st.Build bf16 16 64) 0 1 0).
  - unfold supported; simpl. repeat split; lia.
  - unfold in_tile; simpl. lia.
Defined.

Section Subtile.
Context `{TileDim}.

(** Claim C2.  For every subtile [S] and every local coordinate,
    [st_subtile::idx] (on a shared address and on a pointer) is the parent's
    [idx] at the coordinate shifted by [(row_offset, col_offset)], so that
    reading [S] there reads the parent at the shifted coordinate; the
    subtile's address arithmetic uses the parent's [underlying_rows], which
    for the parent, a root tile, is its own [rows]. *)
Theorem subtile_idx_is_parent_idx (V : Type) (mem : Z -> V)
    (S : st_subtile.t) (ptr : Z) (coord : int2) :
  let shifted := mk_int2 (x coord + st_subtile.row_offset S)
                         (y coord + st_subtile.col_offset S) in
  st_subtile.idx S ptr coord = st.idx (st_subtile.ST S) ptr shifted /\
  st_subtile.idx_ptr S ptr coord = st.idx_ptr (st_subtile.ST S) ptr shifted /\
  mem (st_subtile.subscript_coord S coord)
    = mem (st.subscript_coord (st_subtile.ST S) (st_subtile.data S) shifted) /\
  st_subtile.underlying_rows S = st.rows (st_subtile.ST S) /\
  st.underlying_rows (st_subtile.ST S) = st.rows (st_subtile.ST S).
Proof.
  intros shifted.
  unfold st_subtile.subscript_coord, st.subscript_coord.
  unfold st_subtile.idx, st_subtile.idx_ptr, st.idx, st.idx_ptr.
  unfold st_subtile.swizzle_bytes, st_subtile.T, st_subtile.underlying_rows,
    st.underlying_rows.
  subst shifted. cbn [x y].
  repeat split; reflexivity.
Qed.

Lemma int_wrap_small (n : Z) : - 2 ^ 31 <= n < 2 ^ 31 -> int_wrap n = n.
Proof. intros Hn. unfold int_wrap. rewrite Z.mod_small by lia. ring. Qed.

Lemma int_wrap_divide (q n : Z) :
  (q | 2 ^ 32) -> (q | n) -> (q | int_wrap n).
Proof.
  intros Hq Hn. unfold int_wrap.
  replace ((n + 2 ^ 31) mod 2 ^ 32 - 2 ^ 31)
    with (n - 2 ^ 32 * ((n + 2 ^ 31) / 2 ^ 32))
    by (pose proof (Z.div_mod (n + 2 ^ 31) (2 ^ 32) ltac:(lia)); lia).
  apply Z.divide_sub_r; [exact Hn|]. apply Z.divide_mul_l. exact Hq.
Qed.

Lemma rem_int_product (q a k : Z) :
  Z.rem a q = 0 ->
  2 ^ 32 mod q = 0 \/ - 2 ^ 31 <= k * a < 2 ^ 31 ->
  Z.rem (int_wrap (k * a)) q = 0.
Proof.
  intros Ha Hcase.
  destruct (Z.eq_dec q 0) as [-> | Hq].
  - assert (R0 : forall z, Z.rem z 0 = z) by (intros []; reflexivity).
    rewrite R0 in Ha. subst a. rewrite Z.mul_0_r. reflexivity.
  - apply Z.rem_divide in Ha; [|assumption].
    assert (Hka : (q | k * a)) by (apply Z.divide_mul_r; exact Ha).
    apply Z.rem_divide; [assumption|].
    destruct Hcase as [H32 | Hfit].
    + apply int_wrap_divide; [|exact Hka]. apply Z.mod_divide; assumption.
    + rewrite int_wrap_small by assumption. exact Hka.
Qed.

(** Claim C10.  When the [static_assert]s of [st_subtile] hold, the subtile
    built by [st_subtile(src, rowcol)] has the extents [_subtile_rows] and
    [_subtile_cols], its [row_offset] is the [int] product
    [rowcol.x * _subtile_rows] and its [col_offset] the [int] product
    [rowcol.y * _subtile_cols] (the integer products themselves when they
    fit an [int]), and both offsets are multiples of the base-tile quantum:
    for every [rowcol] when the quantum divides 2^32 (as 16 and 32 do), and
    for any quantum when the product fits an [int]. *)
Theorem ctor_offsets_aligned (P : st.t) (_subtile_rows _subtile_cols : Z)
    (src_data : Z) (rowcol : int2) :
  st_subtile.static_asserts P _subtile_rows _subtile_cols = true ->
  let S := st_subtile.ctor P _subtile_rows _subtile_cols src_data rowcol in
  st_subtile.rows S = _subtile_rows /\
  st_subtile.cols S = _subtile_cols /\
  st_subtile.row_offset S = int_wrap (x rowcol * _subtile_rows) /\
  st_subtile.col_offset S = int_wrap (y rowcol * _subtile_cols) /\
  (- 2 ^ 31 <= x rowcol * _subtile_rows < 2 ^ 31 ->
   st_subtile.row_offset S = x rowcol * _subtile_rows) /\
  (- 2 ^ 31 <= y rowcol * _subtile_cols < 2 ^ 31 ->
   st_subtile.col_offset S = y rowcol * _subtile_cols) /\
  (2 ^ 32 mod TILE_ROW_DIM (st_subtile.T S) = 0
   \/ - 2 ^ 31 <= x rowcol * _subtile_rows < 2 ^ 31 ->
   Z.rem (st_subtile.row_offset S) (TILE_ROW_DIM (st_subtile.T S)) = 0) /\
  (2 ^ 32 mod TILE_COL_DIM (st_subtile.T S) = 0
   \/ - 2 ^ 31 <= y rowcol * _subtile_cols < 2 ^ 31 ->
   Z.rem (st_subtile.col_offset S) (TILE_COL_DIM (st_subtile.T S)) = 0).
Proof.
  intros Hsa S. unfold st_subtile.static_asserts in Hsa.
  repeat (apply andb_prop in Hsa; destruct Hsa as [Hsa ?]).
  repeat match goal with H : (_ =? _) = true |- _ => apply Z.eqb_eq in H end.
  subst S. unfold st_subtile.T.
  cbn [st_subtile.ctor st_subtile.rows st_subtile.cols st_subtile.row_offset
       st_subtile.col_offset st_subtile.ST].
  split; [reflexivity|]. split; [reflexivity|].
  split; [reflexivity|]. split; [reflexivity|].
  split; [apply int_wrap_small|]. split; [apply int_wrap_small|].
  split; intros Hcase; apply rem_int_product; assumption.
Qed.

(** Claim C4, as amended.  [swizzle_bytes] is a function of the element size
    and of the width in base-tile quanta alone: for 1- and 2-byte elements
    128 when the width is a multiple of 4 quanta, 64 when a multiple of 2,
    else 32; for 4-byte elements 128 when a multiple of 2, else 64.  A
    subtile takes its parent's.  For any other element size it is -1, and
    nothing rejects such a tile: the [static_assert]s of the struct test the
    extents and the packing of the element type only, so a tile of a
    1-packed type with whole-quantum extents instantiates whatever its
    element size. *)
Theorem swizzle_bytes_table (s : st.t) :
  let w := st.underlying_width s in
  let sz := sizeof (st.T s) in
  st.swizzle_bytes s =
    (if (sz =? 1) || (sz =? 2) then
       (if Z.rem w 4 =? 0 then 128 else if Z.rem w 2 =? 0 then 64 else 32)
     else if sz =? 4 then
       (if Z.rem w 2 =? 0 then 128 else 64)
     else -1) /\
  w = Z.quot (st.cols s) (TILE_COL_DIM (st.T s)) /\
  (forall S : st_subtile.t,
     st_subtile.swizzle_bytes S = st.swizzle_bytes (st_subtile.ST S)) /\
  (sz <> 1 -> sz <> 2 -> sz <> 4 -> st.swizzle_bytes s = -1) /\
  (forall num : dtype -> Z,
     Z.rem (st.rows s) (TILE_ROW_DIM (st.T s)) = 0 ->
     Z.rem (st.cols s) (TILE_COL_DIM (st.T s)) = 0 ->
     num (st.T s) = 1 ->
     st.instantiates num s = true).
Proof.
  intros w sz.
  split; [|split; [reflexivity | split; [intros; reflexivity | split]]].
  - unfold st.swizzle_bytes. fold w sz.
    destruct (sz =? 1); [reflexivity|]. destruct (sz =? 2); reflexivity.
  - intros H1 H2 H4. unfold st.swizzle_bytes. fold sz.
    destruct (Z.eqb_spec sz 1); [contradiction|].
    destruct (Z.eqb_spec sz 2); [contradiction|].
    destruct (Z.eqb_spec sz 4); [contradiction | reflexivity].
  - intros num Hr Hc Hn.
    unfold st.instantiates, st.static_asserts, st.packing_assert.
    rewrite Hr, Hc, Hn. reflexivity.
Qed.

End Subtile.

(** Claim C4 as stated fails for an element width other than 1, 2 and 4: a
    16 x 16 tile of a 1-packed 8-byte element type passes every
    [static_assert] of [st] and has the swizzle period -1. *)
Lemma other_width_not_rejected :
  st.instantiates (H := dims16) (fun _ => 1) (st.Build (other_type 8) 16 16) = true /\
  sizeof (other_type 8) = 8 /\
  st.swizzle_bytes (H := dims16) (st.Build (other_type 8) 16 16) = -1.
Proof. repeat split; reflexivity. Qed.

(** ** The dispatcher's static checks *)

Lemma dtype_eqb_eq (A B : dtype) : dtype_eqb A B = true <-> A = B.
Proof.
  destruct A, B; simpl; split; intros E; try reflexivity; try discriminate.
  - apply Z.eqb_eq in E. now subst.
  - injection E as ->. apply Z.eqb_refl.
Qed.

Lemma type_assert_spec (T_D T_AB : dtype) :
  base.type_assert T_D T_AB = true <-> base.supported_pair T_D T_AB.
Proof.
  unfold base.type_assert, base.supported_pair.
  rewrite !orb_true_iff, !andb_true_iff, !dtype_eqb_eq. tauto.
Qed.

Lemma scale_assert_spec (scale_b : Z) :
  base.scale_assert scale_b = true <-> (scale_b = 1 \/ scale_b = -1).
Proof.
  unfold base.scale_assert. rewrite orb_true_iff, !Z.eqb_eq. tauto.
Qed.

Lemma rt_st_cases (T_D T_AB : dtype) (trans_a trans_b scale_b scale_d : Z) :
  (base.type_assert T_D T_AB && base.scale_assert scale_b = true /\
   exists w, base.rt_st T_D T_AB trans_a trans_b scale_b scale_d = Compiled (Some w)) \/
  (base.type_assert T_D T_AB && base.scale_assert scale_b = false /\
   exists msg, base.rt_st T_D T_AB trans_a trans_b scale_b scale_d = Rejected msg).
Proof.
  unfold base.rt_st.
  destruct (base.type_assert T_D T_AB) eqn:Et; simpl.
  - destruct (base.scale_assert scale_b) eqn:Es; simpl.
    + left. split; [reflexivity|].
      unfold base.type_assert in Et.
      destruct (dtype_eqb T_D float && dtype_eqb T_AB bf16); [eexists; reflexivity|].
      destruct (dtype_eqb T_D float && dtype_eqb T_AB half); [eexists; reflexivity|].
      destruct (dtype_eqb T_D half && dtype_eqb T_AB half); [eexists; reflexivity|].
      discriminate.
    + right. split; [reflexivity|]. eexists; reflexivity.
  - right. split; [reflexivity|]. eexists; reflexivity.
Qed.

Lemma st_st_cases (T_D T_AB : dtype) (trans_a trans_b scale_b scale_d : Z) :
  (base.type_assert T_D T_AB && base.scale_assert scale_b = true /\
   exists w, base.st_st T_D T_AB trans_a trans_b scale_b scale_d = Compiled (Some w)) \/
  (base.type_assert T_D T_AB && base.scale_assert scale_b = false /\
   exists msg, base.st_st T_D T_AB trans_a trans_b scale_b scale_d = Rejected msg).
Proof.
  unfold base.st_st.
  destruct (base.type_assert T_D T_AB) eqn:Et; simpl.
  - destruct (base.scale_assert scale_b) eqn:Es; simpl.
    + left. split; [reflexivity|].
      unfold base.type_assert in Et.
      destruct (dtype_eqb T_D float && dtype_eqb T_AB bf16); [eexists; reflexivity|].
      destruct (dtype_eqb T_D float && dtype_eqb T_AB half); [eexists; reflexivity|].
      destruct (dtype_eqb T_D half && dtype_eqb T_AB half); [eexists; reflexivity|].
      discriminate.
    + right. split; [reflexivity|]. eexists; reflexivity.
  - right. split; [reflexivity|]. eexists; reflexivity.
Qed.

(** Claim C6.  [rt_st] and [st_st] instantiate exactly for the pairs
    (float, bf16), (float, half), (half, half) of (accumulator, operand)
    types with [scale_b] equal to 1 or -1, and then issue an instruction;
    every other type pair or sign is rejected by a [static_assert]. *)
Theorem dispatcher_closed_set (T_D T_AB : dtype)
    (trans_a trans_b scale_b scale_d : Z) :
  let ok := base.supported_pair T_D T_AB /\ (scale_b = 1 \/ scale_b = -1) in
  ((exists w, base.rt_st T_D T_AB trans_a trans_b scale_b scale_d
              = Compiled (Some w)) <-> ok) /\
  ((exists msg, base.rt_st T_D T_AB trans_a trans_b scale_b scale_d
                = Rejected msg) <-> ~ ok) /\
  ((exists w, base.st_st T_D T_AB trans_a trans_b scale_b scale_d
              = Compiled (Some w)) <-> ok) /\
  ((exists msg, base.st_st T_D T_AB trans_a trans_b scale_b scale_d
                = Rejected msg) <-> ~ ok).
Proof.
  intros ok.
  assert (Hok : base.type_assert T_D T_AB && base.scale_assert scale_b = true <-> ok).
  { subst ok. rewrite andb_true_iff, type_assert_spec, scale_assert_spec. tauto. }
  assert (Hko : base.type_assert T_D T_AB && base.scale_assert scale_b = false <-> ~ ok).
  { rewrite <- Hok. destruct (_ && _); split; intros E; try discriminate; auto.
    exfalso. apply E. reflexivity. }
  destruct (rt_st_cases T_D T_AB trans_a trans_b scale_b scale_d)
    as [[E [w Hw]] | [E [msg Hm]]];
  destruct (st_st_cases T_D T_AB trans_a trans_b scale_b scale_d)
    as [[E' [w' Hw']] | [E' [msg' Hm']]];
  try (rewrite E in E'; discriminate).
  - apply Hok in E.
    assert (Hn : ~ ~ ok) by tauto.
    split; [|split; [|split]]; (split; [intros [? Hx] | intros Hx]);
      try assumption; try congruence; try contradiction; eauto.
  - apply Hko in E.
    split; [|split; [|split]]; (split; [intros [? Hx] | intros Hx]);
      try assumption; try congruence; try contradiction; eauto.
Qed.

(** ** Moving along a row of the swizzled layout *)

Lemma xor_swizzle_low (sb a t : Z) :
  period_ok sb -> a mod 16 = 0 -> 0 <= t < 16 ->
  xor_swizzle sb (a + t) = xor_swizzle sb a + t.
Proof.
  intros Hp Ha Ht.
  assert (E128 : (a + t) / 128 = a / 128).
  { Z.div_mod_to_equations. lia. }
  unfold xor_swizzle. rewrite !swizzle_term_eq by assumption. rewrite E128.
  set (s := (a / 128) mod (sb / 16) * 16).
  assert (Hs : s mod 2 ^ 4 = 0) by (subst s; apply Z.mod_mul; lia).
  pose proof (lxor_mod_pow2 (a + t) s 4 ltac:(lia) Hs) as M1.
  pose proof (lxor_mod_pow2 a s 4 ltac:(lia) Hs) as M0.
  assert (D : Z.lxor (a + t) s / 2 ^ 4 = Z.lxor a s / 2 ^ 4).
  { rewrite <- !Z.shiftr_div_pow2 by lia. rewrite !Z.shiftr_lxor.
    f_equal. rewrite !Z.shiftr_div_pow2 by lia.
    change (2 ^ 4) with 16. Z.div_mod_to_equations. lia. }
  change (2 ^ 4) with 16 in *.
  revert M1 M0 D. generalize (Z.lxor (a + t) s) (Z.lxor a s). intros p q M1 M0 D.
  Z.div_mod_to_equations. lia.
Qed.

Section Shift.
Context `{TileDim}.

Lemma element_offset_shift (s : st.t) (r c d : Z) :
  supported s ->
  let sz := sizeof (st.T s) in
  let sc := st.swizzle_bytes s / sz in
  0 <= c -> 0 <= d -> (sz * c) mod 16 = 0 -> sz * d < 16 ->
  element_offset sc (st.rows s) r (c + d) = element_offset sc (st.rows s) r c + d /\
  (sz * element_offset sc (st.rows s) r c) mod 16 = 0.
Proof.
  intros Hs sz sc Hc Hd Hal Hsd.
  destruct (supported_geometry s Hs) as (Hsz & Hp & Esz & Hsc & HR & n & Hn & Ecols).
  fold sz sc in Hsz, Esz, Hsc, Ecols.
  set (sb := st.swizzle_bytes s) in *.
  rewrite !element_offset_split by lia.
  assert (Hsb16 : sb mod 16 = 0).
  { destruct Hp as [-> | [-> | ->]]; reflexivity. }
  pose proof (Z.div_mod c sc ltac:(lia)) as D.
  pose proof (Z.mod_pos_bound c sc Hsc) as B.
  set (q := c / sc) in *. set (l := c mod sc) in *.
  assert (Hl16 : (sz * l) mod 16 = 0).
  { replace (sz * l) with (sz * c - q * sb) by nia.
    rewrite Zminus_mod, Hal.
    rewrite <- Zmult_mod_idemp_r, Hsb16, Z.mul_0_r. reflexivity. }
  assert (Hlsb : sz * l + 16 <= sb).
  { assert (Hlt : sz * l < sb) by nia.
    revert Hlt Hl16 Hsb16. generalize (sz * l). clear. intros.
    Z.div_mod_to_equations. lia. }
  assert (Hld : l + d < sc) by nia.
  assert (Eq : (c + d) / sc = q /\ (c + d) mod sc = l + d).
  { replace (c + d) with ((l + d) + q * sc) by lia.
    rewrite Z.div_add, Z.mod_add by lia.
    rewrite Z.div_small, Z.mod_small by lia. lia. }
  destruct Eq as [-> ->]. split; [ring|].
  replace (sz * ((q * st.rows s + r) * sc + l))
    with (sz * l + (q * st.rows s + r) * sb) by nia.
  assert (Ed : (16 | sb)) by (apply Z.mod_divide; lia).
  destruct Ed as [w ->].
  replace ((q * st.rows s + r) * (w * 16)) with ((q * st.rows s + r) * w * 16) by ring.
  rewrite Z.mod_add by lia. exact Hl16.
Qed.

Lemma idx_no_wrap (s : st.t) (ptr : Z) (coord : int2) :
  supported s -> 0 <= ptr ->
  ptr + sizeof (st.T s) * (st.rows s * st.cols s) <= 2 ^ 32 ->
  in_tile (st.rows s) (st.cols s) coord ->
  let a := ptr + sizeof (st.T s) *
     element_offset (st.swizzle_bytes s / sizeof (st.T s)) (st.rows s)
       (x coord) (y coord) in
  uint32_wrap a = a /\ ptr <= a /\
  a + sizeof (st.T s) <= ptr + sizeof (st.T s) * (st.rows s * st.cols s).
Proof.
  intros Hs Hptr Hfit [Hr Hc] a.
  destruct (supported_geometry s Hs) as (Hsz & Hp & Esz & Hsc & HR & n & Hn & Ecols).
  pose proof (element_offset_range _ (st.rows s) Hsc HR n (x coord) (y coord) Hr
                ltac:(rewrite <- Ecols; exact Hc)) as B.
  rewrite <- Ecols in B.
  assert (0 < sizeof (st.T s)) by lia.
  assert (ptr <= a /\ a + sizeof (st.T s)
            <= ptr + sizeof (st.T s) * (st.rows s * st.cols s)) by (subst a; nia).
  split; [|assumption]. unfold uint32_wrap. apply Z.mod_small. lia.
Qed.

Lemma idx_shift (s : st.t) (ptr r c d : Z) :
  supported s -> 0 <= ptr -> ptr mod 16 = 0 ->
  ptr + sizeof (st.T s) * (st.rows s * st.cols s) <= 2 ^ 32 ->
  in_tile (st.rows s) (st.cols s) (mk_int2 r c) ->
  in_tile (st.rows s) (st.cols s) (mk_int2 r (c + d)) ->
  0 <= d -> (sizeof (st.T s) * c) mod 16 = 0 -> sizeof (st.T s) * d < 16 ->
  st.idx s ptr (mk_int2 r (c + d)) = st.idx s ptr (mk_int2 r c) + sizeof (st.T s) * d.
Proof.
  intros Hs Hptr Hal Hfit Hin Hin' Hd Hc16 Hsd.
  rewrite !idx_unfold.
  destruct (idx_no_wrap s ptr _ Hs Hptr Hfit Hin) as (-> & _).
  destruct (idx_no_wrap s ptr _ Hs Hptr Hfit Hin') as (-> & _).
  cbn [x y].
  destruct Hin as [_ Hc]. cbn [x y] in Hc.
  destruct (element_offset_shift s r c d Hs ltac:(lia) Hd Hc16 Hsd) as [-> E16].
  pose proof (supported_period s Hs) as Hp.
  assert (0 < sizeof (st.T s)) by (destruct Hs as (? & _); lia).
  rewrite Z.mul_add_distr_l, Z.add_assoc.
  apply xor_swizzle_low; [assumption | | lia].
  rewrite Z.add_mod, Hal, E16 by lia. reflexivity.
Qed.

End Shift.

(** ** Shared tile arguments under the assumptions of a transfer *)

Section TransferFacts.
Context `{TileDim}.

Lemma ST_dtype_parent (a : ST.t) : ST.dtype a = st.T (ST_parent a).
Proof. destruct a; reflexivity. Qed.

Lemma ST_swizzle_parent (a : ST.t) :
  ST.swizzle_bytes a = st.swizzle_bytes (ST_parent a).
Proof. destruct a; reflexivity. Qed.

Lemma ST_underlying_rows_parent (a : ST.t) :
  ST.underlying_rows a = st.rows (ST_parent a).
Proof. destruct a; reflexivity. Qed.

Lemma ST_underlying_cols_parent (a : ST.t) :
  ST.underlying_cols a = st.cols (ST_parent a).
Proof. destruct a; reflexivity. Qed.

Lemma ST_idx_parent (a : ST.t) (ptr r c : Z) :
  ST.idx a ptr (mk_int2 r c) =
  st.idx (ST_parent a) ptr (mk_int2 (r + ST.row_offset a) (c + ST.col_offset a)).
Proof.
  destruct a as [s | s]; simpl.
  - rewrite !Z.add_0_r. reflexivity.
  - reflexivity.
Qed.

Variables (R : rt.t) (a : ST.t) (shared_addr : Z).
Hypothesis Hok : transfer_ok R a shared_addr.

Let sz := sizeof (ST.dtype a).

Lemma ok_sz : sz = 1 \/ sz = 2 \/ sz = 4.
Proof.
  unfold sz. rewrite ST_dtype_parent.
  destruct (ok_parent _ _ _ Hok) as (Hsz & _). exact Hsz.
Qed.

Lemma ok_addr16 : shared_addr mod 16 = 0.
Proof.
  destruct (ok_aligned _ _ _ Hok) as [_ Hal].
  rewrite ST_swizzle_parent in Hal.
  pose proof (supported_period _ (ok_parent _ _ _ Hok)) as Hp.
  destruct Hp as [E | [E | E]]; rewrite E in Hal;
    Z.div_mod_to_equations; lia.
Qed.

Lemma ok_col_offset16 : (sz * ST.col_offset a) mod 16 = 0.
Proof.
  destruct (ok_col_offset _ _ _ Hok) as (_ & Hm & _).
  rewrite (ok_tile_cols _ _ _ Hok) in Hm. fold sz in Hm.
  destruct ok_sz as [E | [E | E]]; rewrite E in *; simpl in Hm;
    Z.div_mod_to_equations; lia.
Qed.

Lemma ok_in_parent (r c : Z) :
  in_tile (ST.rows a) (ST.cols a) (mk_int2 r c) ->
  in_tile (st.rows (ST_parent a)) (st.cols (ST_parent a))
    (mk_int2 (r + ST.row_offset a) (c + ST.col_offset a)).
Proof.
  intros [Hr Hc]. cbn [x y] in *.
  destruct (ok_row_offset _ _ _ Hok) as [? ?].
  destruct (ok_col_offset _ _ _ Hok) as (? & _ & ?).
  split; cbn [x y]; lia.
Qed.

Lemma ST_idx_shift (r c d : Z) :
  in_tile (ST.rows a) (ST.cols a) (mk_int2 r c) ->
  in_tile (ST.rows a) (ST.cols a) (mk_int2 r (c + d)) ->
  0 <= d -> (sz * c) mod 16 = 0 -> sz * d < 16 ->
  ST.idx a shared_addr (mk_int2 r (c + d))
  = ST.idx a shared_addr (mk_int2 r c) + sz * d.
Proof.
  intros Hin Hin' Hd Hc Hsd.
  rewrite !ST_idx_parent.
  replace (c + d + ST.col_offset a) with (c + ST.col_offset a + d) by ring.
  unfold sz in *. rewrite ST_dtype_parent in *.
  destruct (ok_aligned _ _ _ Hok) as [Hpos _].
  pose proof (ok_fits _ _ _ Hok) as Hfit. rewrite ST_dtype_parent in Hfit.
  apply idx_shift; try assumption.
  - exact (ok_parent _ _ _ Hok).
  - exact ok_addr16.
  - apply ok_in_parent; assumption.
  - replace (c + ST.col_offset a + d) with (c + d + ST.col_offset a) by ring.
    apply ok_in_parent; assumption.
  - rewrite Z.mul_add_distr_l, Z.add_mod, Hc by lia.
    pose proof ok_col_offset16 as E. unfold sz in E. rewrite ST_dtype_parent in E.
    rewrite E. reflexivity.
Qed.

End TransferFacts.

(** ** Where each fragment element lives in shared memory *)

Section SlotAddresses.
Context `{TileDim}.
Variables (R : rt.t) (a : ST.t) (shared_addr : Z).
Hypothesis Hok : transfer_ok R a shared_addr.

Let sz := sizeof (ST.dtype a).
Let tsr := rt.tile_size_row R.
Let tsc := rt.tile_size_col R.

Lemma frag_coord_in_tile (layout : rt_layout.t) (i j l k e : Z) :
  0 <= i < rt.height R -> 0 <= j < rt.width R -> slot_ok sz l k e ->
  (layout = rt_layout.col -> sz <> 1) ->
  in_tile (ST.rows a) (ST.cols a) (frag_coord sz layout tsr tsc i j l k e).
Proof.
  intros Hi Hj (Hl & Hk & He) Hlay.
  rewrite (ok_rows _ _ _ Hok), (ok_cols _ _ _ Hok).
  pose proof (ok_tile_rows _ _ _ Hok) as Er.
  pose proof (ok_tile_cols _ _ _ Hok) as Ec.
  fold sz tsr tsc in Er, Ec |- *.
  pose proof (ok_sz R a shared_addr Hok) as Hsz. fold sz in Hsz.
  unfold frag_coord, in_tile, elems_per_reg in *.
  destruct layout; cbn [x y].
  - destruct Hsz as [E | [E | E]]; rewrite E in *;
      [ change (1 =? 1) with true in * | change (2 =? 1) with false in *
      | change (4 =? 1) with false in * ];
      cbv iota in *; rewrite Er, Ec; Z.div_mod_to_equations; lia.
  - specialize (Hlay eq_refl).
    destruct Hsz as [E | [E | E]]; [contradiction | |]; rewrite E in *;
      [ change (2 =? 1) with false in * | change (4 =? 1) with false in * ];
      cbv iota in *; rewrite Er, Ec; Z.div_mod_to_equations; lia.
Qed.

Ltac case_sz Hsz E :=
  destruct Hsz as [E | [E | E]]; rewrite ?E in *;
  [ change (1 =? 1) with true in * | change (2 =? 1) with false in *
  | change (4 =? 1) with false in * ];
  cbv iota in *.

(** The address a lane's [ldsm4]/[stsm4] register component has, when the
    lanes pass [idx] of row [laneid % 16] and of the column half
    [laneid / 16].  [stride] is the literal 8 or 16 of the source. *)
Lemma grouped_slot_addr (stride i j l k e : Z) :
  sz <> 4 -> stride = 4 * elems_per_reg sz ->
  0 <= i < rt.height R -> 0 <= j < rt.width R -> slot_ok sz l k e ->
  ST.idx a shared_addr
    (mk_int2 (i * tsr + Z.rem (8 * k + l / 4) 16)
             (j * tsc + Z.quot (8 * k + l / 4) 16 * stride))
  + 4 * (l mod 4) + sz * e
  = ST.idx a shared_addr (frag_coord sz rt_layout.row tsr tsc i j l k e).
Proof.
  intros Hn4 Hst Hi Hj Hslot.
  pose proof (frag_coord_in_tile rt_layout.row i j l k e Hi Hj Hslot
                ltac:(discriminate)) as Hin.
  pose proof (frag_coord_in_tile rt_layout.row i j (4 * (l / 4)) k 0 Hi Hj) as Hin0.
  destruct Hslot as (Hl & Hk & He).
  pose proof (ok_sz R a shared_addr Hok) as Hsz. fold sz in Hsz.
  pose proof (ok_tile_rows _ _ _ Hok) as Er.
  pose proof (ok_tile_cols _ _ _ Hok) as Ec.
  fold sz tsr tsc in Er, Ec.
  assert (Hin0' : in_tile (ST.rows a) (ST.cols a)
            (frag_coord sz rt_layout.row tsr tsc i j (4 * (l / 4)) k 0)).
  { apply Hin0; [|discriminate]. unfold slot_ok, elems_per_reg.
    destruct (sz =? 1); Z.div_mod_to_equations; lia. }
  clear Hin0. unfold frag_coord in *.
  set (n := elems_per_reg sz) in *.
  assert (Hn : sz * n = 4 /\ 0 < n).
  { subst n. unfold elems_per_reg. case_sz Hsz E; lia. }
  assert (E1 : Z.rem (8 * k + l / 4) 16 = l / 4 + 8 * (k mod 2)).
  { Z.to_euclidean_division_equations. lia. }
  assert (E2 : Z.quot (8 * k + l / 4) 16 * stride = 4 * n * (k / 2)).
  { rewrite Hst. Z.to_euclidean_division_equations. nia. }
  rewrite E1, E2.
  assert (E3 : 4 * (l / 4) / 4 = l / 4 /\ (4 * (l / 4)) mod 4 = 0).
  { Z.div_mod_to_equations. lia. }
  destruct E3 as [E3 E4]. rewrite E3, E4 in Hin0'.
  rewrite Z.mul_0_r, !Z.add_0_r in Hin0'.
  replace (i * tsr + (l / 4 + 8 * (k mod 2))) with (i * tsr + l / 4 + 8 * (k mod 2)) by ring.
  replace (j * tsc + 4 * n * (k / 2) + n * (l mod 4) + e)
    with (j * tsc + 4 * n * (k / 2) + (n * (l mod 4) + e)) by ring.
  replace (j * tsc + 4 * n * (k / 2) + n * (l mod 4) + e)
    with (j * tsc + 4 * n * (k / 2) + (n * (l mod 4) + e)) in Hin by ring.
  rewrite (ST_idx_shift R a shared_addr Hok _ _ (n * (l mod 4) + e) Hin0' Hin).
  - fold sz. destruct Hn as [Hn _]. 
    replace (sz * (n * (l mod 4) + e)) with (sz * n * (l mod 4) + sz * e) by ring.
    rewrite Hn. ring.
  - subst n. unfold elems_per_reg in *. destruct (sz =? 1); Z.div_mod_to_equations; lia.
  - fold sz. rewrite Ec. subst n. unfold elems_per_reg.
    case_sz Hsz E; try contradiction; Z.div_mod_to_equations; lia.
  - fold sz. subst n. unfold elems_per_reg in *.
    case_sz Hsz E; try contradiction; Z.div_mod_to_equations; lia.
Qed.

(** The same for [ldsm4t]/[stsm4t] on 2-byte elements; the source passes
    the registers in the order [tmp[0], tmp[2], tmp[1], tmp[3]], so that
    [data[k]] belongs to matrix [2 * (k mod 2) + k / 2]. *)
Lemma grouped_t_slot_addr (i j l k e : Z) :
  sz = 2 ->
  0 <= i < rt.height R -> 0 <= j < rt.width R -> slot_ok sz l k e ->
  let kk := 2 * (k mod 2) + k / 2 in
  let n := 8 * kk + 2 * (l mod 4) + e / (2 / sz) in
  ST.idx a shared_addr
    (mk_int2 (i * tsr + Z.rem n 16) (j * tsc + Z.quot n 16 * 8))
  + 2 * (l / 4) + sz * (e mod (2 / sz))
  = ST.idx a shared_addr (frag_coord sz rt_layout.col tsr tsc i j l k e).
Proof.
  intros E Hi Hj Hslot kk n. subst n kk.
  assert (Hnc : rt_layout.col = rt_layout.col -> sz <> 1) by (intros _; lia).
  pose proof (frag_coord_in_tile rt_layout.col i j l k e Hi Hj Hslot Hnc) as Hin.
  assert (Hslot0 : slot_ok sz (l mod 4) k e).
  { destruct Hslot as (Hl & Hk & He). repeat split; try lia;
      Z.div_mod_to_equations; lia. }
  pose proof (frag_coord_in_tile rt_layout.col i j (l mod 4) k e Hi Hj Hslot0 Hnc)
    as Hin0.
  destruct Hslot as (Hl & Hk & He).
  pose proof (ok_tile_cols _ _ _ Hok) as Ec. fold sz tsc in Ec.
  unfold frag_coord, elems_per_reg in *. rewrite E in *.
  change (2 =? 1) with false in *. cbv iota in *.
  change (2 / 2) with 1 in *.
  rewrite Z.div_1_r, Z.mod_1_r, Z.mul_0_r, Z.add_0_r.
  assert (E1 : Z.rem (8 * (2 * (k mod 2) + k / 2) + 2 * (l mod 4) + e) 16
               = 8 * (k / 2) + 2 * (l mod 4) + e).
  { Z.to_euclidean_division_equations. lia. }
  assert (E2 : Z.quot (8 * (2 * (k mod 2) + k / 2) + 2 * (l mod 4) + e) 16 * 8
               = 8 * (k mod 2)).
  { Z.to_euclidean_division_equations. lia. }
  rewrite E1, E2.
  assert (E3 : (l mod 4) mod 4 = l mod 4 /\ l mod 4 / 4 = 0).
  { Z.div_mod_to_equations. lia. }
  destruct E3 as [E3 E4]. rewrite E3, E4, Z.add_0_r in Hin0.
  replace (i * tsr + (8 * (k / 2) + 2 * (l mod 4) + e))
    with (i * tsr + 8 * (k / 2) + 2 * (l mod 4) + e) by ring.
  rewrite (ST_idx_shift R a shared_addr Hok _ _ (l / 4) Hin0 Hin).
  - fold sz. rewrite E. ring.
  - Z.div_mod_to_equations; lia.
  - fold sz. rewrite E, Ec. Z.div_mod_to_equations; lia.
  - fold sz. rewrite E. Z.div_mod_to_equations; lia.
Qed.

(** The coordinates the column-layout cases pass to [idx] directly. *)
Lemma col_slot_coord (i j l k e dr dc : Z) :
  0 <= l -> dr = 8 * (k / 2) + e -> dc = 8 * (k mod 2) ->
  mk_int2 (i * tsr + 2 * Z.rem l 4 + dr) (j * tsc + Z.quot l 4 + dc)
  = frag_coord sz rt_layout.col tsr tsc i j l k e.
Proof.
  intros Hl -> ->. unfold frag_coord.
  rewrite Z.rem_mod_nonneg, Z.quot_div_nonneg by lia.
  f_equal; ring.
Qed.

(** The address of component [e] of a packed pair stored at [idx] of the
    row-layout coordinates (2-byte elements). *)
Lemma pair_slot_addr (i j l k e dr dc : Z) :
  sz = 2 -> dr = 8 * (k mod 2) -> dc = 8 * (k / 2) ->
  0 <= i < rt.height R -> 0 <= j < rt.width R -> slot_ok sz l k e ->
  ST.idx a shared_addr
    (mk_int2 (i * tsr + Z.quot l 4 + dr) (j * tsc + 2 * Z.rem l 4 + dc))
  + sz * e
  = ST.idx a shared_addr (frag_coord sz rt_layout.row tsr tsc i j l k e).
Proof.
  intros E -> -> Hi Hj Hslot.
  pose proof (frag_coord_in_tile rt_layout.row i j l k e Hi Hj Hslot
                ltac:(discriminate)) as Hin.
  assert (Hslot1 : slot_ok sz l k 0).
  { destruct Hslot as (Hl & Hk & He). repeat split; lia. }
  pose proof (frag_coord_in_tile rt_layout.row i j l k 0 Hi Hj Hslot1
                ltac:(discriminate)) as Hin1.
  assert (Hslot0 : slot_ok sz (4 * (l / 4)) k 0).
  { destruct Hslot as (Hl & Hk & He). repeat split; try lia;
      Z.div_mod_to_equations; lia. }
  pose proof (frag_coord_in_tile rt_layout.row i j (4 * (l / 4)) k 0 Hi Hj Hslot0
                ltac:(discriminate)) as Hin0.
  destruct Hslot as (Hl & Hk & He).
  pose proof (ok_tile_cols _ _ _ Hok) as Ec. fold sz tsc in Ec.
  unfold frag_coord, elems_per_reg in *. rewrite E in *.
  change (2 =? 1) with false in *. cbv iota in *.
  rewrite Z.rem_mod_nonneg, Z.quot_div_nonneg by lia.
  assert (E3 : 4 * (l / 4) / 4 = l / 4 /\ (4 * (l / 4)) mod 4 = 0).
  { Z.div_mod_to_equations. lia. }
  destruct E3 as [E3 E4]. rewrite E3, E4 in Hin0.
  rewrite Z.mul_0_r, !Z.add_0_r in Hin0. rewrite Z.add_0_r in Hin1.
  replace (j * tsc + 2 * (l mod 4) + 8 * (k / 2))
    with (j * tsc + 4 * 2 * (k / 2) + 2 * (l mod 4)) by ring.
  replace (j * tsc + 4 * 2 * (k / 2) + 2 * (l mod 4) + e)
    with (j * tsc + 4 * 2 * (k / 2) + (2 * (l mod 4) + e)) in * by ring.
  assert (Hc16 : (sz * (j * tsc + 4 * 2 * (k / 2))) mod 16 = 0).
  { fold sz. rewrite E, Ec. Z.div_mod_to_equations; lia. }
  rewrite (ST_idx_shift R a shared_addr Hok _ _ (2 * (l mod 4)) Hin0 Hin1);
    [ | Z.div_mod_to_equations; lia | exact Hc16
      | fold sz; rewrite E; Z.div_mod_to_equations; lia ].
  rewrite (ST_idx_shift R a shared_addr Hok _ _ (2 * (l mod 4) + e) Hin0 Hin);
    [ | Z.div_mod_to_equations; lia | exact Hc16
      | fold sz; rewrite E; Z.div_mod_to_equations; lia ].
  fold sz. rewrite E. ring.
Qed.

End SlotAddresses.

(** ** The explicit addresses of the 4-byte row-layout case *)

Lemma element_offset_shift_within (sc R r c d : Z) :
  0 < sc -> 0 <= c -> 0 <= d -> c mod sc + d < sc ->
  element_offset sc R r (c + d) = element_offset sc R r c + d.
Proof.
  intros Hsc Hc Hd Hlt.
  rewrite !element_offset_split by lia.
  pose proof (Z.div_mod c sc ltac:(lia)) as D.
  pose proof (Z.mod_pos_bound c sc Hsc) as B.
  set (q := c / sc) in *. set (l := c mod sc) in *.
  replace (c + d) with ((l + d) + q * sc) by lia.
  rewrite Z.div_add, Z.mod_add by lia.
  rewrite Z.div_small, Z.mod_small by lia. ring.
Qed.

Lemma lxor_4_clear (x : Z) : x mod 8 = 0 -> Z.lxor x 4 = x + 4.
Proof.
  intros Hx. symmetry. apply Z.add_nocarry_lxor.
  apply Z.bits_inj'. intros n Hn. rewrite Z.land_spec, Z.bits_0.
  destruct (Z.eq_dec n 2) as [-> | Hne].
  - rewrite <- (Z.mod_pow2_bits_low x 3 2) by lia.
    change (2 ^ 3) with 8. rewrite Hx. reflexivity.
  - replace (Z.testbit 4 n) with false; [apply andb_false_r|].
    change 4 with (2 ^ 2). symmetry. apply Z.pow2_bits_false. lia.
Qed.

Lemma lxor_4_set (x : Z) : x mod 8 = 4 -> Z.lxor x 4 = x - 4.
Proof.
  intros Hx.
  assert (E : (x - 4) mod 8 = 0) by (Z.div_mod_to_equations; lia).
  replace x with (x - 4 + 4) at 1 by ring.
  rewrite <- (lxor_4_clear (x - 4) E).
  rewrite Z.lxor_assoc, Z.lxor_nilpotent, Z.lxor_0_r. reflexivity.
Qed.

(** Exclusive-or with the lane parity [b] (0 or 4) moves between the two
    4-byte halves of an 8-byte pair. *)
Lemma lxor_blit (x off' b : Z) :
  x mod 8 = 0 -> (off' mod 8 = 0 \/ off' mod 8 = 4) -> (b = 0 \/ b = 4) ->
  0 <= off' ->
  Z.lxor (x + Z.lxor off' b) b = x + off'.
Proof.
  intros Hx Ho Hb Hpos.
  destruct Hb as [-> | ->].
  - rewrite !Z.lxor_0_r. reflexivity.
  - destruct Ho as [Ho | Ho].
    + rewrite (lxor_4_clear off' Ho).
      rewrite lxor_4_set by (Z.div_mod_to_equations; lia). ring.
    + rewrite (lxor_4_set off' Ho).
      rewrite lxor_4_clear by (Z.div_mod_to_equations; lia). ring.
Qed.

Section Explicit.
Context `{TileDim}.
Variables (R : rt.t) (a : ST.t) (shared_addr : Z).
Hypothesis Hok : transfer_ok R a shared_addr.

Let sz := sizeof (ST.dtype a).
Let tsr := rt.tile_size_row R.
Let tsc := rt.tile_size_col R.

(** The two branches of the [if constexpr] on the extents give the same
    coordinates: a tile as large as its parent has offsets 0. *)
Lemma explicit_row_col (r0 c0 : Z) :
  (if (ST.rows a =? ST.underlying_rows a) && (ST.cols a =? ST.underlying_cols a)
   then (r0, c0)
   else (r0 + ST.row_offset a, c0 + ST.col_offset a))
  = (r0 + ST.row_offset a, c0 + ST.col_offset a).
Proof.
  destruct (ok_row_offset _ _ _ Hok) as [Hr0 Hr1].
  destruct (ok_col_offset _ _ _ Hok) as (Hc0 & _ & Hc1).
  rewrite (ST_underlying_rows_parent a), (ST_underlying_cols_parent a).
  destruct (Z.eqb_spec (ST.rows a) (st.rows (ST_parent a))) as [Er | _];
    [|reflexivity].
  destruct (Z.eqb_spec (ST.cols a) (st.cols (ST_parent a))) as [Ec | _];
    [|reflexivity].
  cbn [andb]. f_equal; lia.
Qed.

Lemma explicit_slot_addr (i j l k e b dr off : Z) :
  sz = 4 ->
  0 <= i < rt.height R -> 0 <= j < rt.width R -> slot_ok sz l k e ->
  (b = 0 \/ b = 4) -> dr = 8 * (k mod 2) ->
  off = Z.lxor (32 * (k / 2) + 4 * e) b ->
  let row := i * tsr + Z.quot l 4 + ST.row_offset a in
  let col := j * tsc + 2 * Z.rem l 4 + ST.col_offset a in
  let subtile_cols := ST.swizzle_bytes a / sz in
  let addr := uint32_wrap (shared_addr + sz *
    (Z.quot col subtile_cols * ST.underlying_rows a * subtile_cols
     + (row + dr) * subtile_cols + Z.rem col subtile_cols)) in
  Z.lxor (uint32_wrap (addr + off))
    (Z.lxor b (Z.shiftl (Z.shiftr (addr mod (ST.swizzle_bytes a * 8)) 7) 4))
  = ST.idx a shared_addr (frag_coord sz rt_layout.row tsr tsc i j l k e).
Proof.
  intros E Hi Hj Hslot Hb -> ->. cbv zeta.
  pose proof (ok_parent _ _ _ Hok) as Hs.
  destruct (supported_geometry _ Hs) as (_ & Hp & Esz & Hsc & HR & n & Hn & Ecols).
  pose proof (ok_tile_rows _ _ _ Hok) as Er.
  pose proof (ok_tile_cols _ _ _ Hok) as Ec.
  destruct (ok_aligned _ _ _ Hok) as [Hpos Hal].
  pose proof (ok_fits _ _ _ Hok) as Hfit.
  destruct (ok_col_offset _ _ _ Hok) as (Hc0 & Hc16 & Hc1).
  destruct (ok_row_offset _ _ _ Hok) as [Hr0 Hr1].
  rewrite (ST_swizzle_parent a) in *.
  rewrite (ST_underlying_rows_parent a) in *.
  assert (Esz' : sz = sizeof (st.T (ST_parent a))) by (unfold sz; rewrite ST_dtype_parent; reflexivity).
  rewrite <- Esz' in *.
  fold sz tsr tsc in Er, Ec, Hc16, Hfit.
  set (P := ST_parent a) in *.
  set (sb := st.swizzle_bytes P) in *.
  set (sc := sb / sz) in *.
  set (row := i * tsr + Z.quot l 4 + ST.row_offset a).
  set (col := j * tsc + 2 * Z.rem l 4 + ST.col_offset a).
  set (addr := uint32_wrap (shared_addr + sz *
    (Z.quot col sc * st.rows P * sc + (row + 8 * (k mod 2)) * sc + Z.rem col sc))).
  rewrite E in Ec. change (4 =? 1) with false in Ec. cbv iota in Ec.
  (* the slot's coordinates, and those of the pair it belongs to *)
  pose proof (frag_coord_in_tile R a shared_addr Hok rt_layout.row i j l k e Hi Hj Hslot
                ltac:(discriminate)) as Hin.
  assert (Hslot0 : slot_ok sz l (k mod 2) 0).
  { destruct Hslot as (Hl & Hk & He). repeat split; try lia;
      Z.div_mod_to_equations; lia. }
  pose proof (frag_coord_in_tile R a shared_addr Hok rt_layout.row i j l (k mod 2) 0 Hi Hj
                Hslot0 ltac:(discriminate)) as Hin0.
  apply (ok_in_parent R a shared_addr Hok) in Hin, Hin0.
  destruct Hslot as (Hl & Hk & He).
  fold sz tsr tsc in Hin, Hin0.
  unfold frag_coord, elems_per_reg in Hin, Hin0, He |- *.
  rewrite E in Hin, Hin0, He |- *. change (4 =? 1) with false in *. cbv iota in *.
  assert (Ek : (k mod 2) mod 2 = k mod 2 /\ k mod 2 / 2 = 0)
    by (clear - Hk; Z.div_mod_to_equations; lia).
  destruct Ek as [Ek1 Ek2]. rewrite Ek1, Ek2 in Hin0.
  rewrite Z.mul_0_r, !Z.add_0_r in Hin0.
  rewrite (ST_idx_parent a). fold P.
  rewrite idx_unfold. fold sb. rewrite <- Esz'. fold sc. rewrite E.
  (* the two coordinates in terms of [row] and [col] *)
  assert (Erow : i * tsr + l / 4 + 8 * (k mod 2) + ST.row_offset a
                 = row + 8 * (k mod 2)).
  { subst row. rewrite Z.quot_div_nonneg by lia. ring. }
  assert (Ecol0 : j * tsc + 4 * 2 * 0 + 2 * (l mod 4) + ST.col_offset a = col).
  { subst col. rewrite Z.rem_mod_nonneg by lia. ring. }
  assert (Ecol : j * tsc + 4 * 2 * (k / 2) + 2 * (l mod 4) + e + ST.col_offset a
                 = col + (8 * (k / 2) + e)).
  { subst col. rewrite Z.rem_mod_nonneg by lia. ring. }
  replace (j * tsc + 2 * (l mod 4) + ST.col_offset a) with col in Hin0
    by (rewrite <- Ecol0; ring).
  rewrite Erow in Hin, Hin0 |- *. rewrite Ecol in Hin |- *.
  cbn [x y].
  assert (Hcol : 0 <= col) by (destruct Hin0 as [_ Hc]; cbn [y] in Hc; lia).
  (* geometry of the 4-byte periods *)
  assert (Hsb : sb = 64 \/ sb = 128).
  { subst sb. unfold st.swizzle_bytes. fold P. rewrite <- Esz', E.
    change (4 =? 1) with false. change (4 =? 2) with false.
    change (4 =? 4) with true. cbv iota.
    destruct (Z.rem (st.underlying_width P) 2 =? 0); auto. }
  assert (Hm : 0 <= col mod sc /\ (col mod sc) mod 2 = 0
               /\ 4 * (col mod sc) + 36 < sb).
  { subst col. rewrite Z.rem_mod_nonneg by lia. rewrite Ec in *.
    rewrite E in Esz.
    destruct Hsb as [Esb | Esb]; rewrite Esb in Esz;
      [assert (sc = 16) as -> by lia | assert (sc = 32) as -> by lia];
      Z.div_mod_to_equations; lia. }
  destruct Hm as (Hm0 & Hm2 & Hm36).
  assert (Esc4 : sb = 4 * sc) by (rewrite E in Esz; lia).
  assert (Hkd : 0 <= k / 2 <= 1 /\ 0 <= k mod 2 <= 1)
    by (clear - Hk; Z.div_mod_to_equations; lia).
  assert (Hshift : 0 <= 8 * (k / 2) + e /\ col mod sc + (8 * (k / 2) + e) < sc).
  { revert Hm36 Esc4 Hkd He Hm0. generalize (col mod sc) (k / 2).
    clearbody sc sb. clear. intros. lia. }
  rewrite (element_offset_shift_within sc (st.rows P) _ col (8 * (k / 2) + e))
    by (try assumption; lia).
  (* [addr] does not wrap *)
  assert (Eaddr : addr = shared_addr + 4 * element_offset sc (st.rows P)
                                         (row + 8 * (k mod 2)) col).
  { subst addr. rewrite E. fold (element_offset sc (st.rows P) (row + 8 * (k mod 2)) col).
    pose proof (idx_no_wrap P shared_addr _ Hs Hpos ltac:(rewrite <- Esz', E; lia) Hin0)
      as (Hw & _).
    cbn [x y] in Hw. rewrite <- Esz' in Hw. fold sb sc in Hw. rewrite E in Hw.
    exact Hw. }
  set (eo := element_offset sc (st.rows P) (row + 8 * (k mod 2)) col) in *.
  assert (Heo : exists A, addr = A * sb + 4 * (col mod sc) /\ 0 <= A).
  { rewrite Eaddr. subst eo. rewrite element_offset_split by lia.
    apply Z.mod_divide in Hal; [|lia]. destruct Hal as [w Hw].
    rewrite E in Esz.
    exists (w + (col / sc * st.rows P + (row + 8 * (k mod 2)))). split.
    - rewrite Hw, <- Esz. ring.
    - assert (0 <= w) by nia.
      assert (0 <= col / sc) by (apply Z.div_pos; lia).
      destruct Hin0 as [Hr _]. cbn [x] in Hr. nia. }
  destruct Heo as (A & EA & HA).
  set (m := col mod sc) in *.
  set (off' := 32 * (k / 2) + 4 * e).
  assert (Hoff' : 0 <= off' <= 36 /\ (off' mod 8 = 0 \/ off' mod 8 = 4)).
  { subst off'. clear - Hk He. Z.div_mod_to_equations. lia. }
  assert (Hoff : 0 <= Z.lxor off' b <= 36).
  { destruct Hb as [-> | ->]; [rewrite Z.lxor_0_r; lia|].
    destruct Hoff' as [Hr36 [Ho | Ho]];
      [rewrite lxor_4_clear by exact Ho | rewrite lxor_4_set by exact Ho].
    - assert (Hne : off' <> 36) by (intros Eo; rewrite Eo in Ho; discriminate).
      clear - Hr36 Hne. lia.
    - clear - Hr36 Ho. Z.div_mod_to_equations. lia. }
  (* the end of the buffer is a multiple of the period *)
  assert (Hend : shared_addr + 4 * (st.rows P * st.cols P) <= 2 ^ 32)
    by (rewrite E in Hfit; exact Hfit).
  assert (Hlt : addr + 36 < 2 ^ 32 /\ 0 <= addr).
  { pose proof (idx_no_wrap P shared_addr _ Hs Hpos ltac:(rewrite <- Esz', E; lia) Hin)
      as (_ & Hlo & Hhi).
    cbn [x y] in Hlo, Hhi. rewrite <- Esz' in Hlo, Hhi. fold sb sc in Hlo, Hhi.
    rewrite E in Hlo, Hhi.
    rewrite (element_offset_shift_within sc (st.rows P) _ col (8 * (k / 2) + e))
      in Hlo, Hhi by (try assumption; lia).
    fold eo in Hlo, Hhi.
    assert (Hmul : exists w', shared_addr + 4 * (st.rows P * st.cols P) = w' * sb).
    { apply Z.mod_divide in Hal; [|lia]. destruct Hal as [w Hw].
      rewrite E in Esz. exists (w + st.rows P * n).
      rewrite Hw, Ecols, <- Esz. ring. }
    destruct Hmul as [w' Hw']. rewrite Hw' in Hend.
    assert (addr + 36 < w' * sb).
    { rewrite Hw' in Hhi. rewrite Eaddr in EA |- *.
      assert (A < w') by nia. nia. }
    split; [lia|]. rewrite Eaddr. subst eo.
    pose proof (element_offset_range sc (st.rows P) Hsc HR n
                  (row + 8 * (k mod 2)) col) as B.
    destruct Hin0 as [Hr Hc]. cbn [x y] in Hr, Hc.
    specialize (B Hr ltac:(rewrite <- Ecols; exact Hc)). lia. }
  unfold uint32_wrap at 1. rewrite Z.mod_small by lia.
  unfold uint32_wrap. rewrite (Z.mod_small (shared_addr + _) (2 ^ 32)).
  2:{ rewrite Z.mul_add_distr_l, Z.add_assoc, <- Eaddr.
      subst off'. Z.div_mod_to_equations. lia. }
  rewrite Z.mul_add_distr_l, Z.add_assoc, <- Eaddr.
  replace (4 * (8 * (k / 2) + e)) with off' by (subst off'; ring).
  rewrite <- Z.lxor_assoc.
  rewrite (lxor_blit addr off' b); try tauto; try lia.
  2:{ rewrite EA. destruct Hsb as [-> | ->]; Z.div_mod_to_equations; lia. }
  unfold xor_swizzle. f_equal.
  rewrite !swizzle_term_eq by assumption. f_equal. f_equal.
  rewrite EA. destruct Hsb as [Esb | Esb]; rewrite Esb in *;
    Z.div_mod_to_equations; lia.
Qed.

End Explicit.

(** ** The memory operations of [store] and [atomic_add], slot by slot *)

Lemma In_range (n x : Z) : In x (range n) <-> 0 <= x < n.
Proof.
  unfold range. rewrite in_map_iff. split.
  - intros (k & <- & Hk). apply in_seq in Hk. lia.
  - intros Hx. exists (Z.to_nat x). split; [lia|]. apply in_seq. lia.
Qed.

Lemma In_lanes (l : Z) : In l lanes <-> 0 <= l < 32.
Proof. apply In_range. Qed.

Lemma flat_map_ext_in {A B : Type} (f g : A -> list B) (l : list A) :
  (forall a, In a l -> f a = g a) -> flat_map f l = flat_map g l.
Proof.
  induction l as [|a l IH]; intros Hfg; [reflexivity|].
  cbn [flat_map]. rewrite (Hfg a (or_introl eq_refl)). f_equal.
  apply IH. intros b Hb. apply Hfg. right. exact Hb.
Qed.

(** The 4-byte row-layout case, by lane parity. *)
Lemma blit_cases (l : Z) :
  0 <= l < 32 ->
  Z.quot (Z.rem l 4) 2 = (l mod 4) / 2 /\
  ((l mod 4) / 2 = 0 \/ (l mod 4) / 2 = 1).
Proof.
  intros Hl. rewrite Z.rem_mod_nonneg, Z.quot_div_nonneg by
    (try lia; Z.div_mod_to_equations; lia).
  split; [reflexivity|]. Z.div_mod_to_equations. lia.
Qed.

Section StoreCases.
Context `{TileDim}.
Context {U T : Type}.
Variable convert_out : T -> U.
Variables (R : rt.t) (a : ST.t) (shared_addr : Z).
Hypothesis Hok : transfer_ok R a shared_addr.
Variable src : fragment T.

Let sz := sizeof (ST.dtype a).
Let tsr := rt.tile_size_row R.
Let tsc := rt.tile_size_col R.

Lemma slot_ok_lit (l k e : Z) :
  0 <= l < 32 -> 0 <= k < 4 -> 0 <= e < elems_per_reg sz -> slot_ok sz l k e.
Proof. intros; unfold slot_ok; auto. Qed.

(** Two lists of stores are equal when their addresses are; the values are
    the same up to unfolding. *)
Ltac stores_eq addr_tac :=
  repeat (apply (f_equal2 cons);
          [ first [ apply (f_equal2 Store) | apply (f_equal2 AtomicAdd) ];
            [ addr_tac | reflexivity ] | ]);
  reflexivity.

Ltac by_slot A :=
  idtac;
  match goal with
  | |- _ = ST.idx _ _ (frag_coord _ _ _ _ _ _ _ ?k ?e) =>
      exact (A k e ltac:(lia) ltac:(lia))
  end.

Ltac enter_case E Hlay :=
  unfold transfer.store_tile, transfer.atomic_add_tile, store_order, atomic_order,
    store_order;
  fold sz; rewrite Hlay; rewrite E;
  repeat first [ change (1 =? 1) with true | change (1 =? 2) with false
               | change (2 =? 1) with false | change (2 =? 2) with true
               | change (4 =? 1) with false | change (4 =? 2) with false
               | change (4 =? 4) with true ];
  cbn [rt_layout.is_row andb negb]; cbv iota.

Lemma store_tile_grouped_row (i j : Z) :
  sz = 2 -> rt.layout R = rt_layout.row ->
  0 <= i < rt.height R -> 0 <= j < rt.width R ->
  transfer.store_tile convert_out true R a shared_addr src i j
  = flat_map (fun l => map (slot_store convert_out R a shared_addr src i j l)
                           (store_order true sz (rt.layout R) l)) lanes.
Proof.
  intros E Hlay Hi Hj. enter_case E Hlay.
  unfold move.stsm4. apply flat_map_ext_in. intros l Hl. apply In_lanes in Hl.
  change (4 / 2) with 2. change (range 2) with [0; 1].
  cbn [map app slots_of flat_map].
  pose proof (fun k e Hk He =>
    grouped_slot_addr R a shared_addr Hok 8 i j l k e
      ltac:(fold sz; lia) ltac:(fold sz; rewrite E; reflexivity) Hi Hj
      (slot_ok_lit l k e Hl Hk He)) as A.
  fold sz in A. rewrite E in A. change (elems_per_reg 2) with 2 in A.
  unfold slot_store. cbv beta iota delta [fst snd]. rewrite Hlay. fold sz. rewrite E.
  rewrite !A by lia. reflexivity.
Qed.

Lemma store_tile_grouped_fp8 (hopper : bool) (i j : Z) :
  sz = 1 -> rt.layout R = rt_layout.row ->
  0 <= i < rt.height R -> 0 <= j < rt.width R ->
  transfer.store_tile convert_out hopper R a shared_addr src i j
  = flat_map (fun l => map (slot_store convert_out R a shared_addr src i j l)
                           (store_order hopper sz (rt.layout R) l)) lanes.
Proof.
  intros E Hlay Hi Hj. enter_case E Hlay.
  unfold move.stsm4. apply flat_map_ext_in. intros l Hl. apply In_lanes in Hl.
  change (4 / 1) with 4. change (range 4) with [0; 1; 2; 3].
  cbn [map app slots_of flat_map].
  pose proof (fun k e Hk He =>
    grouped_slot_addr R a shared_addr Hok 16 i j l k e
      ltac:(fold sz; lia) ltac:(fold sz; rewrite E; reflexivity) Hi Hj
      (slot_ok_lit l k e Hl Hk He)) as A.
  fold sz in A. rewrite E in A. change (elems_per_reg 1) with 4 in A.
  unfold slot_store. cbv beta iota delta [fst snd]. rewrite Hlay. fold sz. rewrite E.
  rewrite !A by lia. reflexivity.
Qed.

Lemma store_tile_grouped_col (i j : Z) :
  sz = 2 -> rt.layout R = rt_layout.col ->
  0 <= i < rt.height R -> 0 <= j < rt.width R ->
  transfer.store_tile convert_out true R a shared_addr src i j
  = flat_map (fun l => map (slot_store convert_out R a shared_addr src i j l)
                           (store_order true sz (rt.layout R) l)) lanes.
Proof.
  intros E Hlay Hi Hj. enter_case E Hlay.
  unfold move.stsm4t. apply flat_map_ext_in. intros l Hl. apply In_lanes in Hl.
  change (4 / 2) with 2. change (range 2) with [0; 1]. change (2 / 2) with 1.
  cbn [map app slots_of flat_map].
  pose proof (fun k e Hk He =>
    grouped_t_slot_addr R a shared_addr Hok i j l k e E Hi Hj
      (slot_ok_lit l k e Hl Hk He)) as A.
  cbv zeta in A. fold sz in A. rewrite E in A.
  change (elems_per_reg 2) with 2 in A. change (2 / 2) with 1 in A.
  unfold slot_store. cbv beta iota delta [fst snd]. rewrite Hlay. fold sz. rewrite E.
  stores_eq ltac:(by_slot A).
Qed.


(** Addresses of the packed-pair cases: component 0 at [idx], component 1
    two bytes further. *)
Lemma pair_slot_addrs (i j l : Z) :
  sz = 2 -> 0 <= i < rt.height R -> 0 <= j < rt.width R -> 0 <= l < 32 ->
  forall k dr dc, 0 <= k < 4 -> dr = 8 * (k mod 2) -> dc = 8 * (k / 2) ->
  ST.idx a shared_addr
    (mk_int2 (i * tsr + Z.quot l 4 + dr) (j * tsc + 2 * Z.rem l 4 + dc))
  = ST.idx a shared_addr (frag_coord 2 rt_layout.row tsr tsc i j l k 0) /\
  ST.idx a shared_addr
    (mk_int2 (i * tsr + Z.quot l 4 + dr) (j * tsc + 2 * Z.rem l 4 + dc)) + 2
  = ST.idx a shared_addr (frag_coord 2 rt_layout.row tsr tsc i j l k 1).
Proof.
  intros E Hi Hj Hl k dr dc Hk Hdr Hdc.
  assert (He : forall e, 0 <= e < 2 -> 0 <= e < elems_per_reg sz).
  { intros e He. rewrite E. exact He. }
  pose proof (fun e He' => pair_slot_addr R a shared_addr Hok i j l k e dr dc
                E Hdr Hdc Hi Hj (slot_ok_lit l k e Hl Hk (He e He'))) as A.
  fold sz tsr tsc in A. rewrite E in A.
  split.
  - rewrite <- (A 0) by lia. ring.
  - rewrite <- (A 1) by lia. ring.
Qed.

Ltac by_pair A :=
  idtac;
  match goal with
  | |- ST.idx _ _ {| x := _ + ?dr; y := _ + ?dc |} + 2
       = ST.idx _ _ (frag_coord _ _ _ _ _ _ _ ?k _) =>
      exact (proj2 (A k dr dc ltac:(lia) eq_refl eq_refl))
  | |- ST.idx _ _ {| x := _ + ?dr; y := _ + ?dc |}
       = ST.idx _ _ (frag_coord _ _ _ _ _ _ _ ?k _) =>
      exact (proj1 (A k dr dc ltac:(lia) eq_refl eq_refl))
  end.

Lemma store_tile_pairs (i j : Z) :
  sz = 2 -> rt.layout R = rt_layout.row ->
  0 <= i < rt.height R -> 0 <= j < rt.width R ->
  transfer.store_tile convert_out false R a shared_addr src i j
  = flat_map (fun l => map (slot_store convert_out R a shared_addr src i j l)
                           (store_order false sz (rt.layout R) l)) lanes.
Proof.
  intros E Hlay Hi Hj. enter_case E Hlay.
  unfold transfer.warp, move.sts2. apply flat_map_ext_in.
  intros l Hl. apply In_lanes in Hl.
  cbn [map app slots_of flat_map].
  pose proof (pair_slot_addrs i j l E Hi Hj Hl) as A. unfold tsr, tsc in A.
  unfold slot_store. cbv beta iota delta [fst snd]. rewrite Hlay. fold sz. rewrite E.
  stores_eq ltac:(by_pair A).
Qed.

Lemma atomic_add_tile_pairs (i j : Z) :
  sz = 2 -> rt.layout R = rt_layout.row ->
  0 <= i < rt.height R -> 0 <= j < rt.width R ->
  transfer.atomic_add_tile convert_out R a shared_addr src i j
  = flat_map (fun l => map (fun ke => as_atomic
                              (slot_store convert_out R a shared_addr src i j l ke))
                           (atomic_order sz (rt.layout R) l)) lanes.
Proof.
  intros E Hlay Hi Hj. enter_case E Hlay.
  unfold transfer.warp, atomic.adds2. apply flat_map_ext_in.
  intros l Hl. apply In_lanes in Hl.
  cbn [map app slots_of flat_map].
  pose proof (pair_slot_addrs i j l E Hi Hj Hl) as A. unfold tsr, tsc in A.
  unfold slot_store, as_atomic. cbv beta iota delta [fst snd].
  rewrite Hlay. fold sz. rewrite E.
  stores_eq ltac:(by_pair A).
Qed.

(** Addresses of the column-layout cases that call [idx] per element. *)
Ltac by_coord Hl :=
  idtac;
  apply f_equal; unfold frag_coord;
  rewrite Z.rem_mod_nonneg, Z.quot_div_nonneg by lia;
  apply (f_equal2 mk_int2); clear - Hl; Z.div_mod_to_equations; lia.

Lemma store_tile_elements (hopper : bool) (i j : Z) :
  (sz = 2 /\ hopper = false) \/ sz = 4 -> rt.layout R = rt_layout.col ->
  0 <= i < rt.height R -> 0 <= j < rt.width R ->
  transfer.store_tile convert_out hopper R a shared_addr src i j
  = flat_map (fun l => map (slot_store convert_out R a shared_addr src i j l)
                           (store_order hopper sz (rt.layout R) l)) lanes.
Proof.
  intros [[E ->] | E] Hlay Hi Hj; enter_case E Hlay;
    unfold transfer.warp, move.sts; apply flat_map_ext_in;
    intros l Hl; apply In_lanes in Hl;
    cbn [map app slots_of flat_map];
    unfold slot_store; cbv beta iota delta [fst snd];
    rewrite Hlay; fold sz; rewrite E;
    stores_eq ltac:(by_coord Hl).
Qed.

Lemma atomic_add_tile_elements (i j : Z) :
  sz = 2 \/ sz = 4 -> rt.layout R = rt_layout.col ->
  0 <= i < rt.height R -> 0 <= j < rt.width R ->
  transfer.atomic_add_tile convert_out R a shared_addr src i j
  = flat_map (fun l => map (fun ke => as_atomic
                              (slot_store convert_out R a shared_addr src i j l ke))
                           (atomic_order sz (rt.layout R) l)) lanes.
Proof.
  intros [E | E] Hlay Hi Hj; enter_case E Hlay;
    unfold transfer.warp, atomic.adds; apply flat_map_ext_in;
    intros l Hl; apply In_lanes in Hl;
    cbn [map app slots_of flat_map];
    unfold slot_store, as_atomic; cbv beta iota delta [fst snd];
    rewrite Hlay; fold sz; rewrite E;
    stores_eq ltac:(by_coord Hl).
Qed.

Ltac by_explicit A :=
  idtac;
  match goal with
  | |- Z.lxor (uint32_wrap (uint32_wrap (_ + _ * (_ + (_ + ?dr) * _ + _)) + ?off))
         (Z.lxor ?b _)
       = ST.idx _ _ (frag_coord _ _ _ _ _ _ _ ?k ?e) =>
      exact (A k e b dr off ltac:(lia) ltac:(lia) ltac:(lia) eq_refl eq_refl)
  end.

Ltac enter_explicit E Hlay i j Hi Hj l Hl A :=
  enter_case E Hlay;
  unfold transfer.warp, move.sts, atomic.adds; apply flat_map_ext_in;
  intros l Hl; apply In_lanes in Hl;
  rewrite (explicit_row_col R a shared_addr Hok);
  cbv beta iota zeta;
  pose proof (fun k e b dr off Hk He Hb =>
    explicit_slot_addr R a shared_addr Hok i j l k e b dr off E Hi Hj
      (slot_ok_lit l k e Hl Hk He) Hb) as A;
  cbv zeta in A; fold sz in A; rewrite E in A;
  change (elems_per_reg 4) with 2 in A;
  unfold slot_store, as_atomic; cbv beta iota delta [fst snd];
  rewrite Hlay; fold sz; rewrite E;
  destruct (blit_cases l Hl) as [-> [Eb | Eb]]; rewrite Eb;
  [ change (4 * 0) with 0; change (0 =? 0) with true
  | change (4 * 1) with 4; change (4 =? 0) with false;
    change (1 =? 0) with false ];
  cbn [negb]; cbv iota;
  cbn [map app slots_of flat_map]; cbv beta iota delta [fst snd].

Lemma store_tile_explicit (hopper : bool) (i j : Z) :
  sz = 4 -> rt.layout R = rt_layout.row ->
  0 <= i < rt.height R -> 0 <= j < rt.width R ->
  transfer.store_tile convert_out hopper R a shared_addr src i j
  = flat_map (fun l => map (slot_store convert_out R a shared_addr src i j l)
                           (store_order hopper sz (rt.layout R) l)) lanes.
Proof.
  intros E Hlay Hi Hj. enter_explicit E Hlay i j Hi Hj l Hl A.
  - stores_eq ltac:(by_explicit A).
  - stores_eq ltac:(by_explicit A).
Qed.

Lemma atomic_add_tile_explicit (i j : Z) :
  sz = 4 -> rt.layout R = rt_layout.row ->
  0 <= i < rt.height R -> 0 <= j < rt.width R ->
  transfer.atomic_add_tile convert_out R a shared_addr src i j
  = flat_map (fun l => map (fun ke => as_atomic
                              (slot_store convert_out R a shared_addr src i j l ke))
                           (atomic_order sz (rt.layout R) l)) lanes.
Proof.
  intros E Hlay Hi Hj. enter_explicit E Hlay i j Hi Hj l Hl A.
  - stores_eq ltac:(by_explicit A).
  - stores_eq ltac:(by_explicit A).
Qed.

End StoreCases.

(** ** What [load] puts in each fragment element *)

Section LoadCases.
Context `{TileDim}.
Context {U T : Type}.
Variable convert_in : U -> T.
Variables (R : rt.t) (a : ST.t) (shared_addr : Z).
Hypothesis Hok : transfer_ok R a shared_addr.
Variables (m : Z -> U) (dst : fragment T).

Let sz := sizeof (ST.dtype a).
Let tsr := rt.tile_size_row R.
Let tsc := rt.tile_size_col R.

Ltac by_slot A :=
  idtac;
  match goal with
  | |- _ = ST.idx _ _ (frag_coord _ _ _ _ _ _ _ ?k ?e) =>
      exact (A k e ltac:(lia) ltac:(lia))
  end.

Ltac by_coord Hl :=
  idtac;
  apply f_equal; unfold frag_coord;
  rewrite Z.rem_mod_nonneg, Z.quot_div_nonneg by lia;
  apply (f_equal2 mk_int2); clear - Hl; Z.div_mod_to_equations; lia.

Ltac by_explicit A :=
  idtac;
  match goal with
  | |- Z.lxor (uint32_wrap (uint32_wrap (_ + _ * (_ + (_ + ?dr) * _ + _)) + ?off))
         (Z.lxor ?b _)
       = ST.idx _ _ (frag_coord _ _ _ _ _ _ _ ?k ?e) =>
      exact (A k e b dr off ltac:(lia) ltac:(lia) ltac:(lia) eq_refl eq_refl)
  end.

Ltac split_lit k Hk :=
  let C := fresh "C" in
  assert (C : k = 0 \/ k = 1 \/ k = 2 \/ k = 3) by lia;
  clear Hk; destruct C as [-> | [-> | [-> | ->]]].

Ltac split_bit e He :=
  let C := fresh "C" in
  assert (C : e = 0 \/ e = 1) by lia;
  clear He; destruct C as [-> | ->].

Ltac lit_round :=
  change (0 =? 0) with true;
  change (0 =? 1) with false;
  change (0 =? 2) with false;
  change (0 =? 3) with false;
  change (0 =? 4) with false;
  change (1 =? 0) with false;
  change (1 =? 1) with true;
  change (1 =? 2) with false;
  change (1 =? 3) with false;
  change (1 =? 4) with false;
  change (2 =? 0) with false;
  change (2 =? 1) with false;
  change (2 =? 2) with true;
  change (2 =? 3) with false;
  change (2 =? 4) with false;
  change (3 =? 0) with false;
  change (3 =? 1) with false;
  change (3 =? 2) with false;
  change (3 =? 3) with true;
  change (3 =? 4) with false;
  change (4 =? 0) with false;
  change (4 =? 1) with false;
  change (4 =? 2) with false;
  change (4 =? 3) with false;
  change (4 =? 4) with true;
  cbn [rt_layout.is_row andb negb]; cbv beta iota.

Ltac lit_tests := lit_round; lit_round; lit_round.

Ltac enter_load E Hlay :=
  unfold transfer.load_tile;
  fold sz; rewrite Hlay; rewrite E; lit_tests.

Lemma load_tile_grouped_row (i j l k e : Z) :
  sz = 2 -> rt.layout R = rt_layout.row ->
  0 <= i < rt.height R -> 0 <= j < rt.width R -> slot_ok sz l k e ->
  transfer.load_tile convert_in R a m shared_addr dst i j l k e
  = convert_in (m (ST.idx a shared_addr
                     (frag_coord sz (rt.layout R) tsr tsc i j l k e))).
Proof.
  intros E Hlay Hi Hj Hslot.
  pose proof (fun k e Hk He =>
    grouped_slot_addr R a shared_addr Hok 8 i j l k e
      ltac:(fold sz; lia) ltac:(fold sz; rewrite E; reflexivity) Hi Hj
      (slot_ok_lit a l k e (proj1 Hslot) Hk He)) as A.
  destruct Hslot as (Hl & Hk & He).
  fold sz in A. rewrite E in A, He. change (elems_per_reg 2) with 2 in *.
  enter_load E Hlay. unfold move.ldsm4, transfer.convert_T2, mk_rt_base.
  split_lit k Hk; split_bit e He; lit_tests;
    apply f_equal; apply f_equal; by_slot A.
Qed.

Lemma load_tile_grouped_fp8 (i j l k e : Z) :
  sz = 1 -> rt.layout R = rt_layout.row ->
  0 <= i < rt.height R -> 0 <= j < rt.width R -> slot_ok sz l k e ->
  transfer.load_tile convert_in R a m shared_addr dst i j l k e
  = convert_in (m (ST.idx a shared_addr
                     (frag_coord sz (rt.layout R) tsr tsc i j l k e))).
Proof.
  intros E Hlay Hi Hj Hslot.
  pose proof (fun k e Hk He =>
    grouped_slot_addr R a shared_addr Hok 16 i j l k e
      ltac:(fold sz; lia) ltac:(fold sz; rewrite E; reflexivity) Hi Hj
      (slot_ok_lit a l k e (proj1 Hslot) Hk He)) as A.
  destruct Hslot as (Hl & Hk & He).
  fold sz in A. rewrite E in A, He. change (elems_per_reg 1) with 4 in *.
  enter_load E Hlay. unfold move.ldsm4, transfer.convert_T2, mk_rt_base.
  split_lit k Hk; split_lit e He; lit_tests;
    apply f_equal; apply f_equal; by_slot A.
Qed.

Lemma load_tile_grouped_col (i j l k e : Z) :
  sz = 2 -> rt.layout R = rt_layout.col ->
  0 <= i < rt.height R -> 0 <= j < rt.width R -> slot_ok sz l k e ->
  transfer.load_tile convert_in R a m shared_addr dst i j l k e
  = convert_in (m (ST.idx a shared_addr
                     (frag_coord sz (rt.layout R) tsr tsc i j l k e))).
Proof.
  intros E Hlay Hi Hj Hslot.
  pose proof (fun k e Hk He =>
    grouped_t_slot_addr R a shared_addr Hok i j l k e E Hi Hj
      (slot_ok_lit a l k e (proj1 Hslot) Hk He)) as A.
  destruct Hslot as (Hl & Hk & He).
  cbv zeta in A. fold sz in A. rewrite E in A, He.
  change (elems_per_reg 2) with 2 in *. change (2 / 2) with 1 in A.
  enter_load E Hlay. unfold move.ldsm4t, transfer.convert_T2, mk_rt_base.
  change (2 / 2) with 1.
  split_lit k Hk; split_bit e He; lit_tests;
    apply f_equal; apply f_equal; by_slot A.
Qed.

Lemma load_tile_elements (i j l k e : Z) :
  sz = 4 -> rt.layout R = rt_layout.col ->
  0 <= i < rt.height R -> 0 <= j < rt.width R -> slot_ok sz l k e ->
  transfer.load_tile convert_in R a m shared_addr dst i j l k e
  = convert_in (m (ST.idx a shared_addr
                     (frag_coord sz (rt.layout R) tsr tsc i j l k e))).
Proof.
  intros E Hlay Hi Hj (Hl & Hk & He).
  rewrite E in He. change (elems_per_reg 4) with 2 in *.
  enter_load E Hlay. unfold move.lds, transfer.convert_T2, mk_rt_base, pack2.
  split_lit k Hk; split_bit e He; lit_tests;
    apply f_equal; apply f_equal; by_coord Hl.
Qed.

Lemma load_tile_explicit (i j l k e : Z) :
  sz = 4 -> rt.layout R = rt_layout.row ->
  0 <= i < rt.height R -> 0 <= j < rt.width R -> slot_ok sz l k e ->
  transfer.load_tile convert_in R a m shared_addr dst i j l k e
  = convert_in (m (ST.idx a shared_addr
                     (frag_coord sz (rt.layout R) tsr tsc i j l k e))).
Proof.
  intros E Hlay Hi Hj Hslot.
  pose proof (fun k e b dr off Hk He Hb =>
    explicit_slot_addr R a shared_addr Hok i j l k e b dr off E Hi Hj
      (slot_ok_lit a l k e (proj1 Hslot) Hk He) Hb) as A.
  destruct Hslot as (Hl & Hk & He).
  cbv zeta in A. fold sz in A. rewrite E in A, He.
  change (elems_per_reg 4) with 2 in *.
  enter_load E Hlay.
  rewrite (explicit_row_col R a shared_addr Hok). cbv beta iota zeta.
  unfold move.lds, transfer.convert_T2, mk_rt_base, pack2.
  destruct (blit_cases l Hl) as [-> [Eb | Eb]]; rewrite Eb;
    [ change (4 * 0) with 0 | change (4 * 1) with 4 ];
    split_lit k Hk; split_bit e He; lit_tests;
    apply f_equal; apply f_equal; by_explicit A.
Qed.

(** [load] puts in every fragment element the converted element of the
    tile at the element's coordinate, in every case it has. *)
Lemma load_tile_slot (i j l k e : Z) :
  ~ (sz = 1 /\ rt.layout R = rt_layout.col) ->
  0 <= i < rt.height R -> 0 <= j < rt.width R -> slot_ok sz l k e ->
  transfer.load_tile convert_in R a m shared_addr dst i j l k e
  = convert_in (m (ST.idx a shared_addr
                     (frag_coord sz (rt.layout R) tsr tsc i j l k e))).
Proof.
  intros Hcase Hi Hj Hslot.
  pose proof (ok_sz R a shared_addr Hok) as Hsz. fold sz in Hsz.
  destruct (rt.layout R) eqn:Hlay; destruct Hsz as [E | [E | E]].
  - rewrite <- Hlay. apply load_tile_grouped_fp8; assumption.
  - rewrite <- Hlay. apply load_tile_grouped_row; assumption.
  - rewrite <- Hlay. apply load_tile_explicit; assumption.
  - exfalso. apply Hcase. split; [assumption | reflexivity].
  - rewrite <- Hlay. apply load_tile_grouped_col; assumption.
  - rewrite <- Hlay. apply load_tile_elements; assumption.
Qed.

End LoadCases.

(** ** Load then store *)

(** Running stores that all write [X a] at [a]. *)
Lemma run_stores {U : Type} (add : U -> U -> U) (X : Z -> U)
    (ops : list (mem_op U)) (m : Z -> U) :
  Forall (fun op => exists a, op = Store a (X a)) ops ->
  forall b, (exists op, In op ops /\ op_addr op = b) -> run add ops m b = X b.
Proof.
  induction ops as [|op ops IH] using rev_ind; intros Hall b (op' & Hin & Hb).
  - contradiction.
  - apply Forall_app in Hall. destruct Hall as [Hall Hop].
    apply Forall_inv in Hop. destruct Hop as [a ->].
    unfold run in *. rewrite fold_left_app. cbn [fold_left exec].
    destruct (Z.eqb_spec b a) as [-> | Hne]; [reflexivity|].
    apply IH; [assumption|].
    apply in_app_or in Hin. destruct Hin as [Hin | [<- | []]].
    + exists op'. split; assumption.
    + cbn [op_addr] in Hb. congruence.
Qed.

Lemma In_slots_of (ks es : list Z) (k e : Z) :
  In (k, e) (slots_of ks es) <-> In k ks /\ In e es.
Proof.
  unfold slots_of. rewrite in_flat_map. split.
  - intros (k' & Hk & Hin). apply in_map_iff in Hin.
    destruct Hin as (e' & Heq & He). injection Heq as -> ->. auto.
  - intros [Hk He]. exists k. split; [assumption|].
    apply in_map. assumption.
Qed.

Lemma store_order_slots (hopper : bool) (sz : Z) (layout : rt_layout.t)
    (l k e : Z) :
  sz = 1 \/ sz = 2 \/ sz = 4 ->
  (In (k, e) (store_order hopper sz layout l) <-> 0 <= k < 4 /\ 0 <= e < elems_per_reg sz).
Proof.
  intros Hsz. unfold store_order, elems_per_reg.
  destruct Hsz as [-> | [-> | ->]]; cbn [Z.eqb Pos.eqb];
    repeat match goal with
    | |- context [if ?b then _ else _] => destruct b
    end;
    rewrite In_slots_of; cbn [In]; lia.
Qed.

Lemma store_order_atomic (hopper : bool) (sz : Z) (layout : rt_layout.t) (l : Z) :
  Permutation (store_order hopper sz layout l) (atomic_order sz layout l).
Proof.
  unfold atomic_order, store_order.
  destruct (sz =? 1); [reflexivity|].
  destruct (sz =? 2); [|reflexivity].
  destruct hopper; [|reflexivity]. cbn [andb].
  destruct (rt_layout.is_row layout); cbn [negb]; [reflexivity|].
  cbn [slots_of flat_map map app].
  do 2 apply perm_skip.
  change (Permutation ([(2, 0); (2, 1)] ++ [(1, 0); (1, 1)] ++ [(3, 0); (3, 1)])
                      ([(1, 0); (1, 1)] ++ [(2, 0); (2, 1)] ++ [(3, 0); (3, 1)])).
  rewrite !app_assoc. apply Permutation_app_tail. apply Permutation_app_comm.
Qed.

Section RoundTrip.
Context `{TileDim}.
Context {U T : Type}.
Variable convert_in : U -> T.
Variable convert_out : T -> U.
Variable hopper : bool.
Variables (R : rt.t) (a : ST.t) (shared_addr : Z).
Hypothesis Hok : transfer_ok R a shared_addr.

Let sz := sizeof (ST.dtype a).
Let tsr := rt.tile_size_row R.
Let tsc := rt.tile_size_col R.

(** Every case of [store] sends each lane's fragment elements to their
    tile coordinates, in the order of the case. *)
Lemma store_tile_slots (src : fragment T) (i j : Z) :
  ~ (sz = 1 /\ rt.layout R = rt_layout.col) ->
  0 <= i < rt.height R -> 0 <= j < rt.width R ->
  transfer.store_tile convert_out hopper R a shared_addr src i j
  = flat_map (fun l => map (slot_store convert_out R a shared_addr src i j l)
                           (store_order hopper sz (rt.layout R) l)) lanes.
Proof.
  intros Hcase Hi Hj.
  pose proof (ok_sz R a shared_addr Hok) as Hsz. fold sz in Hsz.
  destruct (rt.layout R) eqn:Hlay; destruct Hsz as [E | [E | E]];
    rewrite <- ?Hlay.
  - apply store_tile_grouped_fp8; assumption.
  - destruct hopper.
    + apply store_tile_grouped_row; assumption.
    + apply store_tile_pairs; assumption.
  - apply store_tile_explicit; assumption.
  - exfalso. apply Hcase. split; [assumption | reflexivity].
  - destruct hopper.
    + apply store_tile_grouped_col; assumption.
    + apply store_tile_elements; auto.
  - apply store_tile_elements; auto.
Qed.

(** So does every case of [atomic_add], with atomic adds. *)
Lemma atomic_add_tile_slots (src : fragment T) (i j : Z) :
  sz <> 1 ->
  0 <= i < rt.height R -> 0 <= j < rt.width R ->
  transfer.atomic_add_tile convert_out R a shared_addr src i j
  = flat_map (fun l => map (fun ke => as_atomic
                              (slot_store convert_out R a shared_addr src i j l ke))
                           (atomic_order sz (rt.layout R) l)) lanes.
Proof.
  intros Hcase Hi Hj.
  pose proof (ok_sz R a shared_addr Hok) as Hsz. fold sz in Hsz.
  destruct (rt.layout R) eqn:Hlay; destruct Hsz as [E | [E | E]];
    rewrite <- ?Hlay; try contradiction.
  - apply atomic_add_tile_pairs; assumption.
  - apply atomic_add_tile_explicit; assumption.
  - apply atomic_add_tile_elements; auto.
  - apply atomic_add_tile_elements; auto.
Qed.

(** The fragment layout reaches every coordinate of the tile. *)
Lemma frag_coord_onto (coord : int2) :
  ~ (sz = 1 /\ rt.layout R = rt_layout.col) ->
  in_tile (ST.rows a) (ST.cols a) coord ->
  exists i j l k e,
    0 <= i < rt.height R /\ 0 <= j < rt.width R /\ slot_ok sz l k e /\
    frag_coord sz (rt.layout R) tsr tsc i j l k e = coord.
Proof.
  intros Hcase [Hr Hc].
  rewrite (ok_rows _ _ _ Hok) in Hr. rewrite (ok_cols _ _ _ Hok) in Hc.
  pose proof (ok_tile_rows _ _ _ Hok) as Er.
  pose proof (ok_tile_cols _ _ _ Hok) as Ec.
  pose proof (ok_sz R a shared_addr Hok) as Hsz.
  fold sz tsr tsc in Er, Ec, Hsz, Hr, Hc.
  destruct coord as [r c]. cbn [x y] in Hr, Hc.
  set (r' := r mod 16). set (c' := c mod tsc).
  unfold slot_ok, frag_coord, elems_per_reg.
  destruct (rt.layout R) eqn:Hlay.
  - set (n := if sz =? 1 then 4 else 2).
    exists (r / 16), (c / tsc), (4 * (r' mod 8) + (c' mod (4 * n)) / n),
           (r' / 8 + 2 * (c' / (4 * n))), (c' mod n).
    subst r' c' n.
    destruct Hsz as [E | [E | E]]; rewrite E in *;
      [ change (1 =? 1) with true in * | change (2 =? 1) with false in *
      | change (4 =? 1) with false in * ]; cbv iota in *;
      rewrite Er, Ec in *;
      (repeat split; [ .. | apply (f_equal2 mk_int2) ]);
      Z.div_mod_to_equations; lia.
  - assert (E1 : sz <> 1) by (intros E; apply Hcase; auto).
    exists (r / 16), (c / tsc), (4 * (c' mod 8) + (r' mod 8) / 2),
           (2 * (r' / 8) + c' / 8), (r' mod 2).
    subst r' c'.
    destruct Hsz as [E | [E | E]]; [contradiction | |]; rewrite E in *;
      [ change (2 =? 1) with false in * | change (4 =? 1) with false in * ];
      cbv iota in *; rewrite Er, Ec in *;
      (repeat split; [ .. | apply (f_equal2 mk_int2) ]);
      Z.div_mod_to_equations; lia.
Qed.

Lemma static_asserts_ok : transfer.static_asserts R a = None.
Proof.
  unfold transfer.static_asserts.
  destruct (ok_asserts _ _ _ Hok) as [-> ->].
  rewrite !Z.eqb_refl. reflexivity.
Qed.

Lemma in_loop_test (i j : Z) :
  0 <= i < rt.height R -> 0 <= j < rt.width R ->
  (0 <=? i) && (i <? rt.height R) && (0 <=? j) && (j <? rt.width R) = true.
Proof.
  intros Hi Hj. rewrite !andb_true_iff, !Z.leb_le, !Z.ltb_lt. lia.
Qed.

(** The operations of [store]: the stores of all fragment elements. *)
Lemma In_store_ops (src : fragment T) (op : mem_op U) :
  ~ (sz = 1 /\ rt.layout R = rt_layout.col) ->
  (In op (transfer.tiles_loop R
            (transfer.store_tile convert_out hopper R a shared_addr src))
   <-> exists i j l k e,
         0 <= i < rt.height R /\ 0 <= j < rt.width R /\ slot_ok sz l k e /\
         op = slot_store convert_out R a shared_addr src i j l (k, e)).
Proof.
  intros Hcase.
  pose proof (ok_sz R a shared_addr Hok) as Hsz. fold sz in Hsz.
  unfold transfer.tiles_loop. rewrite in_flat_map. split.
  - intros (i & Hi & Hin). apply In_range in Hi.
    apply in_flat_map in Hin. destruct Hin as (j & Hj & Hin). apply In_range in Hj.
    rewrite (store_tile_slots src i j Hcase Hi Hj) in Hin.
    apply in_flat_map in Hin. destruct Hin as (l & Hl & Hin). apply In_lanes in Hl.
    apply in_map_iff in Hin. destruct Hin as ([k e] & <- & Hke).
    apply (store_order_slots hopper sz _ l k e Hsz) in Hke.
    exists i, j, l, k, e. unfold slot_ok. tauto.
  - intros (i & j & l & k & e & Hi & Hj & (Hl & Hke) & ->).
    exists i. split; [apply In_range; assumption|].
    apply in_flat_map. exists j. split; [apply In_range; assumption|].
    rewrite (store_tile_slots src i j Hcase Hi Hj).
    apply in_flat_map. exists l. split; [apply In_lanes; assumption|].
    apply in_map. apply (store_order_slots hopper sz _ l k e Hsz). exact Hke.
Qed.

(** Property X24.  For every case [load] has (1-byte row layout, 2- and
    4-byte row and column layout; root tiles and subtiles; with and without
    [KITTENS_HOPPER]), under the assumptions [transfer_ok] of a transfer and
    for conversions that give back the stored value: [load] from a tile with
    contents [X] followed by [store] of the loaded register tile leaves, at
    every coordinate of the tile, the element [X] had there, whatever the
    memory held before the store.  The 4-byte row-layout case is included:
    the lane-parity swap of [load] and the one of [store] undo each other. *)
Theorem store_load_round_trip (add : U -> U -> U) (X m' : Z -> U)
    (dst : fragment T) :
  (forall u, convert_out (convert_in u) = u) ->
  ~ (sizeof (ST.dtype a) = 1 /\ rt.layout R = rt_layout.col) ->
  exists f ops,
    transfer.load convert_in R a X shared_addr dst = Compiled f /\
    transfer.store convert_out hopper R a shared_addr f = Compiled ops /\
    forall coord, in_tile (ST.rows a) (ST.cols a) coord ->
      run add ops m' (ST.idx a shared_addr coord)
      = X (ST.idx a shared_addr coord).
Proof.
  intros Hcvt Hcase. fold sz in Hcase.
  unfold transfer.load, transfer.store. rewrite static_asserts_ok.
  eexists. eexists. split; [reflexivity|]. split; [reflexivity|].
  set (f := fun laneid i j =>
    if (0 <=? i) && (i <? rt.height R) && (0 <=? j) && (j <? rt.width R)
    then transfer.load_tile convert_in R a X shared_addr dst i j laneid
    else dst laneid i j).
  assert (Hslot : forall i j l k e,
    0 <= i < rt.height R -> 0 <= j < rt.width R -> slot_ok sz l k e ->
    slot_store convert_out R a shared_addr f i j l (k, e)
    = Store (ST.idx a shared_addr (frag_coord sz (rt.layout R) tsr tsc i j l k e))
            (X (ST.idx a shared_addr (frag_coord sz (rt.layout R) tsr tsc i j l k e)))).
  { intros i j l k e Hi Hj Hs. unfold slot_store. cbn [fst snd]. f_equal.
    subst f. cbv beta. rewrite (in_loop_test i j Hi Hj).
    rewrite (load_tile_slot convert_in R a shared_addr Hok X dst i j l k e Hcase Hi Hj Hs).
    apply Hcvt. }
  intros coord Hin. apply run_stores.
  - apply Forall_forall. intros op Hop.
    apply (In_store_ops f op Hcase) in Hop.
    destruct Hop as (i & j & l & k & e & Hi & Hj & Hs & ->).
    rewrite (Hslot i j l k e Hi Hj Hs). eexists. reflexivity.
  - destruct (frag_coord_onto coord Hcase Hin) as (i & j & l & k & e & Hi & Hj & Hs & Ec).
    exists (slot_store convert_out R a shared_addr f i j l (k, e)). split.
    + apply (In_store_ops f _ Hcase). exists i, j, l, k, e. auto.
    + rewrite (Hslot i j l k e Hi Hj Hs). cbn [op_addr]. rewrite Ec. reflexivity.
Qed.

End RoundTrip.

(** ** Atomic accumulation *)

Lemma map_flat_map_comm {A B C : Type} (g : B -> C) (f : A -> list B) (l : list A) :
  map g (flat_map f l) = flat_map (fun x => map g (f x)) l.
Proof.
  induction l as [|x l IH]; [reflexivity|].
  cbn [flat_map]. rewrite map_app, IH. reflexivity.
Qed.

Lemma Permutation_flat_map_in {A B : Type} (f g : A -> list B) (l : list A) :
  (forall x, In x l -> Permutation (f x) (g x)) ->
  Permutation (flat_map f l) (flat_map g l).
Proof.
  induction l as [|x l IH]; intros Hfg; [constructor|].
  cbn [flat_map]. apply Permutation_app.
  - apply Hfg. left. reflexivity.
  - apply IH. intros y Hy. apply Hfg. right. exact Hy.
Qed.

Section Atomic.
Context `{TileDim}.
Context {U T : Type}.
Variable convert_out : T -> U.
Variable hopper : bool.
Variables (R : rt.t) (a : ST.t) (shared_addr : Z).
Hypothesis Hok : transfer_ok R a shared_addr.

(** Claim C5.  Under the assumptions of a transfer, [atomic_add] on 1-byte
    elements is rejected by its [static_assert]; on 2- and 4-byte elements it
    compiles, and its operations are atomic adds of the same values at the
    same addresses as the overwrites of [store] (up to the order in which
    the warp issues them). *)
Theorem atomic_add_like_store (src : fragment T) :
  (sizeof (ST.dtype a) = 1 /\
   transfer.atomic_add convert_out R a shared_addr src
   = Rejected "atomic_add is not supported for this type"%string) \/
  (sizeof (ST.dtype a) <> 1 /\
   exists adds stores,
     transfer.atomic_add convert_out R a shared_addr src = Compiled adds /\
     transfer.store convert_out hopper R a shared_addr src = Compiled stores /\
     Permutation adds (map as_atomic stores) /\
     Forall (fun op => exists addr v, op = AtomicAdd addr v) adds).
Proof.
  unfold transfer.atomic_add, transfer.store.
  rewrite (static_asserts_ok R a shared_addr Hok).
  destruct (Z.eqb_spec (sizeof (ST.dtype a)) 1) as [E | Hne]; cbn [negb].
  - left. split; [assumption | reflexivity].
  - right. split; [assumption|].
    eexists. eexists. split; [reflexivity|]. split; [reflexivity|].
    assert (Hcase : ~ (sizeof (ST.dtype a) = 1 /\ rt.layout R = rt_layout.col))
      by tauto.
    assert (Eadds : transfer.tiles_loop R
              (transfer.atomic_add_tile convert_out R a shared_addr src)
            = transfer.tiles_loop R (fun i j =>
                flat_map (fun l => map (fun ke => as_atomic
                   (slot_store convert_out R a shared_addr src i j l ke))
                   (atomic_order (sizeof (ST.dtype a)) (rt.layout R) l)) lanes)).
    { unfold transfer.tiles_loop. apply flat_map_ext_in. intros i Hi.
      apply flat_map_ext_in. intros j Hj. apply In_range in Hi, Hj.
      apply (atomic_add_tile_slots convert_out R a shared_addr Hok src i j Hne Hi Hj). }
    split.
    + rewrite Eadds. unfold transfer.tiles_loop.
      rewrite map_flat_map_comm. apply Permutation_flat_map_in. intros i Hi.
      rewrite map_flat_map_comm. apply Permutation_flat_map_in. intros j Hj.
      apply In_range in Hi, Hj.
      rewrite (store_tile_slots convert_out hopper R a shared_addr Hok src i j Hcase Hi Hj).
      rewrite map_flat_map_comm. apply Permutation_flat_map_in. intros l Hl.
      rewrite map_map. apply Permutation_map. symmetry. apply store_order_atomic.
    + rewrite Eadds. unfold transfer.tiles_loop.
      apply Forall_flat_map, Forall_forall. intros i _.
      apply Forall_flat_map, Forall_forall. intros j _.
      apply Forall_flat_map, Forall_forall. intros l _.
      apply Forall_map, Forall_forall. intros ke _.
      unfold slot_store, as_atomic. eexists. eexists. reflexivity.
Qed.

End Atomic.

(** ** Instances, and a case [load] does not have *)

Lemma transfer_ok_float_subtile :
  transfer_ok (H := dims16)
    (rt.Build rt_layout.row 1 1 16 16)
    (ST.sub (st_subtile.ctor (st.Build float 32 32) 16 16 0 (mk_int2 1 1)))
    1024.
Proof.
  constructor; cbn;
    repeat match goal with |- _ /\ _ => split end;
    try reflexivity; try lia.
  unfold supported; cbn. repeat split; lia.
Qed.

(** The statement of [store_load_round_trip] for the 16 x 16 subtile at
    block (1, 1) of a 32 x 32 tile of 4-byte elements, row layout. *)
Lemma store_load_round_trip_witness :
  let R := rt.Build rt_layout.row 1 1 16 16 in
  let S := ST.sub (st_subtile.ctor (st.Build float 32 32) 16 16 0 (mk_int2 1 1)) in
  let X : Z -> Z := fun addr => addr in
  let m' : Z -> Z := fun _ => 0 in
  let dst : fragment Z := fun _ _ _ _ _ => 0 in
  exists f ops,
    transfer.load (H := dims16) (fun u => u) R S X 1024 dst = Compiled f /\
    transfer.store (H := dims16) (fun t => t) true R S 1024 f = Compiled ops /\
    forall coord, in_tile 16 16 coord ->
      run Z.add ops m' (ST.idx (H := dims16) S 1024 coord)
      = X (ST.idx (H := dims16) S 1024 coord).
Proof.
  intros R S X m' dst.
  apply (store_load_round_trip (H := dims16) (fun u : Z => u) (fun t : Z => t)
           true R S 1024 transfer_ok_float_subtile Z.add X m' dst).
  - reflexivity.
  - cbn. intros [E _]. discriminate.
Defined.

Lemma transfer_ok_bf16_tile :
  transfer_ok (H := dims16)
    (rt.Build rt_layout.col 2 4 16 16)
    (ST.root (st.Build bf16 32 64))
    0.
Proof.
  constructor; cbn;
    repeat match goal with |- _ /\ _ => split end;
    try reflexivity; try lia.
  unfold supported; cbn. repeat split; lia.
Qed.

(** The statement of [atomic_add_like_store] for a 32 x 64 tile of 2-byte
    elements, column layout. *)
Lemma atomic_add_like_store_witness :
  let R := rt.Build rt_layout.col 2 4 16 16 in
  let S := ST.root (st.Build bf16 32 64) in
  let src : fragment Z := fun laneid _ _ k e => laneid + 2 * k + e in
  (sizeof (ST.dtype S) = 1 /\
   transfer.atomic_add (H := dims16) (fun t => t) R S 0 src
   = Rejected "atomic_add is not supported for this type"%string) \/
  (sizeof (ST.dtype S) <> 1 /\
   exists adds stores,
     transfer.atomic_add (H := dims16) (fun t => t) R S 0 src = Compiled adds /\
     transfer.store (H := dims16) (fun t => t) true R S 0 src = Compiled stores /\
     Permutation adds (map as_atomic stores) /\
     Forall (fun op => exists addr v, op = AtomicAdd addr v) adds).
Proof.
  intros R S src.
  exact (atomic_add_like_store (H := dims16) (fun t : Z => t) true R S 0
           transfer_ok_bf16_tile src).
Defined.

(** The statement of [ctor_offsets_aligned] for 16 x 32 subtiles of a 32 x 64
    tile of 4-byte elements at [rowcol = {134217728, 67108864}], where both
    products are 2^31 and do not fit an [int]. *)
Lemma ctor_offsets_aligned_witness :
  let S := st_subtile.ctor (st.Build float 32 64) 16 32 0
             (mk_int2 134217728 67108864) in
  st_subtile.rows S = 16 /\
  st_subtile.cols S = 32 /\
  st_subtile.row_offset S = int_wrap (134217728 * 16) /\
  st_subtile.col_offset S = int_wrap (67108864 * 32) /\
  (- 2 ^ 31 <= 134217728 * 16 < 2 ^ 31 ->
   st_subtile.row_offset S = 134217728 * 16) /\
  (- 2 ^ 31 <= 67108864 * 32 < 2 ^ 31 ->
   st_subtile.col_offset S = 67108864 * 32) /\
  (2 ^ 32 mod 16 = 0 \/ - 2 ^ 31 <= 134217728 * 16 < 2 ^ 31 ->
   Z.rem (st_subtile.row_offset S) 16 = 0) /\
  (2 ^ 32 mod 16 = 0 \/ - 2 ^ 31 <= 67108864 * 32 < 2 ^ 31 ->
   Z.rem (st_subtile.col_offset S) 16 = 0).
Proof.
  exact (ctor_offsets_aligned (H := dims16) (st.Build float 32 64) 16 32 0
           (mk_int2 134217728 67108864) eq_refl).
Defined.

Section Silent.
Context {U T : Type}.
Variable convert_in : U -> T.
Variable convert_out : T -> U.

Lemma load_tile_fp8_col `{TileDim} (R : rt.t) (S : ST.t) (m : Z -> U)
    (shared_addr : Z) (dst : fragment T) (i j laneid : Z) :
  sizeof (ST.dtype S) = 1 -> rt.layout R = rt_layout.col ->
  transfer.load_tile convert_in R S m shared_addr dst i j laneid = dst laneid i j.
Proof.
  intros E Hlay. unfold transfer.load_tile. rewrite E, Hlay. reflexivity.
Qed.

(** Claim C8, at the input where the code departs from it.  For a 16 x 32
    tile of 1-byte elements and a column-layout register tile the
    [static_assert]s of [load] hold and none of its cases is selected: [load]
    compiles and leaves the register tile as it was, whatever shared memory
    holds.  For the same types [store] has a case (512 element stores) and
    [atomic_add] is rejected at compile time. *)
Theorem load_fp8_col_moves_nothing (m : Z -> U) (shared_addr : Z)
    (dst src : fragment T) (hopper : bool) :
  let R := rt.Build rt_layout.col 1 1 16 32 in
  let S := ST.root (st.Build fp8e4m3 16 32) in
  (exists f,
     transfer.load (H := dims16) convert_in R S m shared_addr dst = Compiled f /\
     forall laneid i j, f laneid i j = dst laneid i j) /\
  (exists ops,
     transfer.store (H := dims16) convert_out hopper R S shared_addr src
     = Compiled ops /\ List.length ops = 512%nat) /\
  (exists msg,
     transfer.atomic_add (H := dims16) convert_out R S shared_addr src
     = Rejected msg).
Proof.
  intros R S. split; [|split].
  - eexists. split; [reflexivity|]. intros laneid i j. cbv beta.
    destruct (_ && _); [|reflexivity].
    apply (load_tile_fp8_col (H := dims16)); reflexivity.
  - eexists. split; [reflexivity|]. reflexivity.
  - eexists. reflexivity.
Qed.

Lemma transfer_ok_fp8_col :
  transfer_ok (H := dims16)
    (rt.Build rt_layout.col 1 1 16 32) (ST.root (st.Build fp8e4m3 16 32)) 0.
Proof.
  constructor; cbn;
    repeat match goal with |- _ /\ _ => split end;
    try reflexivity; try lia.
  unfold supported; cbn. repeat split; lia.
Qed.

(** Claim C3, at the input where the code departs from it.  A 16 x 32 tile
    of 1-byte elements and a column-layout register tile meet every
    assumption of a transfer, and [load] and [store] both compile.  [load]
    has no case for them and leaves the register tile as it was; [store] has
    one and writes: after [load] then [store] the element (0, 0) of the tile
    holds what register 0 of lane 0 held before the [load], whatever the
    tile's contents [X] were, so the tile is not reproduced. *)
Theorem load_store_fp8_col_loses_tile (add : U -> U -> U) (X : Z -> U)
    (dst : fragment T) (hopper : bool) :
  let R := rt.Build rt_layout.col 1 1 16 32 in
  let S := ST.root (st.Build fp8e4m3 16 32) in
  let addr := ST.idx (H := dims16) S 0 (mk_int2 0 0) in
  transfer_ok (H := dims16) R S 0 /\
  in_tile (ST.rows S) (ST.cols S) (mk_int2 0 0) /\
  exists f ops,
    transfer.load (H := dims16) convert_in R S X 0 dst = Compiled f /\
    transfer.store (H := dims16) convert_out hopper R S 0 f = Compiled ops /\
    run add ops X addr = convert_out (dst 0 0 0 0 0) /\
    (convert_out (dst 0 0 0 0 0) <> X addr -> run add ops X addr <> X addr).
Proof.
  intros R S addr. split; [exact transfer_ok_fp8_col|].
  split; [split; cbn; lia|].
  eexists. eexists. split; [reflexivity|]. split; [reflexivity|].
  assert (E : run add
            (transfer.tiles_loop R
               (transfer.store_tile (H := dims16) convert_out hopper R S 0
                  (fun laneid i j =>
                   if (0 <=? i) && (i <? rt.height R) && (0 <=? j) && (j <? rt.width R)
                   then transfer.load_tile (H := dims16) convert_in R S X 0 dst i j laneid
                   else dst laneid i j))) X addr
          = convert_out (dst 0 0 0 0 0)).
  { vm_compute. reflexivity. }
  split; [exact E|]. intros Hne. rewrite E. exact Hne.
Qed.

End Silent.

(** * Further properties *)

(** ** Addressing *)

Section Addressing.
Context `{TileDim}.

Lemma idx_inj (s : st.t) (ptr : Z) (c1 c2 : int2) :
  supported s -> 0 <= ptr ->
  ptr + sizeof (st.T s) * (st.rows s * st.cols s) <= 2 ^ 32 ->
  in_tile (st.rows s) (st.cols s) c1 -> in_tile (st.rows s) (st.cols s) c2 ->
  st.idx s ptr c1 = st.idx s ptr c2 -> c1 = c2.
Proof.
  intros Hs Hp Hf H1 H2 E.
  destruct (supported_geometry s Hs) as (Hsz & Hper & Esz & Hsc & HR & n & Hn & Ecols).
  rewrite !idx_unfold in E.
  destruct (idx_no_wrap s ptr c1 Hs Hp Hf H1) as (E1 & _ & _).
  destruct (idx_no_wrap s ptr c2 Hs Hp Hf H2) as (E2 & _ & _).
  rewrite E1, E2 in E.
  apply (f_equal (xor_swizzle (st.swizzle_bytes s))) in E.
  rewrite !xor_swizzle_involutive in E by assumption.
  destruct H1 as [Hr1 Hc1], H2 as [Hr2 Hc2].
  destruct (element_offset_inj _ (st.rows s) Hsc HR (x c1) (y c1) (x c2) (y c2))
    as [Ex Ey]; try lia.
  destruct c1, c2; simpl in *; congruence.
Qed.

(** Property X1.  With a quantum-wide row of 32 bytes (64 for 4-byte
    elements), [swizzle_bytes] is the largest of 32, 64 and 128 that divides
    the byte width of a tile row: it divides [sizeof(T) * cols], and unless
    it is 128 its double does not. *)
Theorem swizzle_bytes_largest_period (s : st.t) :
  (sizeof (st.T s) = 1 \/ sizeof (st.T s) = 2 \/ sizeof (st.T s) = 4) ->
  st.static_asserts s = true -> 0 < st.cols s ->
  sizeof (st.T s) * TILE_COL_DIM (st.T s)
    = (if sizeof (st.T s) =? 4 then 64 else 32) ->
  let row_bytes := sizeof (st.T s) * st.cols s in
  let sb := st.swizzle_bytes s in
  period_ok sb /\ row_bytes mod sb = 0 /\
  (sb < 128 -> row_bytes mod (2 * sb) <> 0).
Proof.
  intros Hsz Hsa Hc Hq row_bytes sb.
  unfold st.static_asserts in Hsa. apply andb_prop in Hsa. destruct Hsa as [_ Hsa].
  apply Z.eqb_eq in Hsa.
  subst row_bytes sb. unfold st.swizzle_bytes, st.underlying_width, period_ok.
  set (q := TILE_COL_DIM (st.T s)) in *.
  set (w := Z.quot (st.cols s) q).
  assert (Ecols : st.cols s = q * w).
  { pose proof (Z.quot_rem' (st.cols s) q). subst w. lia. }
  assert (Hq0 : 0 < q).
  { clearbody q. destruct Hsz as [E | [E | E]]; rewrite E in Hq;
      [change (1 =? 4) with false in Hq | change (2 =? 4) with false in Hq
      | change (4 =? 4) with true in Hq]; cbv iota in Hq; lia. }
  assert (Hw : 0 <= w) by (subst w; apply Z.quot_pos; lia).
  rewrite Ecols. clearbody w q.
  destruct Hsz as [E | [E | E]]; rewrite E in *;
    [change (1 =? 4) with false in Hq | change (2 =? 4) with false in Hq
    | change (4 =? 4) with true in Hq]; cbv iota in Hq;
    [change (1 =? 1) with true | change (2 =? 1) with false; change (2 =? 2) with true
    | change (4 =? 1) with false; change (4 =? 2) with false; change (4 =? 4) with true];
    cbv iota.
  all: repeat match goal with
       | |- context [if ?a =? ?b then _ else _] => destruct (Z.eqb_spec a b)
       end.
  all: repeat match goal with
       | H : Z.rem _ _ = 0 |- _ => rewrite Z.rem_mod_nonneg in H by lia
       | H : Z.rem _ _ <> 0 |- _ => rewrite Z.rem_mod_nonneg in H by lia
       end.
  all: repeat split; try tauto; try lia.
  all: try (intros _).
  all: try (Z.div_mod_to_equations; lia).
Qed.

End Addressing.

Lemma mod_1024_period (sb a : Z) :
  period_ok sb -> (a mod 1024) mod (sb * 8) = a mod (sb * 8).
Proof.
  intros [-> | [-> | ->]]; change 1024 with (4 * (32 * 8)) at 1 || idtac;
  Z.div_mod_to_equations; lia.
Qed.

Lemma land_lxor_distr (a b c : Z) :
  Z.land (Z.lxor a b) c = Z.lxor (Z.land a c) (Z.land b c).
Proof.
  apply Z.bits_inj'. intros n _.
  rewrite !Z.land_spec, !Z.lxor_spec, !Z.land_spec.
  destruct (Z.testbit a n), (Z.testbit b n), (Z.testbit c n); reflexivity.
Qed.

Lemma xor_swizzle_mod_1024 (sb a : Z) :
  period_ok sb ->
  xor_swizzle sb a mod 1024 = xor_swizzle sb (a mod 1024).
Proof.
  intros Hp. unfold xor_swizzle.
  rewrite (mod_1024_period sb a Hp).
  set (t := Z.shiftl (Z.shiftr (a mod (sb * 8)) 7) 4).
  assert (Ht : 0 <= t < 1024).
  { pose proof (swizzle_term_bounds sb a Hp) as B. cbv zeta in B. fold t in B.
    unfold period_ok in Hp. lia. }
  change 1024 with (2 ^ 10).
  rewrite <- !Z.land_ones by lia.
  rewrite land_lxor_distr.
  rewrite (Z.land_ones t) by lia.
  rewrite (Z.mod_small t) by (change (2 ^ 10) with 1024; lia).
  reflexivity.
Qed.

Lemma chunk_of_mod_1024 (a : Z) : chunk_of a = chunk_of (a mod 1024).
Proof. unfold chunk_of. Z.div_mod_to_equations. lia. Qed.

Lemma chunk_of_swizzle (sb a : Z) :
  period_ok sb ->
  chunk_of (xor_swizzle sb a) = chunk_of (xor_swizzle sb (a mod 1024)).
Proof.
  intros Hp. rewrite chunk_of_mod_1024, xor_swizzle_mod_1024 by assumption.
  reflexivity.
Qed.

Lemma chunks_differ_all (sb : Z) : period_ok sb -> chunks_differ sb = true.
Proof. intros [-> | [-> | ->]]; vm_compute; reflexivity. Qed.

Lemma chunk_rows_differ (sb a d : Z) :
  period_ok sb -> 0 < d < 8 ->
  chunk_of (xor_swizzle sb a) <> chunk_of (xor_swizzle sb (a + sb * d)).
Proof.
  intros Hp Hd.
  pose proof (chunks_differ_all sb Hp) as C. unfold chunks_differ in C.
  rewrite forallb_forall in C.
  specialize (C (a mod 1024)).
  rewrite In_range in C.
  specialize (C ltac:(apply Z.mod_pos_bound; lia)).
  rewrite forallb_forall in C.
  specialize (C (d - 1)). rewrite In_range in C. specialize (C ltac:(lia)).
  apply negb_true_iff, Z.eqb_neq in C.
  replace (d - 1 + 1) with d in C by lia.
  rewrite (chunk_of_swizzle sb a Hp), (chunk_of_swizzle sb (a + sb * d) Hp).
  rewrite <- (Zplus_mod_idemp_l a). exact C.
Qed.

Section Layout.
Context `{TileDim}.
Variables (s : st.t) (ptr : Z).
Hypothesis Hs : supported s.
Hypothesis Hptr : 0 <= ptr.
Hypothesis Hfit : ptr + sizeof (st.T s) * (st.rows s * st.cols s) <= 2 ^ 32.

Lemma idx_plain (coord : int2) :
  in_tile (st.rows s) (st.cols s) coord ->
  st.idx s ptr coord =
  xor_swizzle (st.swizzle_bytes s)
    (ptr + sizeof (st.T s) *
       element_offset (st.swizzle_bytes s / sizeof (st.T s)) (st.rows s)
         (x coord) (y coord)).
Proof.
  intros Hin. rewrite idx_unfold.
  destruct (idx_no_wrap s ptr coord Hs Hptr Hfit Hin) as (E & _ & _).
  rewrite E. reflexivity.
Qed.

Lemma element_offset_row (sc R r r' c : Z) :
  element_offset sc R r' c = element_offset sc R r c + (r' - r) * sc.
Proof. unfold element_offset. ring. Qed.

(** Property X3.  In one column of a tile, two different rows less than 8
    apart are never given the same 16-byte chunk of a 128-byte line: the
    chunk index [(idx / 16) mod 8] differs, so eight consecutive rows read at
    one column fall in eight different groups of four banks. *)
Theorem idx_rows_distinct_chunks (r r' c : Z) :
  in_tile (st.rows s) (st.cols s) (mk_int2 r c) ->
  in_tile (st.rows s) (st.cols s) (mk_int2 r' c) ->
  r <> r' -> Z.abs (r - r') < 8 ->
  (st.idx s ptr (mk_int2 r c) / 16) mod 8
  <> (st.idx s ptr (mk_int2 r' c) / 16) mod 8.
Proof.
  intros H1 H2 Hne Hd.
  destruct (supported_geometry s Hs) as (Hsz & Hper & Esz & Hsc & HR & n & Hn & Ecols).
  rewrite (idx_plain _ H1), (idx_plain _ H2). cbn [x y].
  set (sz := sizeof (st.T s)) in *. set (sb := st.swizzle_bytes s) in *.
  set (sc := sb / sz) in *.
  fold (chunk_of (xor_swizzle sb (ptr + sz * element_offset sc (st.rows s) r c))).
  fold (chunk_of (xor_swizzle sb (ptr + sz * element_offset sc (st.rows s) r' c))).
  destruct (Z_lt_le_dec r r') as [L | L].
  - rewrite (element_offset_row sc (st.rows s) r r' c).
    replace (ptr + sz * (element_offset sc (st.rows s) r c + (r' - r) * sc))
      with (ptr + sz * element_offset sc (st.rows s) r c + sb * (r' - r))
      by (rewrite <- Esz; ring).
    apply chunk_rows_differ; [assumption | lia].
  - rewrite (element_offset_row sc (st.rows s) r' r c).
    replace (ptr + sz * (element_offset sc (st.rows s) r' c + (r - r') * sc))
      with (ptr + sz * element_offset sc (st.rows s) r' c + sb * (r - r'))
      by (rewrite <- Esz; ring).
    intros E. symmetry in E. revert E.
    apply chunk_rows_differ; [assumption | lia].
Qed.

(** Property X2.  The exclusive-or step moves an element only inside its
    own row segment: the element at [(r, c)] lies in the segment of
    [swizzle_bytes] bytes number [(c / subtile_cols) * rows + r] of the
    buffer, and its offset inside a 16-byte chunk is that of the unswizzled
    address. *)
Theorem idx_row_segment (r c : Z) :
  ptr mod st.swizzle_bytes s = 0 ->
  in_tile (st.rows s) (st.cols s) (mk_int2 r c) ->
  let sb := st.swizzle_bytes s in
  let sc := sb / sizeof (st.T s) in
  (st.idx s ptr (mk_int2 r c) - ptr) / sb = (c / sc) * st.rows s + r /\
  st.idx s ptr (mk_int2 r c) mod 16 = (sizeof (st.T s) * (c mod sc)) mod 16.
Proof.
  intros Hal Hin. cbv zeta.
  destruct (supported_geometry s Hs) as (Hsz & Hper & Esz & Hsc & HR & n & Hn & Ecols).
  rewrite (idx_plain _ Hin). cbn [x y].
  set (sz := sizeof (st.T s)) in *. set (sb := st.swizzle_bytes s) in *.
  set (sc := sb / sz) in *.
  destruct Hin as [Hr Hc]. cbn [x y] in Hr, Hc.
  clearbody sc sb sz.
  rewrite (element_offset_split sc (st.rows s) Hsc r c) by lia.
  assert (Hsb : 0 < sb) by (unfold period_ok in Hper; lia).
  apply Z.mod_divide in Hal; [|lia]. destruct Hal as [k Ek].
  set (q := c / sc * st.rows s + r).
  assert (Ea : ptr + sz * (q * sc + c mod sc) = (k + q) * sb + sz * (c mod sc)).
  { rewrite Ek, <- Esz. ring. }
  rewrite Ea.
  assert (Hcm : 0 <= sz * (c mod sc) < sb).
  { pose proof (Z.mod_pos_bound c sc Hsc). rewrite <- Esz. nia. }
  split.
  - assert (E1 : xor_swizzle sb ((k + q) * sb + sz * (c mod sc)) / sb = k + q).
    { rewrite xor_swizzle_div by assumption.
      rewrite Z.add_comm, Z.div_add by lia. rewrite Z.div_small by lia. lia. }
    set (v := xor_swizzle sb ((k + q) * sb + sz * (c mod sc))) in *.
    rewrite Ek. replace (v - k * sb) with (v + (- k) * sb) by ring.
    rewrite Z.div_add by lia. lia.
  - rewrite xor_swizzle_mod16 by assumption.
    assert (E16 : sb mod 16 = 0) by (destruct Hper as [-> | [-> | ->]]; reflexivity).
    apply Z.mod_divide in E16; [|lia]. destruct E16 as [j Ej].
    rewrite Ej. replace ((k + q) * (j * 16)) with ((k + q) * j * 16) by ring.
    rewrite Z.add_comm, Z.mod_add by lia. reflexivity.
Qed.

(** Property X4.  The elements of one aligned 16-byte group of a row stay
    adjacent: when column [c] starts such a group, its address is a multiple
    of 16 and the element [d] columns further in the group is
    [sizeof(T) * d] bytes further. *)
Theorem idx_chunk_contiguous (r c d : Z) :
  ptr mod 16 = 0 ->
  in_tile (st.rows s) (st.cols s) (mk_int2 r c) ->
  in_tile (st.rows s) (st.cols s) (mk_int2 r (c + d)) ->
  (sizeof (st.T s) * c) mod 16 = 0 ->
  0 <= d -> sizeof (st.T s) * d < 16 ->
  st.idx s ptr (mk_int2 r c) mod 16 = 0 /\
  st.idx s ptr (mk_int2 r (c + d))
  = st.idx s ptr (mk_int2 r c) + sizeof (st.T s) * d.
Proof.
  intros Hal H1 H2 Hc Hd Hsd.
  split.
  - rewrite (idx_plain _ H1). cbn [x y].
    destruct (supported_geometry s Hs) as (Hsz & Hper & Esz & Hsc & HR & n & Hn & Ecols).
    rewrite xor_swizzle_mod16 by assumption.
    destruct H1 as [_ Hc0]. cbn [y] in Hc0.
    destruct (element_offset_shift s r c 0 Hs) as [_ E]; try lia.
    rewrite <- Zplus_mod_idemp_l, Hal, Z.add_0_l. exact E.
  - apply idx_shift; assumption.
Qed.

(** Property X5.  The pointer overload and the 32-bit overload of [idx]
    return the same address for every coordinate of a tile whose buffer is
    addressable in 32 bits, for [st] and for [st_subtile]. *)
Theorem idx_overloads_agree (coord : int2) (S : st_subtile.t) (sub_coord : int2) :
  in_tile (st.rows s) (st.cols s) coord ->
  st_subtile.ST S = s ->
  in_tile (st.rows s) (st.cols s)
    (mk_int2 (x sub_coord + st_subtile.row_offset S)
             (y sub_coord + st_subtile.col_offset S)) ->
  st.idx_ptr s ptr coord = st.idx s ptr coord /\
  st_subtile.idx_ptr S ptr sub_coord = st_subtile.idx S ptr sub_coord.
Proof.
  intros Hin HS Hsub. split.
  - rewrite idx_ptr_unfold, idx_plain by assumption. reflexivity.
  - change (st_subtile.idx_ptr S ptr sub_coord)
      with (st.idx_ptr (st_subtile.ST S) ptr
              (mk_int2 (x sub_coord + st_subtile.row_offset S)
                       (y sub_coord + st_subtile.col_offset S))).
    change (st_subtile.idx S ptr sub_coord)
      with (st.idx (st_subtile.ST S) ptr
              (mk_int2 (x sub_coord + st_subtile.row_offset S)
                       (y sub_coord + st_subtile.col_offset S))).
    rewrite HS. rewrite idx_ptr_unfold, idx_plain by assumption. reflexivity.
Qed.





End Layout.

(** ** Lists of memory operations at distinct addresses *)

Lemma NoDup_range (n : Z) : NoDup (range n).
Proof.
  unfold range. apply NoDup_map_NoDup_ForallPairs; [|apply seq_NoDup].
  intros p q _ _ E. apply Nat2Z.inj. exact E.
Qed.

Lemma length_range (n : Z) : List.length (range n) = Z.to_nat n.
Proof. unfold range. rewrite length_map, length_seq. reflexivity. Qed.

Lemma length_flat_map_const {A B : Type} (f : A -> list B) (l : list A) (c : nat) :
  (forall a, In a l -> List.length (f a) = c) ->
  List.length (flat_map f l) = (List.length l * c)%nat.
Proof.
  induction l as [|a l IH]; intros Hc; [reflexivity|].
  cbn [flat_map]. rewrite length_app, Hc by (left; reflexivity).
  rewrite IH by (intros b Hb; apply Hc; right; exact Hb). reflexivity.
Qed.

Lemma NoDup_flat_map_pairs {A B C : Type} (f : A -> B -> C)
    (la : list A) (lb : list B) :
  NoDup la -> NoDup lb ->
  (forall a b a' b', In a la -> In b lb -> In a' la -> In b' lb ->
     f a b = f a' b' -> a = a' /\ b = b') ->
  NoDup (flat_map (fun a => map (f a) lb) la).
Proof.
  intros Ha Hb Hinj. induction la as [|a la IH]; [constructor|].
  cbn [flat_map]. inversion Ha as [|? ? Hnotin Ha']; subst.
  apply NoDup_app.
  - apply NoDup_map_NoDup_ForallPairs; [|exact Hb].
    intros b b' Hib Hib' E.
    apply (Hinj a b a b'); try assumption; left; reflexivity.
  - apply IH; [exact Ha'|].
    intros p b p' b' Hp Hb0 Hp' Hb0'. apply Hinj; try assumption; right; assumption.
  - intros c Hc Hc'. apply in_map_iff in Hc. destruct Hc as (b & <- & Hib).
    apply in_flat_map in Hc'. destruct Hc' as (a' & Hia' & Hc').
    apply in_map_iff in Hc'. destruct Hc' as (b' & E & Hib').
    destruct (Hinj a' b' a b) as [-> _]; try assumption;
      [right; exact Hia' | left; reflexivity |].
    contradiction.
Qed.

Section Run.
Context {U : Type}.
Variable add : U -> U -> U.

Lemma run_cons (op : mem_op U) (ops : list (mem_op U)) (m : Z -> U) :
  run add (op :: ops) m = run add ops (exec add m op).
Proof. reflexivity. Qed.

Lemma exec_other (m : Z -> U) (op : mem_op U) (b : Z) :
  op_addr op <> b -> exec add m op b = m b.
Proof.
  intros Hne. destruct op as [a v | a v]; cbn [exec op_addr] in *;
    destruct (Z.eqb_spec b a); congruence.
Qed.

Lemma run_frame (ops : list (mem_op U)) (m : Z -> U) (b : Z) :
  (forall op, In op ops -> op_addr op <> b) -> run add ops m b = m b.
Proof.
  revert m. induction ops as [|o ops IH]; intros m Hb; [reflexivity|].
  rewrite run_cons, IH by (intros op Hin; apply Hb; right; exact Hin).
  apply exec_other, Hb. left. reflexivity.
Qed.

Lemma exec_own (m m' : Z -> U) (op : mem_op U) :
  m' (op_addr op) = m (op_addr op) ->
  exec add m' op (op_addr op) = exec add m op (op_addr op).
Proof.
  intros E. destruct op as [a v | a v]; cbn [exec op_addr] in *;
    rewrite Z.eqb_refl; congruence.
Qed.

Lemma run_unique (ops : list (mem_op U)) (m : Z -> U) (op : mem_op U) :
  NoDup (map op_addr ops) -> In op ops ->
  run add ops m (op_addr op) = exec add m op (op_addr op).
Proof.
  revert m. induction ops as [|o ops IH]; intros m Hnd Hin; [destruct Hin|].
  cbn [map] in Hnd. inversion Hnd as [|? ? Hnotin Hnd']; subst.
  rewrite run_cons. destruct Hin as [-> | Hin].
  - apply run_frame. intros op' Hin' E. apply Hnotin.
    rewrite <- E. apply in_map. exact Hin'.
  - rewrite IH by assumption. apply exec_own. apply exec_other.
    intros E. apply Hnotin. rewrite E. apply in_map. exact Hin.
Qed.

Lemma run_perm (ops ops' : list (mem_op U)) (m : Z -> U) (b : Z) :
  NoDup (map op_addr ops) -> Permutation ops ops' ->
  run add ops' m b = run add ops m b.
Proof.
  intros Hnd Hp.
  assert (Hnd' : NoDup (map op_addr ops')).
  { eapply Permutation_NoDup; [apply Permutation_map; exact Hp | exact Hnd]. }
  destruct (in_dec Z.eq_dec b (map op_addr ops)) as [Hin | Hout].
  - apply in_map_iff in Hin. destruct Hin as (op & <- & Hin).
    rewrite (run_unique ops m op Hnd Hin).
    apply run_unique; [exact Hnd'|]. eapply Permutation_in; eassumption.
  - rewrite !run_frame; [reflexivity | |].
    + intros op Hin E. apply Hout. rewrite <- E. apply in_map. exact Hin.
    + intros op Hin E. apply Hout. rewrite <- E. apply in_map.
      eapply Permutation_in; [apply Permutation_sym; exact Hp | exact Hin].
Qed.

End Run.

Section Coverage.
Context `{TileDim}.
Variables (R : rt.t) (a : ST.t) (shared_addr : Z).
Hypothesis Hok : transfer_ok R a shared_addr.

Let sz := sizeof (ST.dtype a).
Let tsr := rt.tile_size_row R.
Let tsc := rt.tile_size_col R.

Lemma ST_idx_inj (c1 c2 : int2) :
  in_tile (ST.rows a) (ST.cols a) c1 -> in_tile (ST.rows a) (ST.cols a) c2 ->
  ST.idx a shared_addr c1 = ST.idx a shared_addr c2 -> c1 = c2.
Proof.
  destruct c1 as [r1 k1], c2 as [r2 k2]. intros H1 H2 E.
  rewrite !ST_idx_parent in E.
  apply idx_inj in E.
  - injection E as Er Ec. f_equal; lia.
  - apply (ok_parent _ _ _ Hok).
  - apply (ok_aligned _ _ _ Hok).
  - rewrite <- ST_dtype_parent. apply (ok_fits _ _ _ Hok).
  - apply (ok_in_parent R a shared_addr Hok). exact H1.
  - apply (ok_in_parent R a shared_addr Hok). exact H2.
Qed.

Lemma frag_coord_inj (i j l k e i' j' l' k' e' : Z) :
  ~ (sz = 1 /\ rt.layout R = rt_layout.col) ->
  slot_ok sz l k e -> slot_ok sz l' k' e' ->
  frag_coord sz (rt.layout R) tsr tsc i j l k e
  = frag_coord sz (rt.layout R) tsr tsc i' j' l' k' e' ->
  i = i' /\ j = j' /\ l = l' /\ k = k' /\ e = e'.
Proof.
  intros Hcase (Hl & Hk & He) (Hl' & Hk' & He') E.
  pose proof (ok_sz R a shared_addr Hok) as Hsz. fold sz in Hsz.
  pose proof (ok_tile_rows _ _ _ Hok) as Er. fold tsr in Er.
  pose proof (ok_tile_cols _ _ _ Hok) as Ec. fold tsc sz in Ec.
  unfold frag_coord, elems_per_reg in *.
  clearbody sz tsr tsc. subst tsr.
  destruct (rt.layout R) eqn:Lay.
  - assert (E1 := f_equal x E). assert (E2 := f_equal y E).
    cbv beta iota zeta delta [x y] in E1, E2. clear E Hcase.
    destruct Hsz as [S | [S | S]]; subst sz;
      [change (1 =? 1) with true in * | change (2 =? 1) with false in *
      | change (4 =? 1) with false in *]; cbv iota in *; subst tsc;
      Z.div_mod_to_equations; lia.
  - assert (E1 := f_equal x E). assert (E2 := f_equal y E).
    cbv beta iota zeta delta [x y] in E1, E2. clear E.
    assert (S1 : sz <> 1) by (intros S; apply Hcase; split; [exact S | reflexivity]).
    clear Hcase.
    destruct Hsz as [S | [S | S]]; [contradiction | |]; subst sz;
      [change (2 =? 1) with false in * | change (4 =? 1) with false in *];
      cbv iota in *; subst tsc; Z.div_mod_to_equations; lia.
Qed.

Lemma In_tile_addrs (b : Z) :
  In b (tile_addrs a shared_addr) <->
  exists coord, in_tile (ST.rows a) (ST.cols a) coord /\
                ST.idx a shared_addr coord = b.
Proof.
  unfold tile_addrs. rewrite in_flat_map. split.
  - intros (r & Hr & Hin). apply in_map_iff in Hin. destruct Hin as (c & E & Hc).
    apply In_range in Hr, Hc. exists (mk_int2 r c).
    split; [split; assumption | exact E].
  - intros ([r c] & [Hr Hc] & E). exists r.
    split; [apply In_range; exact Hr|].
    apply in_map_iff. exists c. split; [exact E | apply In_range; exact Hc].
Qed.

Lemma tile_addrs_NoDup : NoDup (tile_addrs a shared_addr).
Proof.
  apply NoDup_flat_map_pairs; try apply NoDup_range.
  intros r c r' c' Hr Hc Hr' Hc' E. apply In_range in Hr, Hc, Hr', Hc'.
  apply ST_idx_inj in E; [| split; assumption | split; assumption].
  injection E as -> ->. split; reflexivity.
Qed.

Lemma length_tile_addrs :
  List.length (tile_addrs a shared_addr)
  = (Z.to_nat (ST.rows a) * Z.to_nat (ST.cols a))%nat.
Proof.
  unfold tile_addrs. rewrite (length_flat_map_const _ _ (Z.to_nat (ST.cols a))).
  - rewrite length_range. reflexivity.
  - intros r _. rewrite length_map, length_range. reflexivity.
Qed.

Lemma length_store_order (hopper : bool) (layout : rt_layout.t) (l : Z) :
  List.length (store_order hopper sz layout l) = Z.to_nat (4 * elems_per_reg sz).
Proof.
  pose proof (ok_sz R a shared_addr Hok) as Hsz. fold sz in Hsz. clearbody sz.
  unfold store_order, elems_per_reg.
  destruct Hsz as [-> | [-> | ->]], hopper, layout; cbn;
    try reflexivity; destruct (_ =? 0); reflexivity.
Qed.

Context {U T : Type}.
Variable convert_out : T -> U.
Variable hopper : bool.
Variable src : fragment T.
Hypothesis Hcase : ~ (sz = 1 /\ rt.layout R = rt_layout.col).

Let ops : list (mem_op U) :=
  transfer.tiles_loop R (transfer.store_tile convert_out hopper R a shared_addr src).

Lemma length_store_ops :
  List.length ops = List.length (tile_addrs a shared_addr).
Proof.
  rewrite length_tile_addrs. subst ops. unfold transfer.tiles_loop.
  rewrite (length_flat_map_const _ _
             (Z.to_nat (rt.width R) * (32 * Z.to_nat (4 * elems_per_reg sz)))%nat).
  - rewrite length_range.
    rewrite (ok_rows _ _ _ Hok), (ok_cols _ _ _ Hok).
    rewrite (ok_tile_rows _ _ _ Hok), (ok_tile_cols _ _ _ Hok). fold sz.
    pose proof (ok_sz R a shared_addr Hok) as Hsz. fold sz in Hsz. clearbody sz.
    unfold elems_per_reg.
    assert (E16 : forall h, Z.to_nat (16 * h) = (16 * Z.to_nat h)%nat) by (intros; lia).
    assert (E32 : forall h, Z.to_nat (32 * h) = (32 * Z.to_nat h)%nat) by (intros; lia).
    destruct Hsz as [-> | [-> | ->]]; cbn [Z.eqb Pos.eqb];
      rewrite ?E16, ?E32; cbn [Z.to_nat Z.mul Pos.mul Pos.to_nat Pos.iter_op Nat.add];
      nia.
  - intros i Hi. apply In_range in Hi.
    rewrite (length_flat_map_const _ _ (32 * Z.to_nat (4 * elems_per_reg sz))%nat).
    + rewrite length_range. reflexivity.
    + intros j Hj. apply In_range in Hj.
      rewrite (store_tile_slots convert_out hopper R a shared_addr Hok src i j Hcase Hi Hj).
      rewrite (length_flat_map_const _ _ (Z.to_nat (4 * elems_per_reg sz))).
      * reflexivity.
      * intros l _. rewrite length_map. apply length_store_order.
Qed.

Lemma store_addr_in_tile (op : mem_op U) :
  In op ops -> In (op_addr op) (tile_addrs a shared_addr).
Proof.
  intros Hin. apply (In_store_ops convert_out hopper R a shared_addr Hok src op Hcase) in Hin.
  destruct Hin as (i & j & l & k & e & Hi & Hj & Hslot & ->).
  apply In_tile_addrs. eexists. split; [|reflexivity].
  cbn [fst snd]. apply (frag_coord_in_tile R a shared_addr Hok); try assumption.
  intros Hl S. apply Hcase. split; assumption.
Qed.

Lemma tile_addr_stored (b : Z) :
  In b (tile_addrs a shared_addr) -> In b (map op_addr ops).
Proof.
  intros Hin. apply In_tile_addrs in Hin. destruct Hin as (coord & Hin & <-).
  destruct (frag_coord_onto R a shared_addr Hok coord Hcase Hin)
    as (i & j & l & k & e & Hi & Hj & Hslot & E).
  apply in_map_iff.
  exists (slot_store convert_out R a shared_addr src i j l (k, e)). split.
  - unfold slot_store. cbn [op_addr fst snd]. rewrite E. reflexivity.
  - apply (In_store_ops convert_out hopper R a shared_addr Hok src _ Hcase).
    exists i, j, l, k, e. split; [exact Hi|]. split; [exact Hj|].
    split; [exact Hslot | reflexivity].
Qed.

Lemma store_addrs_NoDup : NoDup (map op_addr ops).
Proof.
  apply NoDup_incl_NoDup with (l := tile_addrs a shared_addr).
  - apply tile_addrs_NoDup.
  - rewrite length_map, length_store_ops. apply Nat.le_refl.
  - intros b. apply tile_addr_stored.
Qed.

Lemma store_addrs_perm : Permutation (map op_addr ops) (tile_addrs a shared_addr).
Proof.
  apply NoDup_Permutation; [apply store_addrs_NoDup | apply tile_addrs_NoDup |].
  intros b. split; [|apply tile_addr_stored].
  intros Hin. apply in_map_iff in Hin. destruct Hin as (op & <- & Hin).
  apply store_addr_in_tile. exact Hin.
Qed.

End Coverage.

Section Engine.
Context `{TileDim}.
Context {U T : Type}.
Variable convert_in : U -> T.
Variable convert_out : T -> U.
Variable hopper : bool.
Variables (R : rt.t) (a : ST.t) (shared_addr : Z).
Hypothesis Hok : transfer_ok R a shared_addr.

Lemma store_compiled (src : fragment T) :
  transfer.store convert_out hopper R a shared_addr src
  = Compiled (transfer.tiles_loop R
                (transfer.store_tile convert_out hopper R a shared_addr src)).
Proof.
  unfold transfer.store. rewrite (static_asserts_ok R a shared_addr Hok). reflexivity.
Qed.

Lemma store_ops_are_stores (src : fragment T) :
  ~ (sizeof (ST.dtype a) = 1 /\ rt.layout R = rt_layout.col) ->
  Forall (fun op : mem_op U => exists addr v, op = Store addr v)
    (transfer.tiles_loop R
       (transfer.store_tile convert_out hopper R a shared_addr src)).
Proof.
  intros Hcase. apply Forall_forall. intros op Hin.
  apply (In_store_ops convert_out hopper R a shared_addr Hok src op Hcase) in Hin.
  destruct Hin as (i & j & l & k & e & _ & _ & _ & ->).
  unfold slot_store. eexists. eexists. reflexivity.
Qed.

(** Property X7.  [store] issues plain stores only, and their addresses are
    the element addresses of the tile, each exactly once (the addresses of
    the operations are a permutation of the duplicate-free list of element
    addresses). *)
Theorem store_writes_each_element_once (src : fragment T) :
  ~ (sizeof (ST.dtype a) = 1 /\ rt.layout R = rt_layout.col) ->
  exists ops,
    transfer.store convert_out hopper R a shared_addr src = Compiled ops /\
    Forall (fun op => exists addr v, op = Store addr v) ops /\
    Permutation (map op_addr ops) (tile_addrs a shared_addr) /\
    NoDup (tile_addrs a shared_addr).
Proof.
  intros Hcase. eexists. split; [apply store_compiled|].
  split; [apply store_ops_are_stores; exact Hcase|].
  split.
  - apply (store_addrs_perm R a shared_addr Hok convert_out hopper src Hcase).
  - apply (tile_addrs_NoDup R a shared_addr Hok).
Qed.

(** Property X8.  In every case but the 1-byte column layout, the lanes of
    [store] never write the same address, so the memory [store] leaves does
    not depend on the order in which the operations of the warp are
    performed. *)
Theorem store_order_independent (add : U -> U -> U) (src : fragment T)
    (m : Z -> U) :
  ~ (sizeof (ST.dtype a) = 1 /\ rt.layout R = rt_layout.col) ->
  exists ops,
    transfer.store convert_out hopper R a shared_addr src = Compiled ops /\
    forall ops', Permutation ops ops' ->
    forall b, run add ops' m b = run add ops m b.
Proof.
  intros Hcase. eexists. split; [apply store_compiled|].
  intros ops' Hp b. apply run_perm; [|exact Hp].
  apply (store_addrs_NoDup R a shared_addr Hok convert_out hopper src Hcase).
Qed.

(** Property X9.  In every case but the 1-byte column layout, [store]
    changes nothing outside the tile: an address that is not an element
    address of the tile keeps its value; for a subtile, so does every
    element of the parent outside the subtile's block. *)
Theorem store_leaves_rest_untouched (add : U -> U -> U) (src : fragment T)
    (m : Z -> U) :
  ~ (sizeof (ST.dtype a) = 1 /\ rt.layout R = rt_layout.col) ->
  exists ops,
    transfer.store convert_out hopper R a shared_addr src = Compiled ops /\
    (forall b, ~ In b (tile_addrs a shared_addr) -> run add ops m b = m b) /\
    (forall p, in_tile (st.rows (ST_parent a)) (st.cols (ST_parent a)) p ->
       ~ in_tile (ST.rows a) (ST.cols a)
           (mk_int2 (x p - ST.row_offset a) (y p - ST.col_offset a)) ->
       run add ops m (st.idx (ST_parent a) shared_addr p)
       = m (st.idx (ST_parent a) shared_addr p)).
Proof.
  intros Hcase. eexists. split; [apply store_compiled|].
  assert (Hframe : forall b, ~ In b (tile_addrs a shared_addr) ->
            run add (transfer.tiles_loop R
              (transfer.store_tile convert_out hopper R a shared_addr src)) m b = m b).
  { intros b Hb. apply run_frame. intros op Hin Eb. apply Hb. rewrite <- Eb.
    apply (store_addr_in_tile R a shared_addr Hok convert_out hopper src Hcase).
    exact Hin. }
  split; [exact Hframe|].
  intros p Hp Hout. apply Hframe. intros Hin. apply Hout.
  apply (In_tile_addrs a shared_addr) in Hin.
  destruct Hin as ([r c] & Hin & E).
  rewrite ST_idx_parent in E.
  apply idx_inj in E.
  - rewrite <- E. cbn [x y].
    replace (r + ST.row_offset a - ST.row_offset a) with r by lia.
    replace (c + ST.col_offset a - ST.col_offset a) with c by lia.
    exact Hin.
  - apply (ok_parent _ _ _ Hok).
  - apply (ok_aligned _ _ _ Hok).
  - rewrite <- ST_dtype_parent. apply (ok_fits _ _ _ Hok).
  - apply (ok_in_parent R a shared_addr Hok). exact Hin.
  - exact Hp.
Qed.

Lemma load_compiled (m : Z -> U) (dst : fragment T) (i j l : Z) :
  0 <= i < rt.height R -> 0 <= j < rt.width R ->
  exists f,
    transfer.load convert_in R a m shared_addr dst = Compiled f /\
    f l i j = transfer.load_tile convert_in R a m shared_addr dst i j l.
Proof.
  intros Hi Hj. unfold transfer.load.
  rewrite (static_asserts_ok R a shared_addr Hok). eexists. split; [reflexivity|].
  cbv beta. rewrite (in_loop_test R a i j Hi Hj). reflexivity.
Qed.

(** Property X10.  In every case [load] has (all but the 1-byte column
    layout), [load] gives component [e] of register [k] of [tiles[i][j]] in
    lane [l] the converted element at the tile coordinate
    [frag_coord ... i j l k e], and reads nothing else: two memories that
    agree on the element addresses of the tile load the same fragment. *)
Theorem load_fragment_layout (m : Z -> U) (dst : fragment T) :
  ~ (sizeof (ST.dtype a) = 1 /\ rt.layout R = rt_layout.col) ->
  exists f,
    transfer.load convert_in R a m shared_addr dst = Compiled f /\
    (forall i j l k e,
       0 <= i < rt.height R -> 0 <= j < rt.width R ->
       slot_ok (sizeof (ST.dtype a)) l k e ->
       f l i j k e
       = convert_in (m (ST.idx a shared_addr
           (frag_coord (sizeof (ST.dtype a)) (rt.layout R)
              (rt.tile_size_row R) (rt.tile_size_col R) i j l k e)))) /\
    (forall m' f',
       (forall b, In b (tile_addrs a shared_addr) -> m' b = m b) ->
       transfer.load convert_in R a m' shared_addr dst = Compiled f' ->
       forall i j l k e,
         0 <= i < rt.height R -> 0 <= j < rt.width R ->
         slot_ok (sizeof (ST.dtype a)) l k e ->
         f' l i j k e = f l i j k e).
Proof.
  intros Hcase.
  assert (Hslot : forall (m0 : Z -> U) f0,
            transfer.load convert_in R a m0 shared_addr dst = Compiled f0 ->
            forall i j l k e,
              0 <= i < rt.height R -> 0 <= j < rt.width R ->
              slot_ok (sizeof (ST.dtype a)) l k e ->
              f0 l i j k e
              = convert_in (m0 (ST.idx a shared_addr
                  (frag_coord (sizeof (ST.dtype a)) (rt.layout R)
                     (rt.tile_size_row R) (rt.tile_size_col R) i j l k e)))).
  { intros m0 f0 E0 i j l k e Hi Hj Hs.
    destruct (load_compiled m0 dst i j l Hi Hj) as (f1 & E1 & Ef).
    rewrite E0 in E1. injection E1 as <-. rewrite Ef.
    apply (load_tile_slot convert_in R a shared_addr Hok); assumption. }
  unfold transfer.load at 1. rewrite (static_asserts_ok R a shared_addr Hok).
  eexists. split; [reflexivity|].
  assert (E : transfer.load convert_in R a m shared_addr dst = Compiled
            (fun laneid i j =>
             if (0 <=? i) && (i <? rt.height R) && (0 <=? j) && (j <? rt.width R)
             then transfer.load_tile convert_in R a m shared_addr dst i j laneid
             else dst laneid i j)).
  { unfold transfer.load. rewrite (static_asserts_ok R a shared_addr Hok). reflexivity. }
  split.
  - apply (Hslot m _ E).
  - intros m' f' Hagree E' i j l k e Hi Hj Hs.
    rewrite (Hslot m' f' E' i j l k e Hi Hj Hs).
    rewrite (Hslot m _ E i j l k e Hi Hj Hs).
    rewrite Hagree; [reflexivity|].
    apply (In_tile_addrs a shared_addr). eexists. split; [|reflexivity].
    apply (frag_coord_in_tile R a shared_addr Hok); try assumption.
    intros Hl S. apply Hcase. split; assumption.
Qed.

(** Property X11.  The round trip from registers, in every case [load] has
    (all but the 1-byte column layout): [load] after [store] returns the
    stored register tile, whatever memory held before, when the conversion
    back undoes the conversion out. *)
Theorem load_after_store (add : U -> U -> U) (src dst : fragment T) (m : Z -> U) :
  (forall t, convert_in (convert_out t) = t) ->
  ~ (sizeof (ST.dtype a) = 1 /\ rt.layout R = rt_layout.col) ->
  exists ops f,
    transfer.store convert_out hopper R a shared_addr src = Compiled ops /\
    transfer.load convert_in R a (run add ops m) shared_addr dst = Compiled f /\
    forall i j l k e,
      0 <= i < rt.height R -> 0 <= j < rt.width R ->
      slot_ok (sizeof (ST.dtype a)) l k e ->
      f l i j k e = src l i j k e.
Proof.
  intros Hconv Hcase.
  eexists. eexists. split; [apply store_compiled|].
  unfold transfer.load. rewrite (static_asserts_ok R a shared_addr Hok).
  split; [reflexivity|].
  intros i j l k e Hi Hj Hs. cbv beta.
  rewrite (in_loop_test R a i j Hi Hj).
  rewrite (load_tile_slot convert_in R a shared_addr Hok _ dst i j l k e Hcase Hi Hj Hs).
  set (op := slot_store convert_out R a shared_addr src i j l (k, e)).
  change (ST.idx a shared_addr _) with (op_addr op).
  rewrite run_unique.
  - subst op. unfold slot_store. cbn [exec op_addr fst snd].
    rewrite Z.eqb_refl. apply Hconv.
  - apply (store_addrs_NoDup R a shared_addr Hok convert_out hopper src Hcase).
  - apply (In_store_ops convert_out hopper R a shared_addr Hok src op Hcase).
    exists i, j, l, k, e. split; [exact Hi|]. split; [exact Hj|].
    split; [exact Hs | reflexivity].
Qed.

Lemma atomic_adds_as_stores (src : fragment T) :
  sizeof (ST.dtype a) <> 1 ->
  transfer.tiles_loop R (transfer.atomic_add_tile convert_out R a shared_addr src)
  = map as_atomic
      (transfer.tiles_loop R
         (transfer.store_tile convert_out false R a shared_addr src)).
Proof.
  intros Hsz.
  assert (Hcase : ~ (sizeof (ST.dtype a) = 1 /\ rt.layout R = rt_layout.col))
    by (intros [E _]; contradiction).
  unfold transfer.tiles_loop.
  rewrite map_flat_map_comm. apply flat_map_ext_in. intros i Hi.
  rewrite map_flat_map_comm. apply flat_map_ext_in. intros j Hj.
  apply In_range in Hi, Hj.
  rewrite (atomic_add_tile_slots convert_out R a shared_addr Hok src i j Hsz Hi Hj).
  rewrite (store_tile_slots convert_out false R a shared_addr Hok src i j Hcase Hi Hj).
  rewrite map_flat_map_comm. apply flat_map_ext_in. intros l _.
  rewrite map_map. reflexivity.
Qed.

Lemma op_addr_as_atomic (op : mem_op U) : op_addr (as_atomic op) = op_addr op.
Proof. destruct op; reflexivity. Qed.

(** Property X12.  [atomic_add] adds every fragment element to its tile
    element exactly once: afterwards the element holds [add] of its old value
    and the converted fragment element, and no other address changed. *)
Theorem atomic_add_accumulates (add : U -> U -> U) (src : fragment T) (m : Z -> U) :
  sizeof (ST.dtype a) <> 1 ->
  exists adds,
    transfer.atomic_add convert_out R a shared_addr src = Compiled adds /\
    (forall i j l k e,
       0 <= i < rt.height R -> 0 <= j < rt.width R ->
       slot_ok (sizeof (ST.dtype a)) l k e ->
       let b := ST.idx a shared_addr
                  (frag_coord (sizeof (ST.dtype a)) (rt.layout R)
                     (rt.tile_size_row R) (rt.tile_size_col R) i j l k e) in
       run add adds m b = add (m b) (convert_out (src l i j k e))) /\
    (forall b, ~ In b (tile_addrs a shared_addr) -> run add adds m b = m b).
Proof.
  intros Hsz.
  assert (Hcase : ~ (sizeof (ST.dtype a) = 1 /\ rt.layout R = rt_layout.col))
    by (intros [E _]; contradiction).
  unfold transfer.atomic_add. rewrite (static_asserts_ok R a shared_addr Hok).
  destruct (Z.eqb_spec (sizeof (ST.dtype a)) 1) as [E | _]; [contradiction|].
  cbn [negb]. eexists. split; [reflexivity|].
  rewrite atomic_adds_as_stores by assumption.
  set (stores := transfer.tiles_loop R
                   (transfer.store_tile convert_out false R a shared_addr src)).
  assert (Hmap : map op_addr (map as_atomic stores) = map op_addr stores).
  { rewrite map_map. apply map_ext. apply op_addr_as_atomic. }
  split.
  - intros i j l k e Hi Hj Hs.
    set (op := slot_store convert_out R a shared_addr src i j l (k, e)).
    change (ST.idx a shared_addr _) with (op_addr (as_atomic op)).
    rewrite run_unique.
    + subst op. unfold slot_store. cbn [as_atomic exec op_addr fst snd].
      rewrite Z.eqb_refl. reflexivity.
    + rewrite Hmap.
      apply (store_addrs_NoDup R a shared_addr Hok convert_out false src Hcase).
    + apply in_map.
      apply (In_store_ops convert_out false R a shared_addr Hok src op Hcase).
      exists i, j, l, k, e. split; [exact Hi|]. split; [exact Hj|].
      split; [exact Hs | reflexivity].
  - intros b Hb. apply run_frame. intros op Hin Eb. apply Hb. rewrite <- Eb.
    apply in_map_iff in Hin. destruct Hin as (op0 & <- & Hin0).
    rewrite op_addr_as_atomic.
    apply (store_addr_in_tile R a shared_addr Hok convert_out false src Hcase).
    exact Hin0.
Qed.

End Engine.

(** ** The warp-scope assignment loop *)

Lemma fill_loop_In (fuel : nat) (n i v : Z) :
  (Z.to_nat (n - i) <= fuel)%nat ->
  (In v (fill_loop fuel n i) <-> i <= v < n /\ (v - i) mod WARP_THREADS = 0).
Proof.
  unfold WARP_THREADS. revert i. induction fuel as [|fuel IH]; intros i Hf.
  - cbn [fill_loop In]. split; [tauto | lia].
  - cbn [fill_loop]. unfold WARP_THREADS. destruct (Z.ltb_spec i n) as [L | L].
    + cbn [In]. rewrite IH by lia. split.
      * intros [<- | (B & M)].
        -- rewrite Z.sub_diag. split; [lia | reflexivity].
        -- split; [lia|]. replace (v - i) with (v - (i + 32) + 1 * 32) by ring.
           rewrite Z.mod_add by lia. exact M.
      * intros (B & M).
        destruct (Z.eq_dec i v) as [E | Hne]; [left; exact E | right].
        assert (i + 32 <= v) by (Z.div_mod_to_equations; lia).
        split; [lia|]. replace (v - (i + 32)) with (v - i + (-1) * 32) by ring.
        rewrite Z.mod_add by lia. exact M.
    + cbn [In]. split; [tauto | lia].
Qed.

Lemma fill_loop_stable (fuel fuel' : nat) (n i : Z) :
  (Z.to_nat (n - i) <= fuel)%nat -> (Z.to_nat (n - i) <= fuel')%nat ->
  fill_loop fuel n i = fill_loop fuel' n i.
Proof.
  revert fuel' i. induction fuel as [|fuel IH]; intros fuel' i Hf Hf'.
  - destruct fuel' as [|fuel']; [reflexivity|]. cbn [fill_loop].
    destruct (Z.ltb_spec i n); [lia | reflexivity].
  - cbn [fill_loop]. destruct (Z.ltb_spec i n) as [L | L].
    + destruct fuel' as [|fuel']; [lia|]. cbn [fill_loop].
      destruct (Z.ltb_spec i n); [|lia]. f_equal.
      apply IH; unfold WARP_THREADS; lia.
    + destruct fuel' as [|fuel']; [reflexivity|]. cbn [fill_loop].
      destruct (Z.ltb_spec i n); [lia | reflexivity].
Qed.

Lemma fill_loop_ge (fuel : nat) (n i v : Z) :
  In v (fill_loop fuel n i) -> i <= v.
Proof.
  revert i. induction fuel as [|fuel IH]; intros i; cbn [fill_loop]; [intros []|].
  destruct (i <? n); [|intros []]. intros [<- | Hin]; [lia|].
  apply IH in Hin. unfold WARP_THREADS in Hin. lia.
Qed.

Lemma fill_loop_NoDup (fuel : nat) (n i : Z) : NoDup (fill_loop fuel n i).
Proof.
  revert i. induction fuel as [|fuel IH]; intros i; cbn [fill_loop]; [constructor|].
  destruct (i <? n); [|constructor]. constructor; [|apply IH].
  intros Hin. apply fill_loop_ge in Hin. unfold WARP_THREADS in Hin. lia.
Qed.

Lemma fill_indices_In (n laneid v : Z) :
  0 <= laneid ->
  (In v (fill_indices n laneid)
   <-> laneid <= v < n /\ (v - laneid) mod WARP_THREADS = 0).
Proof. intros Hl. apply fill_loop_In. lia. Qed.

Lemma NoDup_flat_map_disjoint {A B : Type} (f : A -> list B) (la : list A) :
  NoDup la -> (forall a, In a la -> NoDup (f a)) ->
  (forall a a' v, In a la -> In a' la -> In v (f a) -> In v (f a') -> a = a') ->
  NoDup (flat_map f la).
Proof.
  intros Ha Hf Hd. induction la as [|a la IH]; [constructor|].
  cbn [flat_map]. inversion Ha as [|? ? Hnotin Ha']; subst.
  apply NoDup_app.
  - apply Hf. left. reflexivity.
  - apply IH; [exact Ha' | |].
    + intros b Hb. apply Hf. right. exact Hb.
    + intros b b' v Hb Hb'. apply Hd; right; assumption.
  - intros v Hv Hv'. apply in_flat_map in Hv'. destruct Hv' as (a' & Hia' & Hv').
    assert (a = a') by (apply (Hd a a' v); try assumption;
                         [left; reflexivity | right; exact Hia']).
    subst a'. contradiction.
Qed.

Lemma warp_indices_perm (n : Z) :
  Permutation (flat_map (fill_indices n) lanes) (range n).
Proof.
  apply NoDup_Permutation.
  - apply NoDup_flat_map_disjoint.
    + apply NoDup_range.
    + intros l _. apply fill_loop_NoDup.
    + intros l l' v Hl Hl' Hv Hv'. apply In_lanes in Hl, Hl'.
      apply fill_indices_In in Hv, Hv'; try lia.
      unfold WARP_THREADS in *. Z.div_mod_to_equations. lia.
  - apply NoDup_range.
  - intros v. rewrite in_flat_map, In_range. split.
    + intros (l & Hl & Hv). apply In_lanes in Hl.
      apply fill_indices_In in Hv; lia.
    + intros Hv. exists (v mod 32). split.
      * apply In_lanes. apply Z.mod_pos_bound. lia.
      * apply fill_indices_In; [apply Z.mod_pos_bound; lia|].
        unfold WARP_THREADS. Z.div_mod_to_equations. lia.
Qed.

Section Fill.
Context {U : Type}.
Variables (add : U -> U -> U) (sz data n : Z) (value : U).

Lemma warp_fill_addrs :
  map op_addr (warp_fill sz data n value)
  = map (fun i => data + sz * i) (flat_map (fill_indices n) lanes).
Proof.
  unfold warp_fill. rewrite !map_flat_map_comm.
  apply flat_map_ext_in. intros l _. rewrite map_map. reflexivity.
Qed.

Lemma In_warp_fill (op : mem_op U) :
  In op (warp_fill sz data n value)
  <-> exists i, 0 <= i < n /\ op = Store (data + sz * i) value.
Proof.
  unfold warp_fill. rewrite in_flat_map. split.
  - intros (l & Hl & Hin). apply In_lanes in Hl.
    apply in_map_iff in Hin. destruct Hin as (i & <- & Hi).
    apply fill_indices_In in Hi; [|lia]. exists i. split; [lia | reflexivity].
  - intros (i & Hi & ->).
    assert (Hin : In i (flat_map (fill_indices n) lanes)).
    { eapply Permutation_in; [apply Permutation_sym, warp_indices_perm|].
      apply In_range. exact Hi. }
    apply in_flat_map in Hin. destruct Hin as (l & Hl & Hin).
    exists l. split; [exact Hl|]. apply in_map_iff. exists i. split; [reflexivity | exact Hin].
Qed.

Lemma warp_fill_written (m : Z -> U) (i : Z) :
  0 <= i < n -> run add (warp_fill sz data n value) m (data + sz * i) = value.
Proof.
  intros Hi.
  apply (run_stores add (fun _ => value)).
  - apply Forall_forall. intros op Hin. apply In_warp_fill in Hin.
    destruct Hin as (k & _ & ->). eexists. reflexivity.
  - exists (Store (data + sz * i) value). split; [|reflexivity].
    apply In_warp_fill. exists i. split; [exact Hi | reflexivity].
Qed.

Lemma warp_fill_frame (m : Z -> U) (b : Z) :
  (forall i, 0 <= i < n -> b <> data + sz * i) ->
  run add (warp_fill sz data n value) m b = m b.
Proof.
  intros Hb. apply run_frame. intros op Hin E. apply In_warp_fill in Hin.
  destruct Hin as (i & Hi & ->). cbn [op_addr] in E. apply (Hb i Hi). symmetry. exact E.
Qed.

End Fill.

(** Property X13.  The loop of [operator=]: [n] iterations let every lane
    leave it; lane [laneid] visits the indices below [n] congruent to
    [laneid] modulo [WARP_THREADS]; together the 32 lanes visit every index
    [0 .. n-1] exactly once. *)
Theorem assign_loop_partitions_indices (n : Z) :
  (forall laneid fuel, 0 <= laneid -> (Z.to_nat n <= fuel)%nat ->
     fill_loop fuel n laneid = fill_indices n laneid) /\
  (forall laneid i, 0 <= laneid ->
     (In i (fill_indices n laneid)
      <-> laneid <= i < n /\ (i - laneid) mod WARP_THREADS = 0)) /\
  Permutation (flat_map (fill_indices n) lanes) (range n).
Proof.
  split; [|split].
  - intros l fuel Hl Hf. apply fill_loop_stable; lia.
  - intros l i Hl. apply fill_indices_In. exact Hl.
  - apply warp_indices_perm.
Qed.

Section SharedVector.
Context `{TileDim}.
Context {U : Type}.
Variable add : U -> U -> U.

(** Property X14.  Under [KITTENS_HOPPER] the allocation of a shared vector
    is its byte size rounded up to the next multiple of 128 bytes (for an
    element size dividing 128): at least [length] elements, a multiple of
    128 bytes, less than 128 bytes more; without it, exactly [length]. *)
Theorem sv_alloc_rounds_up (s : sv.t) :
  0 <= sv.length s -> 0 < sizeof (sv.T s) -> 128 mod sizeof (sv.T s) = 0 ->
  let n := sv.num_alloc_elements true s in
  sv.length s <= n /\
  (n * sizeof (sv.T s)) mod 128 = 0 /\
  n * sizeof (sv.T s) < sv.length s * sizeof (sv.T s) + 128 /\
  sv.num_alloc_elements false s = sv.length s.
Proof.
  intros Hlen Hsz Hdiv. cbv zeta. unfold sv.num_alloc_elements.
  set (sz := sizeof (sv.T s)) in *. set (len := sv.length s) in *.
  clearbody sz len.
  apply Z.mod_divide in Hdiv; [|lia]. destruct Hdiv as [k Ek].
  assert (Hk : 0 < k) by nia.
  assert (E : 128 / sz = k) by (rewrite Ek; apply Z.div_mul; lia).
  rewrite E.
  set (q := (len * sz + 127) / 128).
  assert (Hq : 128 * q <= len * sz + 127 < 128 * q + 128).
  { subst q. pose proof (Z.div_mod (len * sz + 127) 128 ltac:(lia)).
    pose proof (Z.mod_pos_bound (len * sz + 127) 128 ltac:(lia)). lia. }
  clearbody q.
  assert (Eq : q * k * sz = 128 * q) by (rewrite Ek; ring).
  split; [|split; [|split]].
  - nia.
  - rewrite Eq, Z.mul_comm. apply Z.mod_mul. lia.
  - nia.
  - reflexivity.
Qed.

(** Property X15.  After [sv = value] every element [sv[i]], [i < length],
    reads [value], and memory at any other index (the padding of the
    allocation) is unchanged. *)
Theorem sv_assign_fills (s : sv.t) (data : Z) (value : U) (m : Z -> U) :
  0 < sizeof (sv.T s) ->
  (forall i, 0 <= i < sv.length s ->
     run add (sv.assign s data value) m (sv.subscript s data i) = value) /\
  (forall i, ~ 0 <= i < sv.length s ->
     run add (sv.assign s data value) m (sv.subscript s data i)
     = m (sv.subscript s data i)).
Proof.
  intros Hsz. unfold sv.assign, sv.subscript. split.
  - intros i Hi. apply warp_fill_written. exact Hi.
  - intros i Hi. apply warp_fill_frame. intros k Hk E. apply Hi.
    assert (i = k) by nia. subst k. exact Hk.
Qed.

End SharedVector.

Section SubtileAssign.
Context `{TileDim}.
Context {U : Type}.
Variable add : U -> U -> U.
Variables (S : st_subtile.t) (value : U) (m : Z -> U).

(** Property X16.  [operator=] of a subtile writes [value] to the first
    [rows * cols] elements of the buffer [data] points to (the parent's), in
    storage order, and to nothing else; the offsets play no part. *)
Theorem subtile_assign_fills_buffer_prefix :
  0 < sizeof (st_subtile.T S) ->
  let sz := sizeof (st_subtile.T S) in
  let n := st_subtile.rows S * st_subtile.cols S in
  (forall i, 0 <= i < n ->
     run add (st_subtile_assign S value) m (st_subtile.data S + sz * i) = value) /\
  (forall b, (forall i, 0 <= i < n -> b <> st_subtile.data S + sz * i) ->
     run add (st_subtile_assign S value) m b = m b).
Proof.
  intros Hsz. cbv zeta. unfold st_subtile_assign, st_subtile.num_elements. split.
  - intros i Hi. apply warp_fill_written. exact Hi.
  - intros b Hb. apply warp_fill_frame. exact Hb.
Qed.

Hypothesis Hs : supported (st_subtile.ST S).
Hypothesis Hal : st_subtile.data S mod st_subtile.swizzle_bytes S = 0.

Lemma subtile_subscript_unfold (coord : int2) :
  st_subtile.subscript_coord S coord
  = xor_swizzle (st.swizzle_bytes (st_subtile.ST S))
      (st_subtile.data S + sizeof (st.T (st_subtile.ST S)) *
         element_offset
           (st.swizzle_bytes (st_subtile.ST S) / sizeof (st.T (st_subtile.ST S)))
           (st.rows (st_subtile.ST S))
           (x coord + st_subtile.row_offset S) (y coord + st_subtile.col_offset S)).
Proof. reflexivity. Qed.

(** Property X17.  For a subtile that views the whole of its parent,
    [operator=] then [operator[]]: every element of the tile reads
    [value]. *)
Theorem subtile_assign_full_view (coord : int2) :
  st_subtile.rows S = st.rows (st_subtile.ST S) ->
  st_subtile.cols S = st.cols (st_subtile.ST S) ->
  st_subtile.row_offset S = 0 -> st_subtile.col_offset S = 0 ->
  in_tile (st_subtile.rows S) (st_subtile.cols S) coord ->
  run add (st_subtile_assign S value) m (st_subtile.subscript_coord S coord) = value.
Proof.
  intros Er Ec Ero Eco [Hr Hc].
  destruct (supported_geometry _ Hs) as (Hsz & Hper & Esz & Hsc & HR & n & Hn & Ecols).
  rewrite subtile_subscript_unfold. rewrite Ero, Eco, !Z.add_0_r.
  unfold st_subtile_assign, st_subtile.num_elements, st_subtile.T.
  unfold st_subtile.swizzle_bytes in Hal.
  rewrite Er, Ec in *.
  set (P := st_subtile.ST S) in *.
  set (sz := sizeof (st.T P)) in *. set (sb := st.swizzle_bytes P) in *.
  set (sc := sb / sz) in *. set (data := st_subtile.data S) in *.
  set (rows := st.rows P) in *. set (cols := st.cols P) in *.
  assert (Hsb : 0 < sb) by (unfold period_ok in Hper; lia).
  pose proof (element_offset_range sc rows Hsc HR n (x coord) (y coord) Hr
                ltac:(rewrite <- Ecols; exact Hc)) as B.
  rewrite <- Ecols in B.
  set (off := element_offset sc rows (x coord) (y coord)) in *.
  clearbody off sc sb sz data rows cols.
  assert (Hsize : sz * (rows * cols) = sb * (rows * n)).
  { rewrite Ecols, <- Esz. ring. }
  assert (Hhi : (data + sz * (rows * cols)) mod sb = 0).
  { rewrite Hsize, Z.mul_comm, Z.mod_add by lia. exact Hal. }
  assert (Ha : data <= data + sz * off < data + sz * (rows * cols)) by nia.
  pose proof (xor_swizzle_range sb data (data + sz * (rows * cols)) _ Hper Hal Hhi Ha) as Bv.
  pose proof (xor_swizzle_congr sb sz (data + sz * off) Hper Hsz) as Cv.
  set (v := xor_swizzle sb (data + sz * off)) in *. clearbody v.
  assert (Hpsz : data mod sz = 0).
  { apply Z.mod_divide in Hal; [|lia]. destruct Hal as [k ->].
    rewrite <- Esz. replace (k * (sz * sc)) with (k * sc * sz) by ring.
    apply Z.mod_mul. lia. }
  assert (Hv : (v - data) mod sz = 0).
  { rewrite Zminus_mod, Cv, Hpsz, Z.sub_0_r, Z.mod_mod by lia.
    rewrite (Z.mul_comm sz off), Z.mod_add by lia. exact Hpsz. }
  apply Z.mod_divide in Hv; [|lia]. destruct Hv as [k Ek].
  replace v with (data + sz * k) by lia.
  apply warp_fill_written. nia.
Qed.

(** Property X18.  For a subtile no wider than a swizzle row whose block
    starts at or below its own height ([rows <= row_offset]), [operator=]
    changes none of the elements [operator[]] of that subtile designates. *)
Theorem subtile_assign_misses_offset_block (coord : int2) :
  0 <= st_subtile.rows S <= st_subtile.row_offset S ->
  0 <= st_subtile.col_offset S ->
  st_subtile.cols S
    <= st_subtile.swizzle_bytes S / sizeof (st_subtile.T S) ->
  in_tile (st_subtile.rows S) (st_subtile.cols S) coord ->
  run add (st_subtile_assign S value) m (st_subtile.subscript_coord S coord)
  = m (st_subtile.subscript_coord S coord).
Proof.
  intros Hro Hco Hcols [Hr Hc].
  destruct (supported_geometry _ Hs) as (Hsz & Hper & Esz & Hsc & HR & n & Hn & Ecols).
  rewrite subtile_subscript_unfold.
  unfold st_subtile_assign, st_subtile.num_elements, st_subtile.T.
  unfold st_subtile.swizzle_bytes, st_subtile.T in *.
  set (P := st_subtile.ST S) in *.
  set (sz := sizeof (st.T P)) in *. set (sb := st.swizzle_bytes P) in *.
  set (sc := sb / sz) in *. set (data := st_subtile.data S) in *.
  set (rows := st_subtile.rows S) in *. set (cols := st_subtile.cols S) in *.
  set (ro := st_subtile.row_offset S) in *. set (co := st_subtile.col_offset S) in *.
  assert (Hsb : 0 < sb) by (unfold period_ok in Hper; lia).
  rewrite (element_offset_split sc (st.rows P) Hsc) by lia.
  assert (Hq : 0 <= (y coord + co) / sc) by (apply Z.div_pos; lia).
  pose proof (Z.mod_pos_bound (y coord + co) sc Hsc) as Hm.
  set (q := (y coord + co) / sc) in *. set (cm := (y coord + co) mod sc) in *.
  set (PR := st.rows P) in *.
  clearbody q cm sc sb sz data rows cols ro co PR.
  set (a := data + sz * ((q * PR + (x coord + ro)) * sc + cm)).
  apply Z.mod_divide in Hal; [|lia]. destruct Hal as [k Ek].
  assert (Ha : (k + rows) * sb <= a).
  { subst a. rewrite Ek, <- Esz. nia. }
  assert (Hdiv : k + rows <= a / sb).
  { apply Z.div_le_lower_bound; lia. }
  pose proof (xor_swizzle_div sb a Hper) as Ev.
  set (v := xor_swizzle sb a) in *. clearbody v a.
  assert (Hv : (k + rows) * sb <= v).
  { pose proof (Z.div_mod v sb ltac:(lia)).
    pose proof (Z.mod_pos_bound v sb Hsb). nia. }
  apply warp_fill_frame. intros i Hi E.
  assert (sz * i < sz * (rows * cols)) by nia.
  assert (sz * (rows * cols) <= rows * sb) by (rewrite <- Esz; nia).
  nia.
Qed.

End SubtileAssign.

(** ** The operands of the warpgroup instructions *)

(** Property X19.  In the statement [rt_st] and [st_st] reach for an accepted
    type pair, every numbered placeholder stands for the operand its position
    calls for: the predicate tests [scale_d], the first list is the output
    list in order, A is the four registers of [a_rt] (or [a_st_desc]), B is
    [b_st_desc], scale-a is the literal 1, then come [scale_b] and the
    transpose flags.  The opcode and the number of accumulators are those of
    the dispatcher. *)
Theorem wgmma_placeholders_bind_operands (T_D T_AB : dtype) :
  base.type_assert T_D T_AB = true ->
  exists r s,
    base_asm.rt_st T_D T_AB = Some r /\ base_asm.st_st T_D T_AB = Some s /\
    (base_asm.operand_at r (base_asm.setp r) = Some base_asm.scale_d /\
     map (base_asm.operand_at r) (base_asm.d r) = map Some (base_asm.outputs r) /\
     map (base_asm.operand_at r) (base_asm.a r)
       = [Some (base_asm.a_reg 0); Some (base_asm.a_reg 1);
          Some (base_asm.a_reg 2); Some (base_asm.a_reg 3)] /\
     base_asm.operand_at r (base_asm.b r) = Some base_asm.b_st_desc /\
     base_asm.imm_scale_a r = 1 /\
     map (base_asm.operand_at r) (base_asm.after_p r)
       = [Some base_asm.scale_b; Some base_asm.trans_b]) /\
    (base_asm.operand_at s (base_asm.setp s) = Some base_asm.scale_d /\
     map (base_asm.operand_at s) (base_asm.d s) = map Some (base_asm.outputs s) /\
     map (base_asm.operand_at s) (base_asm.a s) = [Some base_asm.a_st_desc] /\
     base_asm.operand_at s (base_asm.b s) = Some base_asm.b_st_desc /\
     base_asm.imm_scale_a s = 1 /\
     map (base_asm.operand_at s) (base_asm.after_p s)
       = [Some base_asm.scale_b; Some base_asm.trans_a; Some base_asm.trans_b]) /\
    (forall trans_a trans_b scale_b scale_d,
       base.scale_assert scale_b = true ->
       exists w w',
         base.rt_st T_D T_AB trans_a trans_b scale_b scale_d = Compiled (Some w) /\
         base.st_st T_D T_AB trans_a trans_b scale_b scale_d = Compiled (Some w') /\
         base.opcode w = base_asm.opcode r /\
         base.opcode w' = base_asm.opcode s /\
         base.accumulators w = Z.of_nat (List.length (base_asm.outputs r)) /\
         base.accumulators w' = Z.of_nat (List.length (base_asm.outputs s))).
Proof.
  intros Ht. apply type_assert_spec in Ht.
  destruct Ht as [[-> ->] | [[-> ->] | [-> ->]]].
  all: eexists; eexists; split; [reflexivity|]; split; [reflexivity|].
  all: split; [repeat split; reflexivity|].
  all: split; [repeat split; reflexivity|].
  all: intros ta tb sb sd Hs; unfold base.rt_st, base.st_st; rewrite Hs;
       cbn; eexists; eexists; repeat split; reflexivity.
Qed.

(** Property X20.  The output list names every accumulator of the 16 x 80
    destination tile exactly once, in order: both components of the four
    registers of each of its 80 / 16 subtiles for [float], each 32-bit
    register for [half]; over the 128 threads of a warpgroup that is the
    64 x 80 result. *)
Theorem wgmma_accumulators_cover_dst (T_D T_AB : dtype) :
  base.type_assert T_D T_AB = true ->
  exists r s,
    base_asm.rt_st T_D T_AB = Some r /\ base_asm.st_st T_D T_AB = Some s /\
    base_asm.outputs s = base_asm.outputs r /\
    base_asm.outputs r =
      flat_map (fun tile =>
        flat_map (fun reg =>
          if dtype_eqb T_D float
          then [base_asm.acc tile reg 0; base_asm.acc tile reg 1]
          else [base_asm.acc_reg tile reg])
          (range 4))
        (range (Z.quot 80 16)) /\
    NoDup (base_asm.outputs r) /\
    Z.of_nat (List.length (base_asm.outputs r)) * (4 / sizeof T_D) * 128
    = 64 * 80.
Proof.
  intros Ht. apply type_assert_spec in Ht.
  destruct Ht as [[-> ->] | [[-> ->] | [-> ->]]].
  all: eexists; eexists; split; [reflexivity|]; split; [reflexivity|].
  all: split; [reflexivity|]; split; [reflexivity|]; split; [|reflexivity].
  all: cbn [base_asm.outputs base_asm.float_outputs base_asm.half_outputs].
  all: unfold base_asm.float_outputs, base_asm.half_outputs.
  all: repeat (constructor; [cbn [In]; intros Hin;
         repeat (destruct Hin as [Hin | Hin]; [discriminate|]); exact Hin|]).
  all: constructor.
Qed.

(** ** Printouts *)

Lemma map_seq_from (s len : nat) :
  map Z.of_nat (seq s len) = map (fun k => Z.of_nat s + k) (map Z.of_nat (seq 0 len)).
Proof.
  revert s. induction len as [|len IH]; intros s; [reflexivity|].
  cbn [seq map]. f_equal; [lia|].
  rewrite IH. rewrite <- (seq_shift len 0). rewrite !map_map.
  apply map_ext. intros k. lia.
Qed.

Lemma range_app (p q : Z) :
  0 <= p -> 0 <= q -> range (p + q) = range p ++ map (fun k => p + k) (range q).
Proof.
  intros Hp Hq. unfold range.
  rewrite Z2Nat.inj_add by assumption.
  rewrite seq_app, map_app. f_equal. cbn [Nat.add].
  rewrite map_seq_from. rewrite Z2Nat.id by assumption. reflexivity.
Qed.

Lemma filter_all {A : Type} (f : A -> bool) (l : list A) :
  (forall a, In a l -> f a = true) -> filter f l = l.
Proof.
  induction l as [|a l IH]; intros Hf; [reflexivity|].
  cbn [filter]. rewrite Hf by (left; reflexivity).
  rewrite IH by (intros b Hb; apply Hf; right; exact Hb). reflexivity.
Qed.

Lemma filter_none {A : Type} (f : A -> bool) (l : list A) :
  (forall a, In a l -> f a = false) -> filter f l = [].
Proof.
  induction l as [|a l IH]; intros Hf; [reflexivity|].
  cbn [filter]. rewrite Hf by (left; reflexivity).
  apply IH. intros b Hb. apply Hf. right. exact Hb.
Qed.

Lemma In_range_from (p q v : Z) :
  In v (map (fun k => p + k) (range q)) <-> p <= v < p + q.
Proof.
  rewrite in_map_iff. split.
  - intros (k & <- & Hk). apply In_range in Hk. lia.
  - intros Hv. exists (v - p). split; [lia | apply In_range; lia].
Qed.

(** The items of a loop over [0 .. n-1] that skips [b <= i < n - e]. *)
Lemma filter_range_ends (n b e : Z) :
  0 <= b -> 0 <= e -> b + e <= n ->
  filter (fun i => negb ((b <=? i) && (i <? n - e))) (range n)
  = range b ++ map (fun k => n - e + k) (range e).
Proof.
  intros Hb He Hn.
  assert (E : range n = range (b + ((n - e - b) + e))) by (f_equal; ring).
  rewrite E. clear E.
  rewrite range_app, range_app, map_app, !filter_app by lia.
  rewrite map_map.
  rewrite filter_all, filter_none, filter_all.
  - cbn [app]. f_equal. apply map_ext. intros k. ring.
  - intros v Hv. apply in_map_iff in Hv. destruct Hv as (k & <- & Hk).
    apply In_range in Hk. apply negb_true_iff, andb_false_iff. right.
    apply Z.ltb_ge. lia.
  - intros v Hv. apply In_range_from in Hv.
    apply negb_false_iff, andb_true_iff. split; [apply Z.leb_le | apply Z.ltb_lt]; lia.
  - intros v Hv. apply In_range in Hv.
    apply negb_true_iff, andb_false_iff. left. apply Z.leb_gt. lia.
Qed.

Lemma shown_filter (max_display n : Z) :
  0 <= max_display ->
  let show_begin := if n <=? max_display then n else Z.quot max_display 2 in
  let show_end := if n <=? max_display then 0 else Z.quot max_display 2 in
  filter (fun i => negb ((show_begin <=? i) && (i <? n - show_end))) (range n)
  = shown max_display n.
Proof.
  intros Hm. cbv zeta. unfold shown.
  rewrite Z.quot_div_nonneg by lia.
  destruct (Z.leb_spec n max_display) as [L | L].
  - destruct (Z_lt_le_dec n 0) as [Hneg | Hn].
    + unfold range. replace (Z.to_nat n) with 0%nat by lia. reflexivity.
    + rewrite filter_range_ends by lia. cbn [range Z.to_nat seq map].
      apply app_nil_r.
  - assert (0 <= max_display / 2) by (apply Z.div_pos; lia).
    assert (2 * (max_display / 2) <= max_display)
      by (apply Z.mul_div_le; lia).
    apply filter_range_ends; lia.
Qed.

Lemma printed_values_flat_map {A V : Type} (f : A -> list (printf_call V))
    (l : list A) :
  printed_values (flat_map f l) = flat_map (fun a => printed_values (f a)) l.
Proof.
  unfold printed_values. induction l as [|a l IH]; [reflexivity|].
  cbn [flat_map]. rewrite flat_map_app, IH. reflexivity.
Qed.

Lemma printed_values_app {V : Type} (p q : list (printf_call V)) :
  printed_values (p ++ q) = printed_values p ++ printed_values q.
Proof. unfold printed_values. apply flat_map_app. Qed.

Lemma flat_map_filter_map {A B : Type} (c : A -> bool) (v : A -> B) (l : list A) :
  flat_map (fun a => if c a then [] else [v a]) l
  = map v (filter (fun a => negb (c a)) l).
Proof.
  induction l as [|a l IH]; [reflexivity|].
  cbn [flat_map filter]. rewrite IH. destruct (c a); reflexivity.
Qed.


Lemma flat_map_filter {A B : Type} (c : A -> bool) (f : A -> list B) (l : list A) :
  flat_map (fun a => if c a then [] else f a) l
  = flat_map f (filter (fun a => negb (c a)) l).
Proof.
  induction l as [|a l IH]; [reflexivity|].
  cbn [flat_map filter]. rewrite IH. destruct (c a); reflexivity.
Qed.

Section Printouts.
Context `{TileDim}.
Context {V : Type}.
Variable m : Z -> V.

(** Property X21.  [print] of a shared vector: only lane 0 prints; a vector
    of at most 10 elements is shown whole, a longer one by its first and
    last 5 elements, in order, and the ellipsis is printed exactly for the
    longer ones. *)
Theorem sv_print_shows_ends (s : sv.t) (data : Z) :
  (forall laneid, laneid <> 0 -> sv_print s data m laneid = []) /\
  printed_values (sv_print s data m 0)
  = map (fun i => m (sv.subscript s data i)) (shown 10 (sv.length s)) /\
  (In (printf "... " []) (sv_print s data m 0) <-> 10 < sv.length s).
Proof.
  split; [|split].
  - intros l Hl. unfold sv_print. destruct (Z.eqb_spec l 0); [contradiction | reflexivity].
  - unfold sv_print. change (0 =? 0) with true. cbv iota zeta.
    rewrite !printed_values_app, printed_values_flat_map.
    change (printed_values [printf "Shared Vector %d: [" [arg_int (sv.length s)]])
      with (@nil V).
    change (printed_values [@printf V "]\n" []]) with (@nil V).
    rewrite app_nil_l, app_nil_r.
    rewrite <- (shown_filter 10 (sv.length s)) by lia. cbv zeta.
    rewrite <- flat_map_filter_map. apply flat_map_ext_in. intros i _.
    destruct ((_ <=? i) && (i <? _)).
    + destruct (i =? _); reflexivity.
    + rewrite printed_values_app. cbn [printed_values flat_map args app].
      destruct ((i <? _) && _); reflexivity.
  - unfold sv_print. change (0 =? 0) with true. cbv iota zeta.
    change (Z.quot 10 2) with 5.
    rewrite !in_app_iff, in_flat_map. split.
    + intros [Hin | [(i & Hi & Hin) | Hin]].
      * destruct Hin as [E | []]. discriminate E.
      * apply In_range in Hi.
        destruct (Z.leb_spec (sv.length s) 10) as [L | L]; [|exact L].
        destruct (Z.leb_spec (sv.length s) i); [lia|]. cbn [andb] in Hin.
        apply in_app_iff in Hin. destruct Hin as [[E | []] | Hin].
        -- destruct (sv.T s); discriminate E.
        -- destruct (_ && _); [destruct Hin as [E | []]; discriminate E | destruct Hin].
      * destruct Hin as [E | []]. discriminate E.
    + intros L. right. left. exists 5. split; [apply In_range; lia|].
      destruct (Z.leb_spec (sv.length s) 10) as [L' | _]; [lia|].
      change (5 <=? 5) with true. destruct (Z.ltb_spec 5 (sv.length s - 5)); [|lia].
      left. reflexivity.
Qed.

(** Property X22.  [print] of an [st]: only lane 0 prints; the elements
    shown are those of the first and last 3 rows (all rows when at most 6)
    at the first and last 5 columns (all when at most 10), row by row, read
    through [operator[]]. *)
Theorem st_print_shows_corners (is_integral : dtype -> bool) (s : st.t) (data : Z) :
  (forall laneid, laneid <> 0 -> st_print is_integral s data m laneid = []) /\
  printed_values (st_print is_integral s data m 0)
  = flat_map (fun r =>
      map (fun c => m (st.subscript_coord s data (mk_int2 r c))) (shown 10 (st.cols s)))
      (shown 6 (st.rows s)).
Proof.
  split.
  - intros l Hl. unfold st_print. destruct (Z.eqb_spec l 0); [contradiction | reflexivity].
  - unfold st_print. change (0 =? 0) with true. cbv iota zeta.
    rewrite !printed_values_app, printed_values_flat_map.
    change (printed_values
              [printf "Shared Tile(%d, %d)[\n" [arg_int (st.rows s); arg_int (st.cols s)]])
      with (@nil V).
    change (printed_values [@printf V "]\n" []]) with (@nil V).
    rewrite app_nil_l, app_nil_r.
    rewrite <- (shown_filter 6 (st.rows s)) by lia. cbv zeta.
    rewrite <- flat_map_filter. apply flat_map_ext_in. intros r _.
      destruct ((_ <=? r) && (r <? _)).
      * destruct (r =? _); reflexivity.
      * rewrite !printed_values_app, printed_values_flat_map.
        change (printed_values [@printf V "  [" []]) with (@nil V).
        rewrite app_nil_l.
        replace (printed_values (if r <? st.rows s - 1
                                 then [@printf V "],\n" []] else [printf "]\n" []]))
          with (@nil V) by (destruct (r <? _); reflexivity).
        rewrite app_nil_r.
        rewrite <- (shown_filter 10 (st.cols s)) by lia. cbv zeta.
        rewrite <- flat_map_filter_map. apply flat_map_ext_in. intros c _.
        destruct ((_ <=? c) && (c <? _)).
        -- destruct (c =? _); reflexivity.
        -- rewrite printed_values_app. cbn [printed_values flat_map args app].
           destruct ((c <? _) && _); reflexivity.
Qed.

End Printouts.

(** ** Instances *)

Lemma supported_bf16_32_64 : supported (H := dims16) (st.Build bf16 32 64).
Proof. unfold supported; cbn. repeat split; lia. Qed.

Lemma supported_float_32_32 : supported (H := dims16) (st.Build float 32 32).
Proof. unfold supported; cbn. repeat split; lia. Qed.

(** The statement of [swizzle_bytes_largest_period] for a 32 x 96 tile of
    2-byte elements. *)
Lemma swizzle_bytes_largest_period_witness :
  let s := st.Build bf16 32 96 in
  period_ok (st.swizzle_bytes (H := dims16) s) /\
  (2 * 96) mod st.swizzle_bytes (H := dims16) s = 0 /\
  (st.swizzle_bytes (H := dims16) s < 128 ->
   (2 * 96) mod (2 * st.swizzle_bytes (H := dims16) s) <> 0).
Proof.
  apply (swizzle_bytes_largest_period (H := dims16) (st.Build bf16 32 96)).
  - right; left; reflexivity.
  - reflexivity.
  - reflexivity.
  - reflexivity.
Defined.

(** The statement of [idx_rows_distinct_chunks] for rows 8 and 15 of column
    40 of a 32 x 64 tile of 2-byte elements. *)
Lemma idx_rows_distinct_chunks_witness :
  in_tile 32 64 (mk_int2 8 40) /\ in_tile 32 64 (mk_int2 15 40) /\
  (st.idx (H := dims16) (st.Build bf16 32 64) 1024 (mk_int2 8 40) / 16) mod 8
  <> (st.idx (H := dims16) (st.Build bf16 32 64) 1024 (mk_int2 15 40) / 16) mod 8.
Proof.
  assert (A : in_tile 32 64 (mk_int2 8 40)) by (split; simpl; lia).
  assert (B : in_tile 32 64 (mk_int2 15 40)) by (split; simpl; lia).
  split; [exact A | split; [exact B |]].
  apply (idx_rows_distinct_chunks (H := dims16) (st.Build bf16 32 64) 1024
           supported_bf16_32_64); simpl; try lia; assumption.
Defined.

(** The statement of [idx_row_segment] for the element (5, 70) of a 32 x 128
    tile of 2-byte elements. *)
Lemma idx_row_segment_witness :
  let s := st.Build bf16 32 128 in
  (st.idx (H := dims16) s 1024 (mk_int2 5 70) - 1024) / 128 = (70 / 64) * 32 + 5 /\
  st.idx (H := dims16) s 1024 (mk_int2 5 70) mod 16 = (2 * (70 mod 64)) mod 16.
Proof.
  assert (Hs : supported (H := dims16) (st.Build bf16 32 128))
    by (unfold supported; cbn; repeat split; lia).
  apply (idx_row_segment (H := dims16) (st.Build bf16 32 128) 1024 Hs).
  - lia.
  - simpl. lia.
  - reflexivity.
  - split; simpl; lia.
Defined.

(** The statement of [idx_chunk_contiguous] for columns 8 and 11 of row 3 of
    a 32 x 32 tile of 4-byte elements. *)
Lemma idx_chunk_contiguous_witness :
  let s := st.Build float 32 32 in
  st.idx (H := dims16) s 0 (mk_int2 3 8) mod 16 = 0 /\
  st.idx (H := dims16) s 0 (mk_int2 3 (8 + 3))
  = st.idx (H := dims16) s 0 (mk_int2 3 8) + 4 * 3.
Proof.
  apply (idx_chunk_contiguous (H := dims16) (st.Build float 32 32) 0
           supported_float_32_32); simpl; try lia; try reflexivity;
    split; simpl; lia.
Defined.

(** The statement of [idx_overloads_agree] for a 32 x 32 tile of 4-byte
    elements and its 16 x 16 subtile at block (1, 1). *)
Lemma idx_overloads_agree_witness :
  let s := st.Build float 32 32 in
  let S := st_subtile.ctor s 16 16 1024 (mk_int2 1 1) in
  st.idx_ptr (H := dims16) s 1024 (mk_int2 17 5)
  = st.idx (H := dims16) s 1024 (mk_int2 17 5) /\
  st_subtile.idx_ptr (H := dims16) S 1024 (mk_int2 1 5)
  = st_subtile.idx (H := dims16) S 1024 (mk_int2 1 5).
Proof.
  apply (idx_overloads_agree (H := dims16) (st.Build float 32 32) 1024
           supported_float_32_32); simpl; try lia; try reflexivity;
    split; simpl; lia.
Defined.


(** The statement of [store_writes_each_element_once] for the 16 x 16
    subtile at block (1, 1) of a 32 x 32 tile of 4-byte elements, row layout. *)
Lemma store_writes_each_element_once_witness :
  let R := rt.Build rt_layout.row 1 1 16 16 in
  let S := ST.sub (st_subtile.ctor (st.Build float 32 32) 16 16 0 (mk_int2 1 1)) in
  let src : fragment Z := fun laneid _ _ k e => laneid + 2 * k + e in
  exists ops,
    transfer.store (H := dims16) (fun t => t) true R S 1024 src = Compiled ops /\
    Forall (fun op => exists addr v, op = Store addr v) ops /\
    Permutation (map op_addr ops) (tile_addrs (H := dims16) S 1024) /\
    NoDup (tile_addrs (H := dims16) S 1024).
Proof.
  apply (store_writes_each_element_once (H := dims16) (fun t : Z => t) true _ _ 1024
           transfer_ok_float_subtile).
  cbn. intros [E _]. discriminate.
Defined.

(** The statement of [store_order_independent] for a 32 x 64 tile of 2-byte
    elements, column layout. *)
Lemma store_order_independent_witness :
  let R := rt.Build rt_layout.col 2 4 16 16 in
  let S := ST.root (st.Build bf16 32 64) in
  let src : fragment Z := fun laneid _ _ k e => laneid + 2 * k + e in
  exists ops,
    transfer.store (H := dims16) (fun t => t) false R S 0 src = Compiled ops /\
    forall ops', Permutation ops ops' ->
    forall b, run Z.add ops' (fun _ => 0) b = run Z.add ops (fun _ => 0) b.
Proof.
  apply (store_order_independent (H := dims16) (fun t : Z => t) false _ _ 0
           transfer_ok_bf16_tile).
  cbn. intros [E _]. discriminate.
Defined.

(** The statement of [store_leaves_rest_untouched] for the 16 x 16 subtile
    at block (1, 1) of a 32 x 32 tile of 4-byte elements, row layout. *)
Lemma store_leaves_rest_untouched_witness :
  let R := rt.Build rt_layout.row 1 1 16 16 in
  let S := ST.sub (st_subtile.ctor (st.Build float 32 32) 16 16 0 (mk_int2 1 1)) in
  let src : fragment Z := fun laneid _ _ k e => laneid + 2 * k + e in
  let m : Z -> Z := fun b => b in
  exists ops,
    transfer.store (H := dims16) (fun t => t) true R S 1024 src = Compiled ops /\
    (forall b, ~ In b (tile_addrs (H := dims16) S 1024) ->
       run Z.add ops m b = m b) /\
    (forall p, in_tile 32 32 p ->
       ~ in_tile 16 16 (mk_int2 (x p - 16) (y p - 16)) ->
       run Z.add ops m (st.idx (H := dims16) (st.Build float 32 32) 1024 p)
       = m (st.idx (H := dims16) (st.Build float 32 32) 1024 p)).
Proof.
  apply (store_leaves_rest_untouched (H := dims16) (fun t : Z => t) true _ _ 1024
           transfer_ok_float_subtile).
  cbn. intros [E _]. discriminate.
Defined.

(** The statement of [load_fragment_layout] for a 32 x 64 tile of 2-byte
    elements, column layout. *)
Lemma load_fragment_layout_witness :
  let R := rt.Build rt_layout.col 2 4 16 16 in
  let S := ST.root (st.Build bf16 32 64) in
  let m : Z -> Z := fun b => b in
  let dst : fragment Z := fun _ _ _ _ _ => 0 in
  exists f,
    transfer.load (H := dims16) (fun u => u) R S m 0 dst = Compiled f /\
    (forall i j l k e,
       0 <= i < 2 -> 0 <= j < 4 -> slot_ok 2 l k e ->
       f l i j k e
       = m (ST.idx (H := dims16) S 0 (frag_coord 2 rt_layout.col 16 16 i j l k e))) /\
    (forall m' f',
       (forall b, In b (tile_addrs (H := dims16) S 0) -> m' b = m b) ->
       transfer.load (H := dims16) (fun u => u) R S m' 0 dst = Compiled f' ->
       forall i j l k e,
         0 <= i < 2 -> 0 <= j < 4 -> slot_ok 2 l k e ->
         f' l i j k e = f l i j k e).
Proof.
  apply (load_fragment_layout (H := dims16) (fun u : Z => u) _ _ 0
           transfer_ok_bf16_tile).
  cbn. intros [E _]. discriminate.
Defined.

(** The statement of [load_after_store] for the 16 x 16 subtile at block (1,
    1) of a 32 x 32 tile of 4-byte elements, row layout. *)
Lemma load_after_store_witness :
  let R := rt.Build rt_layout.row 1 1 16 16 in
  let S := ST.sub (st_subtile.ctor (st.Build float 32 32) 16 16 0 (mk_int2 1 1)) in
  let src : fragment Z := fun laneid _ _ k e => laneid + 2 * k + e in
  let dst : fragment Z := fun _ _ _ _ _ => 0 in
  exists ops f,
    transfer.store (H := dims16) (fun t => t) true R S 1024 src = Compiled ops /\
    transfer.load (H := dims16) (fun u => u) R S (run Z.add ops (fun _ => 0)) 1024 dst
    = Compiled f /\
    forall i j l k e,
      0 <= i < 1 -> 0 <= j < 1 -> slot_ok 4 l k e ->
      f l i j k e = src l i j k e.
Proof.
  apply (load_after_store (H := dims16) (fun u : Z => u) (fun t : Z => t) true _ _ 1024
           transfer_ok_float_subtile).
  - reflexivity.
  - cbn. intros [E _]. discriminate.
Defined.

(** The statement of [atomic_add_accumulates] for a 32 x 64 tile of 2-byte
    elements, column layout. *)
Lemma atomic_add_accumulates_witness :
  let R := rt.Build rt_layout.col 2 4 16 16 in
  let S := ST.root (st.Build bf16 32 64) in
  let src : fragment Z := fun laneid _ _ k e => laneid + 2 * k + e in
  let m : Z -> Z := fun b => b in
  exists adds,
    transfer.atomic_add (H := dims16) (fun t => t) R S 0 src = Compiled adds /\
    (forall i j l k e,
       0 <= i < 2 -> 0 <= j < 4 -> slot_ok 2 l k e ->
       let b := ST.idx (H := dims16) S 0 (frag_coord 2 rt_layout.col 16 16 i j l k e) in
       run Z.add adds m b = m b + src l i j k e) /\
    (forall b, ~ In b (tile_addrs (H := dims16) S 0) -> run Z.add adds m b = m b).
Proof.
  apply (atomic_add_accumulates (H := dims16) (fun t : Z => t) _ _ 0
           transfer_ok_bf16_tile).
  cbn. lia.
Defined.

(** The statement of [sv_alloc_rounds_up] for a vector of 48 2-byte
    elements. *)
Lemma sv_alloc_rounds_up_witness :
  let s := sv.Build bf16 48 in
  let n := sv.num_alloc_elements true s in
  48 <= n /\ (n * 2) mod 128 = 0 /\ n * 2 < 48 * 2 + 128 /\
  sv.num_alloc_elements false s = 48.
Proof.
  apply (sv_alloc_rounds_up (sv.Build bf16 48)); cbn; try lia; reflexivity.
Defined.

(** The statement of [sv_assign_fills] for a vector of 64 4-byte elements.
    *)
Lemma sv_assign_fills_witness :
  let s := sv.Build float 64 in
  let m : Z -> Z := fun b => b in
  (forall i, 0 <= i < 64 ->
     run Z.add (sv.assign s 256 7) m (sv.subscript s 256 i) = 7) /\
  (forall i, ~ 0 <= i < 64 ->
     run Z.add (sv.assign s 256 7) m (sv.subscript s 256 i)
     = m (sv.subscript s 256 i)).
Proof.
  apply (sv_assign_fills Z.add (sv.Build float 64) 256 7). cbn. lia.
Defined.

(** The statement of [subtile_assign_fills_buffer_prefix] for the 16 x 16
    subtile at block (1, 1) of a 32 x 32 tile of 4-byte elements. *)
Lemma subtile_assign_fills_buffer_prefix_witness :
  let S := st_subtile.ctor (st.Build float 32 32) 16 16 1024 (mk_int2 1 1) in
  let m : Z -> Z := fun b => b in
  (forall i, 0 <= i < 16 * 16 ->
     run Z.add (st_subtile_assign S 7) m (1024 + 4 * i) = 7) /\
  (forall b, (forall i, 0 <= i < 16 * 16 -> b <> 1024 + 4 * i) ->
     run Z.add (st_subtile_assign S 7) m b = m b).
Proof.
  apply (subtile_assign_fills_buffer_prefix Z.add
           (st_subtile.ctor (st.Build float 32 32) 16 16 1024 (mk_int2 1 1)) 7).
  cbn. lia.
Defined.

(** The statement of [subtile_assign_full_view] for the 32 x 32 subtile of a
    32 x 32 tile of 4-byte elements. *)
Lemma subtile_assign_full_view_witness :
  let S := st_subtile.ctor (st.Build float 32 32) 32 32 1024 (mk_int2 0 0) in
  in_tile 32 32 (mk_int2 17 9) /\
  run Z.add (st_subtile_assign S 7) (fun b => b)
    (st_subtile.subscript_coord (H := dims16) S (mk_int2 17 9)) = 7.
Proof.
  assert (A : in_tile 32 32 (mk_int2 17 9)) by (split; simpl; lia).
  split; [exact A|].
  apply (subtile_assign_full_view (H := dims16) Z.add
           (st_subtile.ctor (st.Build float 32 32) 32 32 1024 (mk_int2 0 0)) 7
           (fun b => b) supported_float_32_32); try reflexivity; exact A.
Defined.

(** The statement of [subtile_assign_misses_offset_block] for the 16 x 16
    subtile at block (1, 1) of a 32 x 32 tile of 4-byte elements. *)
Lemma subtile_assign_misses_offset_block_witness :
  let S := st_subtile.ctor (st.Build float 32 32) 16 16 1024 (mk_int2 1 1) in
  in_tile 16 16 (mk_int2 3 5) /\
  run Z.add (st_subtile_assign S 7) (fun b => b)
    (st_subtile.subscript_coord (H := dims16) S (mk_int2 3 5))
  = st_subtile.subscript_coord (H := dims16) S (mk_int2 3 5).
Proof.
  assert (A : in_tile 16 16 (mk_int2 3 5)) by (split; simpl; lia).
  split; [exact A|].
  apply (subtile_assign_misses_offset_block (H := dims16) Z.add
           (st_subtile.ctor (st.Build float 32 32) 16 16 1024 (mk_int2 1 1)) 7
           (fun b => b) supported_float_32_32); try reflexivity; try exact A;
    cbn; lia.
Defined.

(** The statement of [wgmma_placeholders_bind_operands] for the pair (float,
    bf16). *)
Lemma wgmma_placeholders_bind_operands_witness :
  exists r s,
    base_asm.rt_st float bf16 = Some r /\ base_asm.st_st float bf16 = Some s /\
    (base_asm.operand_at r (base_asm.setp r) = Some base_asm.scale_d /\
     map (base_asm.operand_at r) (base_asm.d r) = map Some (base_asm.outputs r) /\
     map (base_asm.operand_at r) (base_asm.a r)
       = [Some (base_asm.a_reg 0); Some (base_asm.a_reg 1);
          Some (base_asm.a_reg 2); Some (base_asm.a_reg 3)] /\
     base_asm.operand_at r (base_asm.b r) = Some base_asm.b_st_desc /\
     base_asm.imm_scale_a r = 1 /\
     map (base_asm.operand_at r) (base_asm.after_p r)
       = [Some base_asm.scale_b; Some base_asm.trans_b]) /\
    (base_asm.operand_at s (base_asm.setp s) = Some base_asm.scale_d /\
     map (base_asm.operand_at s) (base_asm.d s) = map Some (base_asm.outputs s) /\
     map (base_asm.operand_at s) (base_asm.a s) = [Some base_asm.a_st_desc] /\
     base_asm.operand_at s (base_asm.b s) = Some base_asm.b_st_desc /\
     base_asm.imm_scale_a s = 1 /\
     map (base_asm.operand_at s) (base_asm.after_p s)
       = [Some base_asm.scale_b; Some base_asm.trans_a; Some base_asm.trans_b]) /\
    (forall trans_a trans_b scale_b scale_d,
       base.scale_assert scale_b = true ->
       exists w w',
         base.rt_st float bf16 trans_a trans_b scale_b scale_d = Compiled (Some w) /\
         base.st_st float bf16 trans_a trans_b scale_b scale_d = Compiled (Some w') /\
         base.opcode w = base_asm.opcode r /\
         base.opcode w' = base_asm.opcode s /\
         base.accumulators w = Z.of_nat (List.length (base_asm.outputs r)) /\
         base.accumulators w' = Z.of_nat (List.length (base_asm.outputs s))).
Proof.
  apply (wgmma_placeholders_bind_operands float bf16). reflexivity.
Defined.

(** The statement of [wgmma_accumulators_cover_dst] for the pair (half,
    half). *)
Lemma wgmma_accumulators_cover_dst_witness :
  exists r s,
    base_asm.rt_st half half = Some r /\ base_asm.st_st half half = Some s /\
    base_asm.outputs s = base_asm.outputs r /\
    base_asm.outputs r =
      flat_map (fun tile =>
        flat_map (fun reg =>
          if dtype_eqb half float
          then [base_asm.acc tile reg 0; base_asm.acc tile reg 1]
          else [base_asm.acc_reg tile reg])
          (range 4))
        (range (Z.quot 80 16)) /\
    NoDup (base_asm.outputs r) /\
    Z.of_nat (List.length (base_asm.outputs r)) * (4 / sizeof half) * 128
    = 64 * 80.
Proof.
  apply (wgmma_accumulators_cover_dst half half). reflexivity.
Defined.

(** ** The two store paths *)

Section StorePaths.
Context `{TileDim}.
Context {U T : Type}.
Variable convert_out : T -> U.
Variables (R : rt.t) (a : ST.t) (shared_addr : Z).
Hypothesis Hok : transfer_ok R a shared_addr.

Lemma store_paths_perm (src : fragment T) :
  ~ (sizeof (ST.dtype a) = 1 /\ rt.layout R = rt_layout.col) ->
  Permutation
    (transfer.tiles_loop R (transfer.store_tile convert_out true R a shared_addr src))
    (transfer.tiles_loop R (transfer.store_tile convert_out false R a shared_addr src)).
Proof.
  intros Hcase. unfold transfer.tiles_loop.
  apply Permutation_flat_map_in. intros i Hi.
  apply Permutation_flat_map_in. intros j Hj.
  apply In_range in Hi, Hj.
  rewrite (store_tile_slots convert_out true R a shared_addr Hok src i j Hcase Hi Hj).
  rewrite (store_tile_slots convert_out false R a shared_addr Hok src i j Hcase Hi Hj).
  apply Permutation_flat_map_in. intros l _.
  apply Permutation_map. apply store_order_atomic.
Qed.

(** Property X23.  The grouped-store path of [KITTENS_HOPPER] and the
    element-by-element path of [store] write the same values to the same
    addresses (their operations are a permutation of each other) and leave
    the same memory. *)
Theorem store_paths_agree (add : U -> U -> U) (src : fragment T) :
  ~ (sizeof (ST.dtype a) = 1 /\ rt.layout R = rt_layout.col) ->
  exists grouped single,
    transfer.store convert_out true R a shared_addr src = Compiled grouped /\
    transfer.store convert_out false R a shared_addr src = Compiled single /\
    Permutation grouped single /\
    forall m b, run add grouped m b = run add single m b.
Proof.
  intros Hcase. eexists. eexists.
  split; [apply (store_compiled convert_out true R a shared_addr Hok)|].
  split; [apply (store_compiled convert_out false R a shared_addr Hok)|].
  split; [apply store_paths_perm; exact Hcase|].
  intros m b. symmetry. apply run_perm.
  - apply (store_addrs_NoDup R a shared_addr Hok convert_out true src Hcase).
  - apply store_paths_perm. exact Hcase.
Qed.

End StorePaths.

(** The statement of [store_paths_agree] for a 32 x 64 tile of 2-byte
    elements, column layout. *)
Lemma store_paths_agree_witness :
  let R := rt.Build rt_layout.col 2 4 16 16 in
  let S := ST.root (st.Build bf16 32 64) in
  let src : fragment Z := fun laneid _ _ k e => laneid + 2 * k + e in
  exists grouped single,
    transfer.store (H := dims16) (fun t => t) true R S 0 src = Compiled grouped /\
    transfer.store (H := dims16) (fun t => t) false R S 0 src = Compiled single /\
    Permutation grouped single /\
    forall m b, run Z.add grouped m b = run Z.add single m b.
Proof.
  apply (store_paths_agree (H := dims16) (fun t : Z => t) _ _ 0 transfer_ok_bf16_tile).
  cbn. intros [E _]. discriminate.
Defined.
